(** * My List service: pagination, cursor codec and cache layer

    A shallow embedding of the list-read path of the "My List" backend
    (src/services/my-list-service.ts, the cache service, the list-item
    model and the error handler) together with the parts of the JavaScript
    runtime, of MongoDB and of Redis that this code calls.

    Conventions of the embedding:
    - a JavaScript string is the sequence of its UTF-8 bytes ([string]);
    - a JavaScript number that the code uses as a count, a page or a limit
      is an integer ([Z]); a [Date] is its time value in milliseconds;
    - an ObjectId is the 96-bit big-endian number of its twelve bytes ([Z]);
    - a thrown exception is the [Throw] case of [result];
    - the MongoDB collection is the list of its documents in natural
      (insertion) order; the Redis keyspace is a [gmap]. *)

From Stdlib Require Import ZArith Lia List Ascii String Bool Permutation Sorted.
From stdpp Require Import base tactics option list strings pretty gmap sorting.

Local Open Scope Z_scope.

(** ** Exceptions and results *)

(** The exceptions the modelled code throws or lets through. *)
Inductive exn : Type :=
  | BadRequestError (message : string)
  | NotFoundError (message : string)
  | ConflictError (message : string)
  | CastError
  | MongoServerError (code : Z)
  | RangeError
  | SyntaxError
  | RedisError.

Inductive result (A : Type) : Type :=
  | Ok (a : A)
  | Throw (e : exn).
Arguments Ok {A} a.
Arguments Throw {A} e.

Definition bind {A B : Type} (r : result A) (k : A -> result B) : result B :=
  match r with
  | Ok a => k a
  | Throw e => Throw e
  end.

Notation "'let?' x ':=' r 'in' k" := (bind r (fun x => k))
  (at level 10, x pattern, r at level 100, k at level 200).

(** src/constants: the messages the service uses. *)
Module VALIDATION.
Definition INVALID_CURSOR : string := "Invalid cursor".
Definition INVALID_CURSOR_FORMAT : string := "Invalid cursor format".
End VALIDATION.

Module ERRORS.
Definition ITEM_ALREADY_IN_LIST : string := "Item already exists in list".
Definition ITEM_NOT_IN_LIST : string := "Item not in list".
Definition MOVIE_NOT_FOUND : string := "Movie not found".
Definition TV_SHOW_NOT_FOUND : string := "TV Show not found".
End ERRORS.

(** ** The JavaScript runtime *)

Module JS.

(** *** Fixed-width numerals (decimal for dates, hexadecimal for ids) *)

(** The code of a character and the character of a code. *)
Definition byte (c : ascii) : Z := Z.of_N (N_of_ascii c).
Definition char (n : Z) : ascii := ascii_of_N (Z.to_N n).

(** The digit of a value below 16: [0-9] then [a-f]. *)
Definition digit_char (d : Z) : ascii :=
  if d <? 10 then char (48 + d) else char (87 + d).

(** The value of a hexadecimal digit of either case. *)
Definition hex_value (c : ascii) : option Z :=
  let n := byte c in
  if (48 <=? n) && (n <=? 57) then Some (n - 48)
  else if (97 <=? n) && (n <=? 102) then Some (n - 87)
  else if (65 <=? n) && (n <=? 70) then Some (n - 55)
  else None.

Definition char_digit (base : Z) (c : ascii) : option Z :=
  match hex_value c with
  | Some d => if d <? base then Some d else None
  | None => None
  end.

(** [fixed_digits base w n]: the [w] least significant digits of [n],
    most significant first (String.prototype.padStart with "0"). *)
Fixpoint fixed_digits (base : Z) (w : nat) (n : Z) : string :=
  match w with
  | O => ""
  | S w' => String (digit_char ((n / base ^ Z.of_nat w') mod base))
                   (fixed_digits base w' n)
  end.

(** Reads exactly [w] digits; the rest of the input is returned. *)
Fixpoint read_digits (base : Z) (w : nat) (acc : Z) (s : string)
  : option (Z * string) :=
  match w with
  | O => Some (acc, s)
  | S w' =>
      match s with
      | String c s' =>
          match char_digit base c with
          | Some d => read_digits base w' (acc * base + d) s'
          | None => None
          end
      | EmptyString => None
      end
  end.

(** Reads one expected character. *)
Definition expect (c : ascii) (s : string) : option string :=
  match s with
  | String c' s' => if Ascii.eqb c c' then Some s' else None
  | EmptyString => None
  end.

(** *** Truthiness and [||] *)

(** [x || d] on an optional number: [undefined] and [0] are falsy. *)
Definition number_or (x : option Z) (d : Z) : Z :=
  match x with
  | Some n => if n =? 0 then d else n
  | None => d
  end.

(** A string is truthy when it is not empty. *)
Definition string_truthy (s : string) : bool :=
  match s with
  | EmptyString => false
  | String _ _ => true
  end.

(** [s || null] on an optional string. *)
Definition string_or_null (s : option string) : option string :=
  match s with
  | Some x => if string_truthy x then Some x else None
  | None => None
  end.

(** Template-literal rendering of an integer. *)
Definition String_of_number (n : Z) : string := pretty n.

End JS.

(** *** White space *)

(** The white space and line terminators of three bytes in UTF-8:
    U+1680, U+2000 to U+200A, U+2028, U+2029, U+202F, U+205F, U+3000 and
    U+FEFF. *)
Definition whitespace3 (a b c : Z) : bool :=
  ((a =? 225) && (b =? 154) && (c =? 128))
  || ((a =? 226) && (b =? 128)
      && (((128 <=? c) && (c <=? 138)) || (c =? 168) || (c =? 169) || (c =? 175)))
  || ((a =? 226) && (b =? 129) && (c =? 159))
  || ((a =? 227) && (b =? 128) && (c =? 128))
  || ((a =? 239) && (b =? 187) && (c =? 191)).

(** [TrimString(s, start)]: the string after its leading white space
    (tab, line feed, vertical tab, form feed, carriage return, space,
    U+00A0 and the characters of [whitespace3]). *)
Fixpoint trimStart (s : string) : string :=
  match s with
  | EmptyString => s
  | String a r1 =>
      let x := JS.byte a in
      if ((9 <=? x) && (x <=? 13)) || (x =? 32) then trimStart r1
      else
        match r1 with
        | EmptyString => s
        | String b r2 =>
            if (x =? 194) && (JS.byte b =? 160) then trimStart r2
            else
              match r2 with
              | EmptyString => s
              | String c r3 =>
                  if whitespace3 x (JS.byte b) (JS.byte c) then trimStart r3 else s
              end
        end
  end.

(** [trimEnd]: the string without its trailing white space; a suffix
    is dropped when it is white space throughout. *)
Fixpoint trimEnd (s : string) : string :=
  match s with
  | EmptyString => s
  | String a r =>
      match trimStart s with
      | EmptyString => EmptyString
      | String _ _ => String a (trimEnd r)
      end
  end.

(** [String.prototype.trim]. *)
Definition trim (s : string) : string := trimEnd (trimStart s).

(** *** Date: time values and the ISO-8601 form of [toISOString] *)

Module Date.

(** A time value is valid within 100,000,000 days of the epoch. *)
Definition maxTime : Z := 8640000000000000.
Definition msPerDay : Z := 86400000.

Definition valid (t : Z) : bool := (- maxTime <=? t) && (t <=? maxTime).

(** The calendar runs in eras of 400 years (146097 days) that start on
    1 March of a year divisible by 400. Year of the era (0..399), month
    (1..12) and day (1..31) of a day of the era (0..146096). *)
Definition civil_of_era_day (doe : Z) : Z * Z * Z :=
  let yoe := (doe - doe / 1460 + doe / 36524 - doe / 146096) / 365 in
  let doy := doe - (365 * yoe + yoe / 4 - yoe / 100) in
  let mp := (5 * doy + 2) / 153 in
  (yoe, if mp <? 10 then mp + 3 else mp - 9, doy - (153 * mp + 2) / 5 + 1).

Definition era_day_of_civil (yoe m d : Z) : Z :=
  let mp := if m <=? 2 then m + 9 else m - 3 in
  yoe * 365 + yoe / 4 - yoe / 100 + (153 * mp + 2) / 5 + d - 1.

(** Year, month and day of a day number counted from 1970-01-01, in the
    proleptic Gregorian calendar; January and February belong to the
    year after the one their era year started in. *)
Definition civil_from_days (z : Z) : Z * Z * Z :=
  let z' := z + 719468 in
  let '(yoe, m, d) := civil_of_era_day (z' mod 146097) in
  (yoe + z' / 146097 * 400 + (if m <=? 2 then 1 else 0), m, d).

Definition days_from_civil (y m d : Z) : Z :=
  let y' := if m <=? 2 then y - 1 else y in
  y' / 400 * 146097 + era_day_of_civil (y' mod 400) m d - 719468.

(** Four digits for the years 0..9999, a sign and six digits otherwise. *)
Definition year_string (y : Z) : string :=
  if (0 <=? y) && (y <=? 9999) then JS.fixed_digits 10 4 y
  else String (if y <? 0 then "-"%char else "+"%char) (JS.fixed_digits 10 6 (Z.abs y)).

Definition iso_string (t : Z) : string :=
  let '(y, m, d) := civil_from_days (t / msPerDay) in
  let r := t mod msPerDay in
  year_string y +:+ "-" +:+ JS.fixed_digits 10 2 m +:+ "-" +:+
  JS.fixed_digits 10 2 d +:+ "T" +:+ JS.fixed_digits 10 2 (r / 3600000) +:+
  ":" +:+ JS.fixed_digits 10 2 ((r / 60000) mod 60) +:+ ":" +:+
  JS.fixed_digits 10 2 ((r / 1000) mod 60) +:+ "." +:+
  JS.fixed_digits 10 3 (r mod 1000) +:+ "Z".

(** [Date.prototype.toISOString]: a RangeError on an invalid date. *)
Definition toISOString (t : Z) : result string :=
  if valid t then Ok (iso_string t) else Throw RangeError.

Definition read_year (s : string) : option (Z * string) :=
  match s with
  | String c s' =>
      if Ascii.eqb c "+" then JS.read_digits 10 6 0 s'
      else if Ascii.eqb c "-" then '(y, r) ← JS.read_digits 10 6 0 s'; Some (- y, r)
      else JS.read_digits 10 4 0 s
  | EmptyString => None
  end.

(** The time value spelled by a string of the shape
    [YYYY-MM-DDTHH:mm:ss.sssZ] (or with an expanded year). *)
Definition read_fields (s : string) : option Z :=
  '(y, s) ← read_year s;
  s ← JS.expect "-" s;
  '(m, s) ← JS.read_digits 10 2 0 s;
  s ← JS.expect "-" s;
  '(d, s) ← JS.read_digits 10 2 0 s;
  s ← JS.expect "T" s;
  '(h, s) ← JS.read_digits 10 2 0 s;
  s ← JS.expect ":" s;
  '(mi, s) ← JS.read_digits 10 2 0 s;
  s ← JS.expect ":" s;
  '(sec, s) ← JS.read_digits 10 2 0 s;
  s ← JS.expect "." s;
  '(ms, s) ← JS.read_digits 10 3 0 s;
  s ← JS.expect "Z" s;
  match s with
  | EmptyString =>
      Some (days_from_civil y m d * msPerDay
            + h * 3600000 + mi * 60000 + sec * 1000 + ms)
  | String _ _ => None
  end.

(** The strings every engine must parse: exactly those that
    [toISOString] produces, each to the time value it came from. Other
    spellings (date-only forms, offsets, legacy formats) are left to the
    engine, see [Engine.newDate]. *)
Definition parse_iso (s : string) : option Z :=
  match read_fields s with
  | Some t =>
      if valid t && bool_decide (iso_string t = s) then Some t else None
  | None => None
  end.

End Date.

(** *** Buffer: base64 as Node implements it *)

Module Buffer.

Definition alphabet : string :=
  "ABCDEFGHIJKLMNOPQRSTUVWXYZabcdefghijklmnopqrstuvwxyz0123456789+/".

Definition sextet_char (n : Z) : ascii :=
  match String.get (Z.to_nat n) alphabet with
  | Some c => c
  | None => "="%char
  end.

(** The value of a legal character; the URL-safe [-] and [_] are legal
    too. *)
Definition unbase64 (c : ascii) : option Z :=
  let n := JS.byte c in
  if (65 <=? n) && (n <=? 90) then Some (n - 65)
  else if (97 <=? n) && (n <=? 122) then Some (n - 71)
  else if (48 <=? n) && (n <=? 57) then Some (n + 4)
  else if (n =? 43) || (n =? 45) then Some 62
  else if (n =? 47) || (n =? 95) then Some 63
  else None.

(** [Buffer.from(bytes).toString('base64')]. *)
Fixpoint toString_base64 (s : string) : string :=
  match s with
  | EmptyString => ""
  | String a EmptyString =>
      let a := JS.byte a in
      String (sextet_char (a / 4)) (String (sextet_char (a mod 4 * 16)) "==")
  | String a (String b EmptyString) =>
      let a := JS.byte a in
      let b := JS.byte b in
      String (sextet_char (a / 4))
        (String (sextet_char (a mod 4 * 16 + b / 16))
           (String (sextet_char (b mod 16 * 4)) "="))
  | String a (String b (String c rest)) =>
      let a := JS.byte a in
      let b := JS.byte b in
      let c := JS.byte c in
      String (sextet_char (a / 4))
        (String (sextet_char (a mod 4 * 16 + b / 16))
           (String (sextet_char (b mod 16 * 4 + c / 64))
              (String (sextet_char (c mod 64)) (toString_base64 rest))))
  end.

(** The legal characters of the input up to the first [=]: decoding
    skips every other character and never fails. *)
Fixpoint sextets (s : string) : list Z :=
  match s with
  | EmptyString => []
  | String c s' =>
      if Ascii.eqb c "=" then []
      else match unbase64 c with
           | Some v => v :: sextets s'
           | None => sextets s'
           end
  end.

Fixpoint bytes_of_sextets (l : list Z) : string :=
  match l with
  | a :: b :: c :: d :: rest =>
      String (JS.char (a * 4 + b / 16))
        (String (JS.char (b mod 16 * 16 + c / 4))
           (String (JS.char (c mod 4 * 64 + d)) (bytes_of_sextets rest)))
  | [a; b; c] =>
      String (JS.char (a * 4 + b / 16)) (String (JS.char (b mod 16 * 16 + c / 4)) "")
  | [a; b] => String (JS.char (a * 4 + b / 16)) ""
  | _ => ""
  end.

(** [Buffer.from(s, 'base64').toString('utf-8')]; the text is kept as
    its bytes. *)
Definition from_base64 (s : string) : string := bytes_of_sextets (sextets s).

End Buffer.

(** *** JSON *)

#[warnings="-register-all"]
Inductive json : Type :=
  | JNull
  | JBool (b : bool)
  | JNum (numeral : string)
  | JStr (s : string)
  | JArr (elements : list json)
  | JObj (members : list (string * json)).

Module JSON.

Definition dquote : ascii := "034"%char.
Definition backslash : ascii := "092"%char.

Definition quote (s : string) : string :=
  String dquote (s +:+ String dquote EmptyString).

Definition is_ws (c : ascii) : bool :=
  Ascii.eqb c " " || Ascii.eqb c "009" || Ascii.eqb c "010" || Ascii.eqb c "013".

Fixpoint skip_ws (s : string) : string :=
  match s with
  | String c s' => if is_ws c then skip_ws s' else s
  | EmptyString => s
  end.

Fixpoint expect_string (w s : string) : option string :=
  match w with
  | EmptyString => Some s
  | String c w' => s' ← JS.expect c s; expect_string w' s'
  end.

(** The UTF-8 bytes of a UTF-16 code unit given by a [\u] escape (the
    two halves of a surrogate pair are encoded one by one). *)
Definition utf8 (cp : Z) (rest : string) : string :=
  if cp <? 128 then String (JS.char cp) rest
  else if cp <? 2048 then
    String (JS.char (192 + cp / 64)) (String (JS.char (128 + cp mod 64)) rest)
  else
    String (JS.char (224 + cp / 4096))
      (String (JS.char (128 + cp / 64 mod 64))
         (String (JS.char (128 + cp mod 64)) rest)).

Definition unescape (e : ascii) : option ascii :=
  if Ascii.eqb e dquote then Some dquote
  else if Ascii.eqb e backslash then Some backslash
  else if Ascii.eqb e "/" then Some "/"%char
  else if Ascii.eqb e "b" then Some "008"%char
  else if Ascii.eqb e "f" then Some "012"%char
  else if Ascii.eqb e "n" then Some "010"%char
  else if Ascii.eqb e "r" then Some "013"%char
  else if Ascii.eqb e "t" then Some "009"%char
  else None.

(** The contents of a string literal whose opening quote has been read,
    and the input after its closing quote. *)
Fixpoint read_string (s : string) : option (string * string) :=
  match s with
  | EmptyString => None
  | String c s' =>
      if Ascii.eqb c dquote then Some (EmptyString, s')
      else if Ascii.eqb c backslash then
        match s' with
        | EmptyString => None
        | String e s'' =>
            if Ascii.eqb e "u" then
              match s'' with
              | String h1 (String h2 (String h3 (String h4 s3))) =>
                  '(cp, _) ← JS.read_digits 16 4 0
                     (String h1 (String h2 (String h3 (String h4 EmptyString))));
                  '(str, r) ← read_string s3;
                  Some (utf8 cp str, r)
              | _ => None
              end
            else
              ch ← unescape e;
              '(str, r) ← read_string s'';
              Some (String ch str, r)
        end
      else if JS.byte c <? 32 then None
      else '(str, r) ← read_string s'; Some (String c str, r)
  end.

Definition is_digit (c : ascii) : bool :=
  (48 <=? JS.byte c) && (JS.byte c <=? 57).

(** The longest prefix of digits, and the rest. *)
Fixpoint span_digits (s : string) : string * string :=
  match s with
  | String c s' =>
      if is_digit c then let '(ds, r) := span_digits s' in (String c ds, r)
      else (EmptyString, s)
  | EmptyString => (EmptyString, s)
  end.

Definition read_int (s : string) : option (string * string) :=
  match span_digits s with
  | (EmptyString, _) => None
  | (String "0" (String _ _), _) => None
  | (ds, r) => Some (ds, r)
  end.

Definition read_frac (s : string) : option (string * string) :=
  match s with
  | String "." s' =>
      match span_digits s' with
      | (EmptyString, _) => None
      | (ds, r) => Some (String "." ds, r)
      end
  | _ => Some (EmptyString, s)
  end.

Definition read_exp (s : string) : option (string * string) :=
  match s with
  | String c s' =>
      if Ascii.eqb c "e" || Ascii.eqb c "E" then
        let '(sign, s1) :=
          match s' with
          | String "+" s1 => ("+", s1)
          | String "-" s1 => ("-", s1)
          | _ => (EmptyString, s')
          end in
        match span_digits s1 with
        | (EmptyString, _) => None
        | (ds, r) => Some (String c (sign +:+ ds), r)
        end
      else Some (EmptyString, s)
  | EmptyString => Some (EmptyString, s)
  end.

(** A number is kept as its numeral. *)
Definition read_number (s : string) : option (string * string) :=
  let '(sign, s1) :=
    match s with
    | String "-" s1 => ("-", s1)
    | _ => (EmptyString, s)
    end in
  '(i, s2) ← read_int s1;
  '(f, s3) ← read_frac s2;
  '(e, s4) ← read_exp s3;
  Some (sign +:+ i +:+ f +:+ e, s4).

(** One value, and the input after it. The fuel bounds the number of
    nested and of successive values; [parse] gives more than any text
    can use. *)
Fixpoint parse_value (fuel : nat) (s : string) : option (json * string) :=
  match fuel with
  | O => None
  | S f =>
      match skip_ws s with
      | EmptyString => None
      | String c s' =>
          if Ascii.eqb c "{" then
            match JS.expect "}" (skip_ws s') with
            | Some r => Some (JObj [], r)
            | None => '(ms, r) ← parse_members f (skip_ws s'); Some (JObj ms, r)
            end
          else if Ascii.eqb c "[" then
            match JS.expect "]" (skip_ws s') with
            | Some r => Some (JArr [], r)
            | None => '(vs, r) ← parse_elements f (skip_ws s'); Some (JArr vs, r)
            end
          else if Ascii.eqb c dquote then
            '(str, r) ← read_string s'; Some (JStr str, r)
          else if Ascii.eqb c "t" then
            r ← expect_string "rue" s'; Some (JBool true, r)
          else if Ascii.eqb c "f" then
            r ← expect_string "alse" s'; Some (JBool false, r)
          else if Ascii.eqb c "n" then
            r ← expect_string "ull" s'; Some (JNull, r)
          else
            '(n, r) ← read_number (String c s'); Some (JNum n, r)
      end
  end
with parse_members (fuel : nat) (s : string)
  : option (list (string * json) * string) :=
  match fuel with
  | O => None
  | S f =>
      s1 ← JS.expect dquote (skip_ws s);
      '(k, s2) ← read_string s1;
      s3 ← JS.expect ":" (skip_ws s2);
      '(v, s4) ← parse_value f s3;
      match JS.expect "," (skip_ws s4) with
      | Some r => '(ms, r') ← parse_members f r; Some ((k, v) :: ms, r')
      | None =>
          match JS.expect "}" (skip_ws s4) with
          | Some r => Some ([(k, v)], r)
          | None => None
          end
      end
  end
with parse_elements (fuel : nat) (s : string) : option (list json * string) :=
  match fuel with
  | O => None
  | S f =>
      '(v, s1) ← parse_value f s;
      match JS.expect "," (skip_ws s1) with
      | Some r => '(vs, r') ← parse_elements f r; Some (v :: vs, r')
      | None =>
          match JS.expect "]" (skip_ws s1) with
          | Some r => Some ([v], r)
          | None => None
          end
      end
  end.

(** [JSON.parse]: a SyntaxError unless the text is one value. *)
Definition parse (s : string) : result json :=
  match parse_value (S (String.length s)) s with
  | Some (v, r) =>
      match skip_ws r with
      | EmptyString => Ok v
      | String _ _ => Throw SyntaxError
      end
  | None => Throw SyntaxError
  end.

(** [v.key] ([None] is [undefined]): an own property of an object, the
    last one when the text repeats the key. *)
Fixpoint lookup (key : string) (ms : list (string * json)) : option json :=
  match ms with
  | [] => None
  | (k, v) :: ms' =>
      match lookup key ms' with
      | Some v' => Some v'
      | None => if bool_decide (k = key) then Some v else None
      end
  end.

Definition get (v : json) (key : string) : option json :=
  match v with
  | JObj ms => lookup key ms
  | _ => None
  end.

(** JSON.stringify of a string restricted to the strings without a
    character to escape (a quote, a backslash, a control character). *)
Fixpoint plain (s : string) : bool :=
  match s with
  | EmptyString => true
  | String c s' =>
      negb (Ascii.eqb c dquote) && negb (Ascii.eqb c backslash)
      && negb (JS.byte c <? 32) && plain s'
  end.

Definition hex_digit (n : Z) : ascii := JS.digit_char n.

(** The escape JSON.stringify writes for a character of a string. *)
Definition escape (c : ascii) (rest : string) : string :=
  if Ascii.eqb c dquote then String backslash (String dquote rest)
  else if Ascii.eqb c backslash then String backslash (String backslash rest)
  else if Ascii.eqb c "008" then String backslash (String "b" rest)
  else if Ascii.eqb c "012" then String backslash (String "f" rest)
  else if Ascii.eqb c "010" then String backslash (String "n" rest)
  else if Ascii.eqb c "013" then String backslash (String "r" rest)
  else if Ascii.eqb c "009" then String backslash (String "t" rest)
  else if JS.byte c <? 32 then
    String backslash (String "u" (String "0" (String "0"
      (String (hex_digit (JS.byte c / 16))
         (String (hex_digit (JS.byte c mod 16)) rest)))))
  else String c rest.

Fixpoint escape_string (s : string) : string :=
  match s with
  | EmptyString => EmptyString
  | String c s' => escape c (escape_string s')
  end.

Definition stringify_string (s : string) : string :=
  String dquote (escape_string s +:+ String dquote EmptyString).

(** [JSON.stringify]: no white space, members in insertion order. *)
Fixpoint stringify (v : json) : string :=
  match v with
  | JNull => "null"
  | JBool true => "true"
  | JBool false => "false"
  | JNum n => n
  | JStr s => stringify_string s
  | JArr vs =>
      "[" +:+
      (fix elements (l : list json) : string :=
         match l with
         | [] => "]"
         | [x] => stringify x +:+ "]"
         | x :: l' => stringify x +:+ "," +:+ elements l'
         end) vs
  | JObj ms =>
      "{" +:+
      (fix members (l : list (string * json)) : string :=
         match l with
         | [] => "}"
         | [(k, x)] => stringify_string k +:+ ":" +:+ stringify x +:+ "}"
         | (k, x) :: l' =>
             stringify_string k +:+ ":" +:+ stringify x +:+ "," +:+ members l'
         end) ms
  end.

End JSON.

(** What the embedding leaves to the engine and to the driver: the value of
    [new Date(v)] for a [v] that is not a string in the form of
    [toISOString] ([None] is an invalid date); the ObjectId Mongoose casts
    a value to when it is not a string of 24 hexadecimal digits ([None] is
    a CastError); whether a JSON numeral denotes zero once rounded to a
    double. Every statement below holds for every engine. *)
Record Engine : Type := {
  newDate : json -> option Z;
  castObjectId : json -> option Z;
  numeralIsZero : string -> bool;
}.

(** ** MongoDB through Mongoose *)

Inductive ContentType : Type := movie | tvshow.

Global Instance ContentType_eq_dec : EqDecision ContentType.
Proof. solve_decision. Defined.

(** A document of the MyListItem collection (src/models/my-list-item). *)
Module MyListItem.
Record t : Type := mk {
  _id : Z;
  user_id : string;
  content_id : string;
  content_type : ContentType;
  added_at : Z;
  title : string;
  description : string;
  genres : list string;
  release_date : Z;
  director : option string;
  actors : list string;
}.
End MyListItem.

Module Movie.
Record t : Type := mk {
  _id : Z;
  title : string;
  description : string;
  genres : list string;
  releaseDate : Z;
  director : string;
  actors : list string;
}.
End Movie.

Module Episode.
Record t : Type := mk {
  episodeNumber : Z;
  seasonNumber : Z;
  releaseDate : Z;
  director : string;
  actors : list string;
}.
End Episode.

Module TVShow.
Record t : Type := mk {
  _id : Z;
  title : string;
  description : string;
  genres : list string;
  episodes : list Episode.t;
}.
End TVShow.

Module Mongo.

(** [String(_id)]: 24 lower-case hexadecimal digits. *)
Definition ObjectId_toString (id : Z) : string := JS.fixed_digits 16 24 id.

Definition ObjectId_fromHex (s : string) : option Z :=
  match JS.read_digits 16 24 0 s with
  | Some (id, EmptyString) => Some id
  | _ => None
  end.

(** The cast of a query value on an ObjectId path. *)
Definition castId (E : Engine) (v : json) : result Z :=
  let other :=
    match castObjectId E v with
    | Some id => Ok id
    | None => Throw CastError
    end in
  match v with
  | JStr s =>
      match ObjectId_fromHex s with
      | Some id => Ok id
      | None => other
      end
  | _ => other
  end.

Section Cursor.
Context {D : Type}.

(** [sort]: documents that compare equal under the sort keys keep
    their natural order. *)
Fixpoint insert (before : D -> D -> bool) (x : D) (l : list D) : list D :=
  match l with
  | [] => [x]
  | y :: l' => if before y x then y :: insert before x l' else x :: y :: l'
  end.

Definition sort (before : D -> D -> bool) (l : list D) : list D :=
  foldr (insert before) [] l.

(** [skip]: the server refuses a negative value. *)
Definition skip (n : Z) (l : list D) : result (list D) :=
  if n <? 0 then Throw (MongoServerError 2) else Ok (drop (Z.to_nat n) l).

(** [limit]: zero means no limit, a negative value its absolute value. *)
Definition limit (n : Z) (l : list D) : list D :=
  if n =? 0 then l else take (Z.to_nat (Z.abs n)) l.
End Cursor.

End Mongo.

(** The operations of the Mongoose models the service calls. *)
Module Model.

Definition is_user (userId : string) (d : MyListItem.t) : bool :=
  bool_decide (MyListItem.user_id d = userId).

Definition is_entry (userId contentId : string) (d : MyListItem.t) : bool :=
  bool_decide (MyListItem.user_id d = userId)
  && bool_decide (MyListItem.content_id d = contentId).

(** [MyListItem.findOne({ user_id, content_id })]. *)
Definition findOne (userId contentId : string) (c : list MyListItem.t)
  : option MyListItem.t :=
  List.find (is_entry userId contentId) c.

(** [MyListItem.countDocuments({ user_id })]. *)
Definition countDocuments (userId : string) (c : list MyListItem.t) : Z :=
  Z.of_nat (length (List.filter (is_user userId) c)).

(** The validators of the list-item schema that can fail on a document
    of [addToList], on the fields after the setters have run: [user_id],
    [content_id], [title] and [description] are required strings, which
    an empty string is not, and every genre is one of the enumeration.
    (The content type, the dates and the arrays pass by their types.)
    The embedding does not run them: where they matter they are a
    premise. *)
Definition GENRES : list string :=
  ["Action"; "Comedy"; "Drama"; "Fantasy"; "Horror"; "Romance"; "SciFi"].

Definition content_validates (title description : string) (genres : list string) : bool :=
  negb (String.eqb title "")
  && negb (String.eqb description "")
  && forallb (fun g => bool_decide (g ∈ GENRES)) genres.

Definition validates (userId contentId title description : string)
  (genres : list string) : bool :=
  negb (String.eqb userId "")
  && negb (String.eqb contentId "")
  && content_validates title description genres.

(** [MyListItem.create(doc)], for a document on which the setters of
    the schema have run ([MyListService.newItem]): the insert fails with
    the duplicate-key code 11000 when a unique index (on [_id], on
    [(user_id, content_id)]) already holds the key. *)
Definition create (doc : MyListItem.t) (c : list MyListItem.t)
  : result (list MyListItem.t) :=
  if existsb (fun d => MyListItem._id d =? MyListItem._id doc) c
     || existsb (is_entry (MyListItem.user_id doc) (MyListItem.content_id doc)) c
  then Throw (MongoServerError 11000)
  else Ok (c ++ [doc]).

(** [MyListItem.deleteOne({ user_id, content_id })]: the first match
    goes; the result is [deletedCount] and the collection. *)
Fixpoint deleteOne (userId contentId : string) (c : list MyListItem.t)
  : Z * list MyListItem.t :=
  match c with
  | [] => (0, [])
  | d :: c' =>
      if is_entry userId contentId d then (1, c')
      else let '(n, c'') := deleteOne userId contentId c' in (n, d :: c'')
  end.

(** [Movie.findById(contentId)] and [TVShow.findById(contentId)]. *)
Definition Movie_findById (E : Engine) (contentId : string) (ms : list Movie.t)
  : result (option Movie.t) :=
  let? oid := Mongo.castId E (JStr contentId) in
  Ok (List.find (fun m => Movie._id m =? oid) ms).

Definition TVShow_findById (E : Engine) (contentId : string) (ts : list TVShow.t)
  : result (option TVShow.t) :=
  let? oid := Mongo.castId E (JStr contentId) in
  Ok (List.find (fun m => TVShow._id m =? oid) ts).

End Model.

(** ** Redis *)

Module Redis.

(** The keyspace (a value with its time to live in seconds; expiry is
    not modelled, it only removes keys) and the transport failures to
    come: every command takes the head of [faults] and throws when it is
    [true]. *)
Record t (V : Type) : Type := mk {
  db : gmap string (Z * V);
  faults : list bool;
}.
Arguments mk {V} db faults.
Arguments db {V} _.
Arguments faults {V} _.

Section Commands.
Context {V : Type}.

Definition command {A : Type} (r : t V) (run : gmap string (Z * V) -> A * gmap string (Z * V))
  : result A * t V :=
  match faults r with
  | true :: fs => (Throw RedisError, mk (db r) fs)
  | false :: fs => let '(a, m) := run (db r) in (Ok a, mk m fs)
  | [] => let '(a, m) := run (db r) in (Ok a, mk m [])
  end.

Definition get (key : string) (r : t V) : result (option V) * t V :=
  command r (fun m => (snd <$> m !! key, m)).

Definition setex (key : string) (ttl : Z) (v : V) (r : t V) : result unit * t V :=
  command r (fun m => (tt, <[key := (ttl, v)]> m)).

Definition del (keys : list string) (r : t V) : result unit * t V :=
  command r (fun m => (tt, foldr delete m keys)).

(** Glob-style matching of a key, as Redis does it for MATCH. *)
Fixpoint glob (p s : string) {struct p} : bool :=
  match p with
  | EmptyString => match s with EmptyString => true | String _ _ => false end
  | String c p' =>
      if Ascii.eqb c "*" then
        (fix star (s : string) : bool :=
           glob p' s
           || match s with
              | EmptyString => false
              | String _ s' => star s'
              end) s
      else
        match s with
        | EmptyString => false
        | String x s' =>
            if Ascii.eqb c "?" then glob p' s'
            else if Ascii.eqb c "[" then
              match p' with
              | String "^" q => glob_class q true false x s'
              | _ => glob_class p' false false x s'
              end
            else if Ascii.eqb c JSON.backslash then
              match p' with
              | String e p'' => Ascii.eqb e x && glob p'' s'
              | EmptyString => Ascii.eqb c x && glob p' s'
              end
            else Ascii.eqb c x && glob p' s'
        end
  end
with glob_class (p : string) (neg matched : bool) (x : ascii) (s' : string)
  {struct p} : bool :=
  match p with
  | EmptyString =>
      xorb neg matched && match s' with EmptyString => true | String _ _ => false end
  | String c p' =>
      let literal := glob_class p' neg (matched || Ascii.eqb c x) x s' in
      if Ascii.eqb c "]" then xorb neg matched && glob p' s'
      else
        match p' with
        | String e p'' =>
            if Ascii.eqb c JSON.backslash then
              glob_class p'' neg (matched || Ascii.eqb e x) x s'
            else if Ascii.eqb e "-" then
              match p'' with
              | String hi p3 =>
                  let lo := Z.min (JS.byte c) (JS.byte hi) in
                  let up := Z.max (JS.byte c) (JS.byte hi) in
                  glob_class p3 neg
                    (matched || ((lo <=? JS.byte x) && (JS.byte x <=? up))) x s'
              | EmptyString => literal
              end
            else literal
        | EmptyString => literal
        end
  end.

Definition stringmatch (pattern key : string) : bool :=
  match key with
  | EmptyString => bool_decide (pattern = EmptyString)
  | String _ _ => glob pattern key
  end.

Definition keys (r : t V) : list string := (map_to_list (db r)).*1.

(** [SCAN cursor MATCH pattern COUNT count]: the cursor is a position
    in the enumeration of the keyspace; the reply is the next cursor
    (0 at the end) and the matching keys among the [count] visited. *)
Definition scan (cursor : nat) (pattern : string) (count : nat) (r : t V)
  : result (nat * list string) * t V :=
  command r (fun m =>
    let next := (cursor + count)%nat in
    ((if (length (keys r) <=? next)%nat then O else next,
      List.filter (stringmatch pattern) (take count (drop cursor (keys r)))),
     m)).
End Commands.

End Redis.

(** ** Service types (src/types, src/services/my-list-service.ts) *)

Inductive PaginationType : Type := Offset | Cursor.

Module ListItemData.
Record t : Type := mk {
  id : string;
  contentId : string;
  contentType : ContentType;
  title : string;
  description : string;
  genres : list string;
  releaseDate : Z;
  director : option string;
  actors : list string;
  addedAt : Z;
}.
End ListItemData.

Module OffsetPagination.
Record t : Type := mk {
  page : Z;
  limit : Z;
  totalItems : Z;
  totalPages : Z;
  hasNextPage : bool;
  hasPrevPage : bool;
}.
End OffsetPagination.

Module CursorPagination.
Record t : Type := mk {
  limit : Z;
  nextCursor : option string;
  prevCursor : option string;
  hasNextPage : bool;
  hasPrevPage : bool;
}.
End CursorPagination.

(** [OffsetPagination | CursorPagination], told apart by the [type] tag. *)
Inductive Pagination : Type :=
  | OffsetPage (p : OffsetPagination.t)
  | CursorPage (p : CursorPagination.t).

Record ListResult : Type := {
  items : list ListItemData.t;
  pagination : Pagination;
}.

(** [PaginatedListResult extends ListResult] with the cache status. *)
Record PaginatedListResult : Type := {
  listResult : ListResult;
  cacheHit : bool;
}.

(** ** src/services/cache-service.ts *)

Module CacheService.

(** [env.CACHE_TTL_SECONDS], at its default. *)
Definition CACHE_TTL_SECONDS : Z := 300.

Definition getOffsetCacheKey (userId : string) (page limit : Z) : string :=
  "mylist:" +:+ userId +:+ ":offset:page:" +:+ JS.String_of_number page
  +:+ ":limit:" +:+ JS.String_of_number limit.

Definition getCursorCacheKey (userId : string) (cursor : option string) (limit : Z)
  : string :=
  let cursorPart := default "first" (JS.string_or_null cursor) in
  "mylist:" +:+ userId +:+ ":cursor:" +:+ cursorPart
  +:+ ":limit:" +:+ JS.String_of_number limit.

Definition getUserCachePattern (userId : string) : string :=
  "mylist:" +:+ userId +:+ ":*".

(** The reply [{ data, hit }] of [get]. *)
Record reply (T : Type) : Type := { data : option T; hit : bool }.
Arguments data {T} _.
Arguments hit {T} _.

Section Generic.
Context {T : Type}.

(** [get]: a transport error is logged and answered as a miss. *)
Definition get (key : string) (r : Redis.t T) : reply T * Redis.t T :=
  match Redis.get key r with
  | (Ok (Some d), r') => ({| data := Some d; hit := true |}, r')
  | (Ok None, r') => ({| data := None; hit := false |}, r')
  | (Throw _, r') => ({| data := None; hit := false |}, r')
  end.

(** [set]: a transport error is logged and dropped. *)
Definition set (key : string) (d : T) (ttlSeconds : Z) (r : Redis.t T) : Redis.t T :=
  snd (Redis.setex key ttlSeconds d r).

Definition delete (key : string) (r : Redis.t T) : Redis.t T :=
  snd (Redis.del [key] r).

(** The [do ... while (cursor !== '0')] loop over SCAN; [rounds]
    bounds its iterations. *)
Fixpoint scanLoop (rounds : nat) (cursor : nat) (pattern : string)
  (keysToDelete : list string) (r : Redis.t T) : result (list string) * Redis.t T :=
  match Redis.scan cursor pattern 100 r with
  | (Throw e, r') => (Throw e, r')
  | (Ok (next, found), r') =>
      let keysToDelete := keysToDelete ++ found in
      match next, rounds with
      | O, _ => (Ok keysToDelete, r')
      | S _, S rounds' => scanLoop rounds' next pattern keysToDelete r'
      | S _, O => (Throw RedisError, r')
      end
  end.

(** The body of the [try] of [invalidateUserCache]. *)
Definition sweep (userId : string) (r : Redis.t T) : result unit * Redis.t T :=
  let pattern := getUserCachePattern userId in
  match scanLoop (length (Redis.keys r)) O pattern [] r with
  | (Throw e, r') => (Throw e, r')
  | (Ok keysToDelete, r') =>
      if (0 <? length keysToDelete)%nat then Redis.del keysToDelete r'
      else (Ok tt, r')
  end.

(** [invalidateUserCache]: an error of the sweep is logged and
    dropped. *)
Definition invalidateUserCache (userId : string) (r : Redis.t T) : Redis.t T :=
  snd (sweep userId r).
End Generic.

Definition getCacheKey (userId : string) (type : PaginationType)
  (page : option Z) (cursor : option string) (limit : Z) : string :=
  match type with
  | Offset => getOffsetCacheKey userId (JS.number_or page 1) limit
  | Cursor => getCursorCacheKey userId (JS.string_or_null cursor) limit
  end.

End CacheService.

(** ** src/services/my-list-service.ts *)

(** The collections and the cache the service works on. *)
Record State : Type := {
  myListItems : list MyListItem.t;
  movies : list Movie.t;
  tvShows : list TVShow.t;
  redis : Redis.t ListResult;
}.

(** The query object of the cursor mode. *)
Module CursorQuery.
Record t : Type := mk {
  user_id : string;
  added_at_lt : option Z;
  or_before : option (Z * json);
}.
End CursorQuery.

Module MyListService.

(** [Math.ceil(a / b)] on integers. *)
Definition ceil_div (a b : Z) : Z := - ((- a) / b).

(** [l.slice(0, n)]: a negative [n] counts from the end. *)
Definition slice0 {A : Type} (n : Z) (l : list A) : list A :=
  if n <? 0 then take (length l - Z.to_nat (- n)) l else take (Z.to_nat n) l.

(** [[...new Set(l)]]: the first occurrence of each element. *)
Fixpoint uniq (seen l : list string) : list string :=
  match l with
  | [] => []
  | x :: l' =>
      if bool_decide (x ∈ seen) then uniq seen l' else x :: uniq (x :: seen) l'
  end.

(** [sort({ added_at: -1 })] and [sort({ added_at: -1, _id: -1 })]:
    whether [y] sorts strictly before [x]. *)
Definition by_added_at (y x : MyListItem.t) : bool :=
  MyListItem.added_at x <? MyListItem.added_at y.

Definition by_added_at_id (y x : MyListItem.t) : bool :=
  (MyListItem.added_at x <? MyListItem.added_at y)
  || ((MyListItem.added_at x =? MyListItem.added_at y)
      && (MyListItem._id x <? MyListItem._id y)).

Definition mapToListItemData (item : MyListItem.t) : ListItemData.t :=
  {| ListItemData.id := Mongo.ObjectId_toString (MyListItem._id item);
     ListItemData.contentId := MyListItem.content_id item;
     ListItemData.contentType := MyListItem.content_type item;
     ListItemData.title := MyListItem.title item;
     ListItemData.description := MyListItem.description item;
     ListItemData.genres := MyListItem.genres item;
     ListItemData.releaseDate := MyListItem.release_date item;
     ListItemData.director := MyListItem.director item;
     ListItemData.actors := MyListItem.actors item;
     ListItemData.addedAt := MyListItem.added_at item |}.

(** [getListWithOffsetPagination]. *)
Definition getListWithOffsetPagination (userId : string) (page limit : Z)
  (c : list MyListItem.t) : result ListResult :=
  let skip := (page - 1) * limit in
  let totalItems := Model.countDocuments userId c in
  let? skipped :=
    Mongo.skip skip (Mongo.sort by_added_at (List.filter (Model.is_user userId) c)) in
  let items := Mongo.limit limit skipped in
  let totalPages := ceil_div totalItems limit in
  Ok {| items := List.map mapToListItemData items;
        pagination := OffsetPage
          {| OffsetPagination.page := page;
             OffsetPagination.limit := limit;
             OffsetPagination.totalItems := totalItems;
             OffsetPagination.totalPages := totalPages;
             OffsetPagination.hasNextPage := page <? totalPages;
             OffsetPagination.hasPrevPage := 1 <? page |} |}.

Section WithEngine.
Context (E : Engine).

(** Truthiness of a parsed value. *)
Definition truthy (v : json) : bool :=
  match v with
  | JNull => false
  | JBool b => b
  | JNum n => negb (numeralIsZero E n)
  | JStr s => JS.string_truthy s
  | JArr _ | JObj _ => true
  end.

(** [new Date(v)]; [None] is an invalid date. *)
Definition Date_new (v : json) : option Z :=
  match v with
  | JStr s =>
      match Date.parse_iso s with
      | Some t => Some t
      | None => newDate E v
      end
  | _ => newDate E v
  end.

(** The [try] block that decodes the cursor: the parsed structure and
    the date of its [added_at]. Whatever is thrown inside, the catch
    clause throws the error of the invalid cursor format instead. *)
Definition decodeCursor (cursor : string) : result (json * Z) :=
  let attempt :=
    let? decodedCursor := JSON.parse (Buffer.from_base64 cursor) in
    let cursorDate :=
      match JSON.get decodedCursor "added_at" with
      | Some a => if truthy a then Date_new a else None
      | None => None
      end in
    match cursorDate with
    | Some d => Ok (decodedCursor, d)
    | None => Throw (BadRequestError VALIDATION.INVALID_CURSOR)
    end in
  match attempt with
  | Ok x => Ok x
  | Throw _ => Throw (BadRequestError VALIDATION.INVALID_CURSOR_FORMAT)
  end.

(** The query the decoded cursor adds to the user filter. *)
Definition buildQuery (userId : string) (decoded : option (json * Z))
  : CursorQuery.t :=
  match decoded with
  | Some (decodedCursor, cursorDate) =>
      match JSON.get decodedCursor "id" with
      | Some i =>
          if truthy i then CursorQuery.mk userId None (Some (cursorDate, i))
          else CursorQuery.mk userId (Some cursorDate) None
      | None => CursorQuery.mk userId (Some cursorDate) None
      end
  | None => CursorQuery.mk userId None None
  end.

(** [MyListItem.find(query)]: Mongoose casts the [_id] bound, then the
    documents that satisfy every clause are selected. *)
Definition find (query : CursorQuery.t) (c : list MyListItem.t)
  : result (list MyListItem.t) :=
  let? bound :=
    match CursorQuery.or_before query with
    | Some (d, i) => let? oid := Mongo.castId E i in Ok (Some (d, oid))
    | None => Ok None
    end in
  Ok (List.filter (fun doc =>
        Model.is_user (CursorQuery.user_id query) doc
        && match CursorQuery.added_at_lt query with
           | Some d => MyListItem.added_at doc <? d
           | None => true
           end
        && match bound with
           | Some (d, oid) =>
               (MyListItem.added_at doc <? d)
               || ((MyListItem.added_at doc =? d) && (MyListItem._id doc <? oid))
           | None => true
           end) c).

(** The cursor of the next page: base64 of the JSON text of the
    position of [lastItem]. *)
Definition encodeCursor (lastItem : MyListItem.t) : result string :=
  let? iso := Date.toISOString (MyListItem.added_at lastItem) in
  Ok (Buffer.toString_base64
        (JSON.stringify
           (JObj [("added_at", JStr iso);
                  ("id", JStr (Mongo.ObjectId_toString (MyListItem._id lastItem)))]))).

(** [if (cursor) { ... }]: an absent or empty cursor is not decoded. *)
Definition decodeIfPresent (cursor : option string) : result (option (json * Z)) :=
  match cursor with
  | Some s =>
      if JS.string_truthy s then let? d := decodeCursor s in Ok (Some d)
      else Ok None
  | None => Ok None
  end.

(** [getListWithCursorPagination]. *)
Definition getListWithCursorPagination (userId : string) (cursor : option string)
  (limit : Z) (c : list MyListItem.t) : result ListResult :=
  let? decoded := decodeIfPresent cursor in
  let query := buildQuery userId decoded in
  let? found := find query c in
  let items := Mongo.limit (limit + 1) (Mongo.sort by_added_at_id found) in
  let hasNextPage := limit <? Z.of_nat (length items) in
  let resultItems := if hasNextPage then slice0 limit items else items in
  let? nextCursor :=
    if hasNextPage && (0 <? length resultItems)%nat then
      match last resultItems with
      | Some lastItem => let? s := encodeCursor lastItem in Ok (Some s)
      | None => Ok None
      end
    else Ok None in
  Ok {| items := List.map mapToListItemData resultItems;
        pagination := CursorPage
          {| CursorPagination.limit := limit;
             CursorPagination.nextCursor := nextCursor;
             CursorPagination.prevCursor := JS.string_or_null cursor;
             CursorPagination.hasNextPage := hasNextPage;
             CursorPagination.hasPrevPage :=
               match cursor with
               | Some s => JS.string_truthy s
               | None => false
               end |} |}.

(** The denormalized content copied onto a list item. *)
Record ContentData : Type := {
  cd_title : string;
  cd_description : string;
  cd_genres : list string;
  cd_releaseDate : Z;
  cd_director : option string;
  cd_actors : list string;
}.

(** The content lookup of [addToList]; [now] is the [new Date()] a
    show without episodes falls back to. *)
Definition fetchContent (now : Z) (contentId : string) (contentType : ContentType)
  (st : State) : result ContentData :=
  match contentType with
  | movie =>
      let? found := Model.Movie_findById E contentId (movies st) in
      match found with
      | None => Throw (NotFoundError ERRORS.MOVIE_NOT_FOUND)
      | Some m =>
          Ok {| cd_title := Movie.title m;
                cd_description := Movie.description m;
                cd_genres := Movie.genres m;
                cd_releaseDate := Movie.releaseDate m;
                cd_director := Some (Movie.director m);
                cd_actors := Movie.actors m |}
      end
  | tvshow =>
      let? found := Model.TVShow_findById E contentId (tvShows st) in
      match found with
      | None => Throw (NotFoundError ERRORS.TV_SHOW_NOT_FOUND)
      | Some tvShow =>
          let firstEpisode := head (TVShow.episodes tvShow) in
          let allActors := uniq [] (flat_map Episode.actors (TVShow.episodes tvShow)) in
          Ok {| cd_title := TVShow.title tvShow;
                cd_description := TVShow.description tvShow;
                cd_genres := TVShow.genres tvShow;
                cd_releaseDate := default now (Episode.releaseDate <$> firstEpisode);
                cd_director := Episode.director <$> firstEpisode;
                cd_actors := allActors |}
      end
  end.

(** The document [MyListItem.create] makes of the fields it is given:
    the list-item schema sets [trim] on [title] and [director], so that
    both are stored, and returned, trimmed. *)
Definition newItem (newId now : Z) (userId contentId : string)
  (contentType : ContentType) (cd : ContentData) : MyListItem.t :=
  {| MyListItem._id := newId;
     MyListItem.user_id := userId;
     MyListItem.content_id := contentId;
     MyListItem.content_type := contentType;
     MyListItem.added_at := now;
     MyListItem.title := trim (cd_title cd);
     MyListItem.description := cd_description cd;
     MyListItem.genres := cd_genres cd;
     MyListItem.release_date := cd_releaseDate cd;
     MyListItem.director := trim <$> cd_director cd;
     MyListItem.actors := cd_actors cd |}.

(** [addToList]. The driver's fresh ObjectId is [newId]; [now0] and
    [now] are the two readings of the clock, for the content data and
    for [added_at]. *)
Definition addToList (newId now0 now : Z) (userId contentId : string)
  (contentType : ContentType) (st : State) : result ListItemData.t * State :=
  match Model.findOne userId contentId (myListItems st) with
  | Some _ => (Throw (ConflictError ERRORS.ITEM_ALREADY_IN_LIST), st)
  | None =>
      match fetchContent now0 contentId contentType st with
      | Throw e => (Throw e, st)
      | Ok contentData =>
          let doc := newItem newId now userId contentId contentType contentData in
          match Model.create doc (myListItems st) with
          | Throw e => (Throw e, st)
          | Ok c' =>
              (Ok (mapToListItemData doc),
               {| myListItems := c';
                  movies := movies st;
                  tvShows := tvShows st;
                  redis := CacheService.invalidateUserCache userId (redis st) |})
          end
      end
  end.

(** [removeFromList]. *)
Definition removeFromList (userId contentId : string) (st : State)
  : result unit * State :=
  let '(deletedCount, c') := Model.deleteOne userId contentId (myListItems st) in
  if deletedCount =? 0 then (Throw (NotFoundError ERRORS.ITEM_NOT_IN_LIST), st)
  else
    (Ok tt,
     {| myListItems := c';
        movies := movies st;
        tvShows := tvShows st;
        redis := CacheService.invalidateUserCache userId (redis st) |}).

(** The authoritative read of [getList] once the cache has missed. *)
Definition readStore (userId : string) (type : PaginationType)
  (page : option Z) (limit : Z) (cursor : option string) (c : list MyListItem.t)
  : result ListResult :=
  match type with
  | Offset => getListWithOffsetPagination userId (JS.number_or page 1) limit c
  | Cursor => getListWithCursorPagination userId cursor limit c
  end.

Definition with_redis (st : State) (r : Redis.t ListResult) : State :=
  {| myListItems := myListItems st;
     movies := movies st;
     tvShows := tvShows st;
     redis := r |}.

(** [getList]; the parameters are [params.page], [params.limit] and
    [params.cursor]. *)
Definition getList (userId : string) (type : PaginationType)
  (page limit : option Z) (cursor : option string) (st : State)
  : result PaginatedListResult * State :=
  let limit := JS.number_or limit 10 in
  let cacheKey := CacheService.getCacheKey userId type page cursor limit in
  let '(cached, r1) := CacheService.get cacheKey (redis st) in
  match CacheService.hit cached, CacheService.data cached with
  | true, Some d => (Ok {| listResult := d; cacheHit := true |}, with_redis st r1)
  | _, _ =>
      match readStore userId type page limit cursor (myListItems st) with
      | Throw e => (Throw e, with_redis st r1)
      | Ok res =>
          (Ok {| listResult := res; cacheHit := false |},
           with_redis st
             (CacheService.set cacheKey res CacheService.CACHE_TTL_SECONDS r1))
      end
  end.
End WithEngine.

End MyListService.

(** ** src/middleware *)

(** The status and the error message [errorHandler] answers with. *)
Definition errorHandler (error : exn) : Z * string :=
  match error with
  | BadRequestError m => (400, m)
  | NotFoundError m => (404, m)
  | ConflictError m => (409, m)
  | MongoServerError 11000 => (409, ERRORS.ITEM_ALREADY_IN_LIST)
  | CastError => (400, "Invalid ID format")
  | _ => (500, "Internal server error")
  end.

(** The user ids [authMiddleware] lets through: one to fifty characters
    among letters, digits, [_] and [-]. *)
Definition userId_char (c : ascii) : bool :=
  let n := JS.byte c in
  ((97 <=? n) && (n <=? 122)) || ((65 <=? n) && (n <=? 90))
  || ((48 <=? n) && (n <=? 57)) || (n =? 95) || (n =? 45).

Fixpoint all_chars (f : ascii -> bool) (s : string) : bool :=
  match s with
  | EmptyString => true
  | String c s' => f c && all_chars f s'
  end.

Definition valid_userId (userId : string) : bool :=
  all_chars userId_char userId
  && (1 <=? String.length userId)%nat && (String.length userId <=? 50)%nat.

(** ** Vocabulary of the statements *)

(** [has c s]: the character occurs in the string. *)
Fixpoint has (c : ascii) (s : string) : bool :=
  match s with
  | EmptyString => false
  | String x s' => Ascii.eqb x c || has c s'
  end.

(** The characters of the decimal form of an integer. *)
Definition numeric (c : ascii) : bool :=
  JSON.is_digit c || Ascii.eqb c "-".

(** The part of a cursor key that stands for the cursor. *)
Definition cursorPart (cursor : option string) : string :=
  default "first" (JS.string_or_null cursor).

(** An engine that accepts nothing beyond the forms modelled here, for
    the evaluations at concrete inputs. *)
Definition strictEngine : Engine :=
  {| newDate := fun _ => None;
     castObjectId := fun _ => None;
     numeralIsZero := fun n => negb (has "1" n || has "2" n || has "3" n || has "4" n
                                     || has "5" n || has "6" n || has "7" n || has "8" n
                                     || has "9" n) |}.

(** The characters with a meaning of their own in a glob pattern. *)
Definition special (c : ascii) : bool :=
  Ascii.eqb c "*" || Ascii.eqb c "?" || Ascii.eqb c "[" || Ascii.eqb c JSON.backslash.

(** What [getList] answers when the cache misses and the store has
    answered [r]. *)
Definition missResult (r : result ListResult) : result PaginatedListResult :=
  match r with
  | Ok res => Ok {| listResult := res; cacheHit := false |}
  | Throw e => Throw e
  end.

(** The namespace of a user in the keyspace. *)
Definition in_namespace (userId key : string) : Prop :=
  exists rest, key = "mylist:" +:+ userId +:+ ":" +:+ rest.

(** An empty cursor page, for the evaluations at concrete inputs. *)
Definition page0 : ListResult :=
  {| items := [];
     pagination := CursorPage (CursorPagination.mk 10 None None false false) |}.

(** ** The service as a state machine *)

(** The calls of the service, with what the environment contributes to
    an add: the ObjectId the driver draws and the two readings of the
    clock. *)
Inductive request : Type :=
  | AddToList (newId now0 now : Z) (userId contentId : string) (contentType : ContentType)
  | RemoveFromList (userId contentId : string)
  | GetList (userId : string) (type : PaginationType) (page limit : option Z)
      (cursor : option string).

(** The driver draws twelve bytes and the clock shows a valid date. *)
Definition request_ok (rq : request) : Prop :=
  match rq with
  | AddToList newId now0 now _ _ _ =>
      0 <= newId < 2 ^ 96 /\ Date.valid now0 = true /\ Date.valid now = true
  | _ => True
  end.

Definition perform (E : Engine) (rq : request) (st : State) : State :=
  match rq with
  | AddToList newId now0 now userId contentId contentType =>
      (MyListService.addToList E newId now0 now userId contentId contentType st).2
  | RemoveFromList userId contentId =>
      (MyListService.removeFromList userId contentId st).2
  | GetList userId type page limit cursor =>
      (MyListService.getList E userId type page limit cursor st).2
  end.

(** The states the service reaches from an empty list collection. *)
Inductive reachable (E : Engine) : State -> Prop :=
  | reachable_init (ms : list Movie.t) (ts : list TVShow.t) (r : Redis.t ListResult) :
      reachable E {| myListItems := []; movies := ms; tvShows := ts; redis := r |}
  | reachable_step (rq : request) (st : State) :
      reachable E st -> request_ok rq -> reachable E (perform E rq st).

(** The key of the unique index on [(user_id, content_id)]. *)
Definition entry_key (d : MyListItem.t) : string * string :=
  (MyListItem.user_id d, MyListItem.content_id d).

(** A well-formed collection: both unique indexes hold, every [_id] has
    twelve bytes and every [added_at] is a valid date. *)
Record store_wf (c : list MyListItem.t) : Prop := {
  wf_ids : NoDup (MyListItem._id <$> c);
  wf_keys : NoDup (entry_key <$> c);
  wf_docs : Forall (fun d => 0 <= MyListItem._id d < 2 ^ 96
                             /\ Date.valid (MyListItem.added_at d) = true) c;
}.


(** ** Example data for the evaluations at concrete inputs *)

Definition movie1 : Movie.t :=
  Movie.mk 1 "Heat" "A heist" ["Action"] 819936000000 "Michael Mann" ["Al Pacino"].

Definition emptyRedis : Redis.t ListResult := Redis.mk ∅ [].

(** One movie in the catalogue, no list item, an empty working cache. *)
Definition state0 : State :=
  {| myListItems := []; movies := [movie1]; tvShows := []; redis := emptyRedis |}.

Definition movie1Id : string := "000000000000000000000001".

(** [state0] after the user alice has added the movie. *)
Definition state1 : State :=
  perform strictEngine (AddToList 7 0 1704276000000 "alice" movie1Id movie) state0.

(** A list item of a user with nothing but its position filled in. *)
Definition item (i : Z) (u k : string) (t : Z) : MyListItem.t :=
  MyListItem.mk i u k movie t "T" "D" [] 0 None [].

(** Two items of one user added in the same millisecond, in the order
    of their insertion. *)
Definition tiedCollection : list MyListItem.t :=
  [item 1 "alice" "m1" 1704276000000; item 2 "alice" "m2" 1704276000000].

(** [state0] with a cache whose third command fails in transport. *)
Definition faultyState : State :=
  {| myListItems := []; movies := [movie1]; tvShows := [];
     redis := Redis.mk ∅ [false; false; true] |}.

(** The movie as a catalogue written past the schema of the movies
    could hold it: white space around the title and the director. *)
Definition paddedMovie : Movie.t :=
  Movie.mk 1 "  Heat " "A heist" ["Action"] 819936000000 " Michael Mann  " ["Al Pacino"].

Definition paddedState : State :=
  {| myListItems := []; movies := [paddedMovie]; tvShows := []; redis := emptyRedis |}.

(** A show with two episodes that share an actor, and a state with it
    in the catalogue. *)
Definition show1 : TVShow.t :=
  TVShow.mk 2 "Dark" "A town" ["SciFi"]
    [Episode.mk 1 1 1512086400000 "Baran bo Odar" ["Louis Hofmann"; "Oliver Masucci"];
     Episode.mk 2 1 1512086400000 "Baran bo Odar" ["Oliver Masucci"; "Karoline Eichhorn"]].

Definition show1Id : string := "000000000000000000000002".

Definition showState : State :=
  {| myListItems := []; movies := [movie1]; tvShows := [show1]; redis := emptyRedis |}.

(** The tied items in the store, no catalogue, an empty working cache. *)
Definition tiedState : State :=
  {| myListItems := tiedCollection; movies := []; tvShows := []; redis := emptyRedis |}.

(** The canonical order: [added_at] descending, then [_id] descending. *)
Definition canonical (userId : string) (c : list MyListItem.t) : list MyListItem.t :=
  Mongo.sort MyListService.by_added_at_id (List.filter (Model.is_user userId) c).

(** [x] comes before [y] in canonical order, strictly. *)
Definition precedes (x y : MyListItem.t) : Prop :=
  MyListItem.added_at y < MyListItem.added_at x
  \/ (MyListItem.added_at y = MyListItem.added_at x /\ MyListItem._id y < MyListItem._id x).

(** The order of the offset mode: [added_at] descending, nothing more. *)
Definition not_older (x y : MyListItem.t) : Prop :=
  MyListItem.added_at y <= MyListItem.added_at x.

(** [f] holds on the [n] numbers from [i] on. *)
Fixpoint all_from (f : Z -> bool) (n : nat) (i : Z) : bool :=
  match n with
  | O => true
  | S k => f i && all_from f k (i + 1)
  end.

(** What the calendar computation must satisfy on a day of the era. *)
Definition era_day_check (doe : Z) : bool :=
  let '(yoe, m, d) := Date.civil_of_era_day doe in
  (0 <=? yoe) && (yoe <? 400) && (1 <=? m) && (m <=? 12) && (1 <=? d) && (d <=? 31)
  && (Date.era_day_of_civil yoe m d =? doe).

(** What the base64 alphabet must satisfy at a sextet: its character is
    not the padding and decodes to the sextet. *)
Definition sextet_check (v : Z) : bool :=
  negb (Ascii.eqb (Buffer.sextet_char v) "=")
  && match Buffer.unbase64 (Buffer.sextet_char v) with
     | Some v' => v' =? v
     | None => false
     end.

(** The structure a cursor of [lastItem] decodes to. *)
Definition cursorObject (lastItem : MyListItem.t) : json :=
  JObj [("added_at", JStr (Date.iso_string (MyListItem.added_at lastItem)));
        ("id", JStr (Mongo.ObjectId_toString (MyListItem._id lastItem)))].

(** ** The pages and the walk of the cursor mode, as the specification
    describes them *)

(** The cursor that follows a page of [limit] documents taken from the
    selected documents in canonical order: the cursor of the last
    document of the page when a further document exists. *)
Definition nextCursorOf (limit : Z) (sorted : list MyListItem.t) : option string :=
  if bool_decide (Z.to_nat limit < length sorted)%nat then
    match last (take (Z.to_nat limit) sorted) with
    | Some lastItem =>
        Some (Buffer.toString_base64 (JSON.stringify (cursorObject lastItem)))
    | None => None
    end
  else None.

(** The page of [limit] documents at the head of the selected documents
    in canonical order. *)
Definition cursorPageOf (cursor : option string) (limit : Z) (sorted : list MyListItem.t)
  : ListResult :=
  {| items := List.map MyListService.mapToListItemData (take (Z.to_nat limit) sorted);
     pagination := CursorPage
       {| CursorPagination.limit := limit;
          CursorPagination.nextCursor := nextCursorOf limit sorted;
          CursorPagination.prevCursor := JS.string_or_null cursor;
          CursorPagination.hasNextPage := bool_decide (Z.to_nat limit < length sorted)%nat;
          CursorPagination.hasPrevPage := bool_decide (is_Some (JS.string_or_null cursor)) |} |}.

(** The full forward walk: [getList] in cursor mode from [cursor] on,
    each [nextCursor] fed into the next call while [hasNextPage] holds;
    the items of the pages in the order of the walk. [fuel] bounds the
    number of calls; [None] when it runs out or a call fails. *)
Fixpoint cursorWalk (E : Engine) (fuel : nat) (userId : string) (limit : Z)
  (cursor : option string) (st : State) : option (list ListItemData.t) :=
  match fuel with
  | O => None
  | S fuel' =>
      match MyListService.getList E userId Cursor None (Some limit) cursor st with
      | (Ok page, st') =>
          match pagination (listResult page) with
          | CursorPage p =>
              if CursorPagination.hasNextPage p then
                rest ← cursorWalk E fuel' userId limit (CursorPagination.nextCursor p) st';
                Some (items (listResult page) ++ rest)
              else Some (items (listResult page))
          | OffsetPage _ => None
          end
      | (Throw _, _) => None
      end
  end.

(** The same walk over the pages the store answers
    ([getListWithCursorPagination], which [getList] runs on a miss of
    the cache). *)
Fixpoint storeWalk (E : Engine) (fuel : nat) (userId : string) (limit : Z)
  (cursor : option string) (c : list MyListItem.t) : option (list ListItemData.t) :=
  match fuel with
  | O => None
  | S fuel' =>
      match MyListService.getListWithCursorPagination E userId cursor limit c with
      | Ok page =>
          match pagination page with
          | CursorPage p =>
              if CursorPagination.hasNextPage p then
                rest ← storeWalk E fuel' userId limit (CursorPagination.nextCursor p) c;
                Some (items page ++ rest)
              else Some (items page)
          | OffsetPage _ => None
          end
      | Throw _ => None
      end
  end.

(** The cursors a walk presents: none, or the cursor of a document. *)
Definition walkCursor (cursor : option string) : Prop :=
  cursor = None
  \/ exists lastItem s, MyListService.encodeCursor lastItem = Ok s /\ cursor = Some s.

(** The cache agrees with the store on the pages of a walk of the user
    with this limit: what it holds under the key of a walk cursor is the
    page the store answers. An empty cache and a cache just swept for the
    user agree. *)
Definition cache_coherent (E : Engine) (userId : string) (limit : Z) (st : State) : Prop :=
  forall cursor ttl page,
    walkCursor cursor ->
    Redis.db (redis st) !! CacheService.getCacheKey userId Cursor None cursor limit
    = Some (ttl, page) ->
    MyListService.getListWithCursorPagination E userId cursor limit (myListItems st)
    = Ok page.

(** The bound a cursor of [x] puts on a document: strictly after [x] in
    canonical order. *)
Definition after (x d : MyListItem.t) : bool :=
  (MyListItem.added_at d <? MyListItem.added_at x)
  || ((MyListItem.added_at d =? MyListItem.added_at x)
      && (MyListItem._id d <? MyListItem._id x)).

(** Where a walk stands after the documents [pre] of the canonical
    order: at the start without cursor, or with the cursor of the last
    document returned. *)
Definition positioned (cursor : option string) (pre : list MyListItem.t) : Prop :=
  (pre = [] /\ cursor = None)
  \/ exists x s, last pre = Some x /\ MyListService.encodeCursor x = Ok s /\ cursor = Some s.


(** A cursor of the old form, with the date alone. *)
Definition legacyCursor (iso : string) : string :=
  Buffer.toString_base64 (JSON.stringify (JObj [("added_at", JStr iso)])).

(** * The HTTP layer

    The middleware in front of the service (src/middleware/auth.ts,
    rate-limit.ts, validate.ts), the controller
    (src/controllers/my-list-controller.ts) and the routes
    (src/routes/my-list-routes.ts), with the parts of the runtime and of
    the validation library that they call. *)

(** src/constants: the messages of the HTTP layer. *)
Module MESSAGES.
Definition CONTENT_ID_REQUIRED : string := "contentId is required".
Definition CONTENT_ID_TOO_LONG : string := "contentId too long".
Definition PAGE_MIN : string := "page must be at least 1".
Definition LIMIT_RANGE : string := "limit must be between 1 and 100".
Definition UNAUTHORIZED : string := "Unauthorized".
Definition MISSING_USER_ID_HEADER : string := "Missing or invalid x-user-id header".
Definition INVALID_USER_ID_FORMAT : string := "Invalid user ID format".
Definition VALIDATION_ERROR : string := "Validation error".
Definition INVALID_ID_DETAILS : string := "The provided ID is not a valid format".
Definition TOO_MANY_REQUESTS : string := "Too many requests".
Definition RATE_LIMIT_EXCEEDED : string := "Rate limit exceeded. Please try again later.".
Definition ITEM_REMOVED : string := "Item removed from list".
End MESSAGES.

(** ** [parseInt] and the length of a string *)

(** A number as [parseInt] returns it: [NaN], an integer below 2^53 in
    magnitude (which a double holds exactly), or an integer of a greater
    magnitude, of which the embedding keeps the sign alone. *)
Inductive number : Type :=
  | NaN
  | Int (n : Z)
  | Huge (negative : bool).

(** The value of the longest prefix of decimal digits, [None] without
    a digit. *)
Fixpoint read_decimal (acc : option Z) (s : string) : option Z :=
  match s with
  | EmptyString => acc
  | String c s' =>
      match JS.char_digit 10 c with
      | Some d => read_decimal (Some (10 * default 0 acc + d)) s'
      | None => acc
      end
  end.

(** [parseInt(s, 10)]. *)
Definition parseInt (s : string) : number :=
  let t := trimStart s in
  let negative :=
    match t with
    | String c _ => Ascii.eqb c "-"
    | EmptyString => false
    end in
  let digits :=
    match t with
    | String c r => if Ascii.eqb c "-" || Ascii.eqb c "+" then r else t
    | EmptyString => t
    end in
  match read_decimal None digits with
  | None => NaN
  | Some m => if m <? 2 ^ 53 then Int (if negative then - m else m) else Huge negative
  end.

(** [v >= 1] and [v <= 100] on such a number. *)
Definition number_ge1 (v : number) : bool :=
  match v with
  | NaN => false
  | Int n => 1 <=? n
  | Huge negative => negb negative
  end.

Definition number_le100 (v : number) : bool :=
  match v with
  | NaN => false
  | Int n => n <=? 100
  | Huge negative => negative
  end.

(** [s.length]: the number of UTF-16 code units of the string, read
    off its UTF-8 bytes (a sequence of four bytes is a surrogate pair). *)
Fixpoint utf16_length (s : string) : Z :=
  match s with
  | EmptyString => 0
  | String c r =>
      let x := JS.byte c in
      (if (128 <=? x) && (x <? 192) then 0 else if 240 <=? x then 2 else 1)
      + utf16_length r
  end.

(** ** Responses *)

Module Response.
(** The JSON body of a response. [Invalid] is the body of a failed
    validation: its [details] are the issues, each printed as path, colon
    and message. *)
Inductive payload : Type :=
  | Failure (error : string) (details : option (list string))
  | Invalid (error : string) (issues : list (string * option string))
  | Created (data : ListItemData.t)
  | Message (message : string)
  | Page (data : list ListItemData.t) (pagination : Pagination).

(** [headers]: the headers the handlers of this layer set. *)
Record t : Type := mk {
  status : Z;
  headers : list (string * string);
  body : payload;
}.
End Response.

(** The response of [errorHandler]. *)
Definition errorResponse (error : exn) : Response.t :=
  let '(status, message) := errorHandler error in
  Response.mk status []
    (Response.Failure message
       match error with
       | CastError => Some [MESSAGES.INVALID_ID_DETAILS]
       | _ => None
       end).

(** ** src/middleware/auth.ts *)

(** The value of a request header: a string, or a list of strings. *)
Inductive header : Type :=
  | HeaderString (s : string)
  | HeaderList (l : list string).

Definition unauthorized (detail : string) : Response.t :=
  Response.mk 401 [] (Response.Failure MESSAGES.UNAUTHORIZED (Some [detail])).

(** [authMiddleware]: the response that ends the request, or the
    [req.userId] the next handler finds. *)
Definition authMiddleware (userId : option header) : Response.t + string :=
  match userId with
  | Some (HeaderString s) =>
      if JS.string_truthy s then
        if valid_userId s then inr s
        else inl (unauthorized MESSAGES.INVALID_USER_ID_FORMAT)
      else inl (unauthorized MESSAGES.MISSING_USER_ID_HEADER)
  | _ => inl (unauthorized MESSAGES.MISSING_USER_ID_HEADER)
  end.

(** ** src/middleware/rate-limit.ts *)

(** [keyGenerator]: the user id of the header, else the address. *)
Definition keyGenerator (userId : option header) (ip : option string) : string :=
  match userId with
  | Some (HeaderString s) => s
  | _ =>
      match JS.string_or_null ip with
      | Some a => a
      | None => "unknown"
      end
  end.

(** The response of a limiter that has cut the request off. *)
Definition tooManyRequests : Response.t :=
  Response.mk 429 []
    (Response.Failure MESSAGES.TOO_MANY_REQUESTS (Some [MESSAGES.RATE_LIMIT_EXCEEDED])).

(** ** src/middleware/validate.ts *)

Module Validate.

(** An issue of a failed parse: the path of the value and the message
    ([None]: the text the library has for the issue). *)
Definition issue : Type := string * option string.

(** A value of the parsed query string: a string, or an array or
    object. *)
Inductive qvalue : Type :=
  | QString (s : string)
  | QOther.

Record ListItemsQuery : Type := {
  q_type : option qvalue;
  q_page : option qvalue;
  q_limit : option qvalue;
  q_cursor : option qvalue;
}.

Record ListItemsQueryInput : Type := {
  type : PaginationType;
  page : number;
  limit : number;
  cursor : option string;
}.

Record AddToListInput : Type := {
  contentId : string;
  contentType : ContentType;
}.

(** [z.string().min(1, ...).max(50, ...)] at [path]. *)
Definition contentIdCheck (path : string) (s : string) : list issue :=
  (if utf16_length s <? 1 then [(path, Some MESSAGES.CONTENT_ID_REQUIRED)] else [])
  ++ (if 50 <? utf16_length s then [(path, Some MESSAGES.CONTENT_ID_TOO_LONG)] else []).

(** [addToListSchema] on the parsed body. *)
Definition addToListSchema (body : json) : list issue + AddToListInput :=
  match body with
  | JObj _ =>
      let idIssues :=
        match JSON.get body "contentId" with
        | Some (JStr s) => contentIdCheck "contentId" s
        | _ => [("contentId", None)]
        end in
      let type :=
        match JSON.get body "contentType" with
        | Some (JStr s) =>
            if String.eqb s "movie" then Some movie
            else if String.eqb s "tvshow" then Some tvshow
            else None
        | _ => None
        end in
      match JSON.get body "contentId", idIssues, type with
      | Some (JStr s), [], Some t => inr {| contentId := s; contentType := t |}
      | _, _, _ =>
          inl (idIssues ++ match type with
                           | Some _ => []
                           | None => [("contentType", None)]
                           end)
      end
  | _ => inl [("", None)]
  end.

(** [contentIdParamSchema] on the parameter of the route. *)
Definition contentIdParamSchema (contentId : string) : list issue + string :=
  match contentIdCheck "contentId" contentId with
  | [] => inr contentId
  | issues => inl issues
  end.

(** [z.string().optional().transform(val => val ? parseInt(val, 10) : d)
    .refine(ok, message)] at [path]: the number, or the issues. *)
Definition numberParam (path : string) (d : Z) (ok : number -> bool) (message : string)
  (v : option qvalue) : list issue + number :=
  match v with
  | Some QOther => inl [(path, None)]
  | _ =>
      let val :=
        match v with
        | Some (QString s) => if JS.string_truthy s then parseInt s else Int d
        | _ => Int d
        end in
      if ok val then inr val else inl [(path, Some message)]
  end.

Definition issuesOf {A : Type} (r : list issue + A) : list issue :=
  match r with
  | inl issues => issues
  | inr _ => []
  end.

(** [listItemsQuerySchema] on the parsed query string. *)
Definition listItemsQuerySchema (q : ListItemsQuery) : list issue + ListItemsQueryInput :=
  let type : list issue + PaginationType :=
    match q_type q with
    | None => inr Offset
    | Some (QString s) =>
        if String.eqb s "offset" then inr Offset
        else if String.eqb s "cursor" then inr Cursor
        else inl [("type", None)]
    | Some QOther => inl [("type", None)]
    end in
  let page := numberParam "page" 1 number_ge1 MESSAGES.PAGE_MIN (q_page q) in
  let limit :=
    numberParam "limit" 10 (fun v => number_ge1 v && number_le100 v) MESSAGES.LIMIT_RANGE
      (q_limit q) in
  let cursor : list issue + option string :=
    match q_cursor q with
    | None => inr None
    | Some (QString s) => inr (Some s)
    | Some QOther => inl [("cursor", None)]
    end in
  match type, page, limit, cursor with
  | inr t, inr p, inr l, inr c => inr {| type := t; page := p; limit := l; cursor := c |}
  | _, _, _, _ => inl (issuesOf type ++ issuesOf page ++ issuesOf limit ++ issuesOf cursor)
  end.

(** [validate(schema, source)]: the response of a failed validation,
    or the validated data the next handler finds. *)
Definition validate {A T : Type} (schema : A -> list issue + T) (data : A)
  : Response.t + T :=
  match schema data with
  | inl issues => inl (Response.mk 400 [] (Response.Invalid MESSAGES.VALIDATION_ERROR issues))
  | inr validated => inr validated
  end.

End Validate.

(** ** src/controllers/my-list-controller.ts *)

Module MyListController.
Section WithEngine.
Context (E : Engine).

(** [addToList]; [newId], [now0] and [now] are the ObjectId the driver
    draws and the readings of the clock. *)
Definition addToList (newId now0 now : Z) (userId : string) (body : Validate.AddToListInput)
  (st : State) : Response.t * State :=
  match MyListService.addToList E newId now0 now userId (Validate.contentId body)
          (Validate.contentType body) st with
  | (Ok item, st') => (Response.mk 201 [] (Response.Created item), st')
  | (Throw error, st') => (errorResponse error, st')
  end.

Definition removeFromList (userId contentId : string) (st : State) : Response.t * State :=
  match MyListService.removeFromList userId contentId st with
  | (Ok _, st') => (Response.mk 200 [] (Response.Message MESSAGES.ITEM_REMOVED), st')
  | (Throw error, st') => (errorResponse error, st')
  end.

(** [getList]. A validated page is an integer below 2^53 or a number
    beyond: in cursor mode neither the key of the cache nor the read of
    the store looks at the page, and the service is called without it;
    in offset mode the embedding does not follow the arithmetic of the
    service beyond 2^53 and gives no response ([None]). *)
Definition getList (userId : string) (query : Validate.ListItemsQueryInput) (st : State)
  : option (Response.t * State) :=
  let respond (page : option Z) (limit : Z) :=
    match MyListService.getList E userId (Validate.type query) page (Some limit)
            (Validate.cursor query) st with
    | (Ok result, st') =>
        (Response.mk 200 [("X-Cache", if cacheHit result then "HIT" else "MISS")]
           (Response.Page (items (listResult result)) (pagination (listResult result))),
         st')
    | (Throw error, st') => (errorResponse error, st')
    end in
  match Validate.page query, Validate.limit query, Validate.type query with
  | Int page, Int limit, _ => Some (respond (Some page) limit)
  | Huge _, Int limit, Cursor => Some (respond None limit)
  | _, _, _ => None
  end.
End WithEngine.
End MyListController.

(** ** src/routes/my-list-routes.ts *)

(** The three routes with what the request carries for each. *)
Inductive route : Type :=
  | GetMyList (query : Validate.ListItemsQuery)
  | PostMyList (body : json)
  | DeleteMyList (contentId : string).

(** What the environment adds to a request: whether the rate limiter of
    the route cuts it off, the ObjectId the driver would draw and the
    readings of the clock. *)
Record environment : Type := {
  limited : bool;
  newId : Z;
  now0 : Z;
  now : Z;
}.

(** A request that has reached the router of /api/my-list, its body
    parsed by [express.json]: authentication, the rate limiter, the
    validation, the controller, and the error handler for what the
    service throws. (A body that [express.json] cannot parse does not
    reach the router.) [None] is the [None] of the controller. *)
Definition handle (E : Engine) (env : environment) (userId : option header) (rt : route)
  (st : State) : option (Response.t * State) :=
  match authMiddleware userId with
  | inl response => Some (response, st)
  | inr userId =>
      if limited env then Some (tooManyRequests, st)
      else
        match rt with
        | GetMyList query =>
            match Validate.validate Validate.listItemsQuerySchema query with
            | inl response => Some (response, st)
            | inr validated => MyListController.getList E userId validated st
            end
        | PostMyList body =>
            match Validate.validate Validate.addToListSchema body with
            | inl response => Some (response, st)
            | inr validated =>
                Some (MyListController.addToList E (newId env) (now0 env) (now env) userId
                        validated st)
            end
        | DeleteMyList contentId =>
            match Validate.validate Validate.contentIdParamSchema contentId with
            | inl response => Some (response, st)
            | inr validated => Some (MyListController.removeFromList userId validated st)
            end
        end
  end.

(** ** src/config/redis.ts *)

(** [retryStrategy]: the delay before the next attempt in
    milliseconds, [None] to stop. *)
Definition retryStrategy (times : Z) : option Z :=
  if 10 <? times then None else Some (Z.min (times * 100) 3000).

(** The text does not go on with a decimal digit. *)
Definition no_digit_ahead (t : string) : Prop :=
  match t with
  | String c _ => JS.char_digit 10 c = None
  | EmptyString => True
  end.

(** An environment whose limiter lets the request pass. *)
Definition env0 : environment :=
  {| limited := false; newId := 7; now0 := 0; now := 1704276000000 |}.

(** The body of a POST for a content. *)
Definition postBody (contentId contentType : string) : json :=
  JObj [("contentId", JStr contentId); ("contentType", JStr contentType)].

(** * Calls of [addToList] that run at the same time

    [addToList] gives the control away at each [await]: before the
    lookup of the pair, before the lookup of the content, before the
    insert and before the invalidation. Between two of these points the
    code of one call runs alone; the store and the cache serve one
    operation at a time, in whatever order the calls reach them. *)

Module Concurrent.

(** A call with what the environment gives it: the ObjectId the driver
    draws and the two readings of the clock. *)
Record call : Type := mk {
  newId : Z;
  now0 : Z;
  now : Z;
  userId : string;
  contentId : string;
  contentType : ContentType;
}.

(** Where a call stands: before one of its four awaits, or returned. *)
Inductive point : Type :=
  | AtFindOne
  | AtFindById
  | AtCreate (contentData : MyListService.ContentData)
  | AtInvalidate (newItem : MyListItem.t)
  | Returned (r : result ListItemData.t).

Section WithEngine.
Context (E : Engine).

(** The operation a call runs from the point where it stands, with the
    code up to its next await. The commands of the invalidation are
    taken together: they touch the cache alone. *)
Definition step (c : call) (p : point) (st : State) : point * State :=
  match p with
  | AtFindOne =>
      match Model.findOne (userId c) (contentId c) (myListItems st) with
      | Some _ => (Returned (Throw (ConflictError ERRORS.ITEM_ALREADY_IN_LIST)), st)
      | None => (AtFindById, st)
      end
  | AtFindById =>
      match MyListService.fetchContent E (now0 c) (contentId c) (contentType c) st with
      | Throw e => (Returned (Throw e), st)
      | Ok contentData => (AtCreate contentData, st)
      end
  | AtCreate contentData =>
      let doc :=
        MyListService.newItem (newId c) (now c) (userId c) (contentId c) (contentType c)
          contentData in
      match Model.create doc (myListItems st) with
      | Throw e => (Returned (Throw e), st)
      | Ok c' =>
          (AtInvalidate doc,
           {| myListItems := c';
              movies := movies st;
              tvShows := tvShows st;
              redis := redis st |})
      end
  | AtInvalidate doc =>
      (Returned (Ok (MyListService.mapToListItemData doc)),
       MyListService.with_redis st (CacheService.invalidateUserCache (userId c) (redis st)))
  | Returned r => (Returned r, st)
  end.

(** The calls run as the schedule says: each entry of the schedule is
    the index of the call that takes its next step. *)
Fixpoint run (calls : list call) (schedule : list nat) (points : list point) (st : State)
  : list point * State :=
  match schedule with
  | [] => (points, st)
  | i :: schedule' =>
      match calls !! i, points !! i with
      | Some c, Some p =>
          let '(p', st') := step c p st in
          run calls schedule' (<[i := p']> points) st'
      | _, _ => run calls schedule' points st
      end
  end.
End WithEngine.




End Concurrent.

(** ** The course of concurrent adds of one pair *)










(** * Properties *)

(** ** Strings *)

Section Strings.

Lemma sapp_nil_l (s : string) : EmptyString +:+ s = s.
Proof. done. Qed.

Lemma sapp_cons (c : ascii) (s t : string) : String c s +:+ t = String c (s +:+ t).
Proof. done. Qed.

Lemma sapp_nil_r (s : string) : s +:+ EmptyString = s.
Proof. induction s as [|c s IH]; [done | by rewrite sapp_cons, IH]. Qed.

Lemma sapp_assoc (s t u : string) : (s +:+ t) +:+ u = s +:+ (t +:+ u).
Proof. induction s as [|c s IH]; [done | by rewrite !sapp_cons, IH]. Qed.

Lemma sapp_length (s t : string) :
  String.length (s +:+ t) = (String.length s + String.length t)%nat.
Proof. induction s as [|c s IH]; [done | rewrite sapp_cons; simpl; by rewrite IH]. Qed.

(** Cancellation on the right. *)
Lemma sapp_inj_r (s s' t : string) : s +:+ t = s' +:+ t -> s = s'.
Proof.
  revert s'. induction s as [|c s IH]; intros [|c' s'] H;
    rewrite ?sapp_cons, ?sapp_nil_l in H.
  - done.
  - apply (f_equal String.length) in H. simpl in H. rewrite sapp_length in H. lia.
  - apply (f_equal String.length) in H. simpl in H. rewrite sapp_length in H. lia.
  - injection H as -> H. f_equal. by apply IH.
Qed.

Lemma has_app (c : ascii) (s t : string) : has c (s +:+ t) = has c s || has c t.
Proof.
  induction s as [|x s IH]; [done|]. rewrite sapp_cons. simpl.
  rewrite IH. by rewrite orb_assoc.
Qed.

(** Two texts that agree and whose first parts hold no separator are cut
    at the same place. *)
Lemma split_first (c : ascii) (a a' r r' : string) :
  has c a = false -> has c a' = false ->
  a +:+ String c r = a' +:+ String c r' -> a = a' /\ r = r'.
Proof.
  revert a'. induction a as [|x a IH]; intros [|x' a'] Ha Ha' H;
    rewrite ?sapp_cons, ?sapp_nil_l in H; simpl in *.
  - by injection H as ->.
  - injection H as <- _. by rewrite Ascii.eqb_refl in Ha'.
  - injection H as -> _. by rewrite Ascii.eqb_refl in Ha.
  - injection H as -> H. apply orb_false_elim in Ha as [_ Ha].
    apply orb_false_elim in Ha' as [_ Ha'].
    destruct (IH a' Ha Ha' H) as [-> ->]. done.
Qed.

(** The same, cut at the last separator. *)
Lemma split_last (c : ascii) (a a' r r' : string) :
  has c r = false -> has c r' = false ->
  a +:+ String c r = a' +:+ String c r' -> a = a' /\ r = r'.
Proof.
  revert a'. induction a as [|x a IH]; intros [|x' a'] Hr Hr' H;
    rewrite ?sapp_cons, ?sapp_nil_l in H.
  - by injection H as ->.
  - injection H as _ H. rewrite H, has_app in Hr. simpl in Hr.
    rewrite Ascii.eqb_refl, orb_true_r in Hr. done.
  - injection H as _ H. rewrite <- H, has_app in Hr'. simpl in Hr'.
    rewrite Ascii.eqb_refl, orb_true_r in Hr'. done.
  - injection H as -> H. destruct (IH a' Hr Hr' H) as [-> ->]. done.
Qed.

Lemma pretty_N_char_numeric (x : N) : numeric (pretty_N_char x) = true.
Proof. unfold pretty_N_char. by repeat case_match. Qed.

Lemma pretty_N_go_numeric (x : N) (s : string) :
  all_chars numeric s = true -> all_chars numeric (pretty_N_go x s) = true.
Proof.
  revert s. induction (N.lt_wf_0 x) as [x _ IH]; intros s Hs.
  destruct (decide (x = 0%N)) as [->|Hx].
  - by rewrite pretty_N_go_0.
  - rewrite pretty_N_go_step by lia. apply IH.
    + apply N.div_lt; lia.
    + simpl. by rewrite pretty_N_char_numeric, Hs.
Qed.

Lemma pretty_N_numeric (x : N) : all_chars numeric (pretty x) = true.
Proof.
  unfold pretty, pretty_N. case_decide; [done|]. by apply pretty_N_go_numeric.
Qed.

Lemma String_of_number_numeric (n : Z) :
  all_chars numeric (JS.String_of_number n) = true.
Proof.
  unfold JS.String_of_number, pretty, pretty_Z. destruct n as [|p|p].
  - done.
  - apply pretty_N_numeric.
  - rewrite sapp_cons, sapp_nil_l. simpl. apply pretty_N_numeric.
Qed.

Lemma all_chars_has (f : ascii -> bool) (c : ascii) (s : string) :
  f c = false -> all_chars f s = true -> has c s = false.
Proof.
  intros Hc. induction s as [|x s IH]; simpl; [done|].
  intros [Hx Hs]%andb_prop. rewrite (IH Hs), orb_false_r.
  destruct (Ascii.eqb_spec x c) as [->|]; [congruence | done].
Qed.

Lemma String_of_number_no_colon (n : Z) : has ":" (JS.String_of_number n) = false.
Proof. apply (all_chars_has numeric); [done | apply String_of_number_numeric]. Qed.

Lemma userId_no_colon (u : string) : valid_userId u = true -> has ":" u = false.
Proof.
  unfold valid_userId. intros [[H _]%andb_prop _]%andb_prop.
  by apply (all_chars_has userId_char).
Qed.

Lemma String_of_number_inj (n m : Z) :
  JS.String_of_number n = JS.String_of_number m -> n = m.
Proof. apply pretty_Z_inj. Qed.

End Strings.

(** ** C2: the derivation of cache keys *)

Section CacheKeys.

Lemma offset_key_eq (u : string) (p l : Z) :
  CacheService.getOffsetCacheKey u p l
  = "mylist:" +:+ (u +:+ String ":" ("offset:page:" +:+ (JS.String_of_number p
      +:+ String ":" ("limit:" +:+ JS.String_of_number l)))).
Proof. done. Qed.

Lemma cursor_key_eq (u : string) (c : option string) (l : Z) :
  CacheService.getCursorCacheKey u c l
  = "mylist:" +:+ (u +:+ String ":" ("cursor:" +:+
      ((default "first" (JS.string_or_null c) +:+ ":limit")
       +:+ String ":" (JS.String_of_number l)))).
Proof.
  unfold CacheService.getCursorCacheKey. cbv zeta.
  by rewrite (sapp_assoc _ ":limit").
Qed.

Lemma string_or_null_idem (c : option string) :
  JS.string_or_null (JS.string_or_null c) = JS.string_or_null c.
Proof. destruct c as [[|x s]|]; done. Qed.

(** C2, amended: for user ids as the authentication middleware admits
    them, two requests get the same cache key exactly when they agree on
    the user, the mode, the limit and, in offset mode, the effective page
    ([page || 1]), in cursor mode, the cursor part of the key (the
    cursor, or the word first when the cursor is absent or empty).
    The key is therefore a function of the effective parameters and
    separates them, across the modes too, except that the literal
    cursor first shares the key of the absent cursor. *)
Theorem cache_key_injective (u1 u2 : string) (t1 t2 : PaginationType)
  (p1 p2 : option Z) (c1 c2 : option string) (l1 l2 : Z) :
  valid_userId u1 = true -> valid_userId u2 = true ->
  CacheService.getCacheKey u1 t1 p1 c1 l1 = CacheService.getCacheKey u2 t2 p2 c2 l2
  <-> u1 = u2 /\ t1 = t2 /\ l1 = l2
      /\ match t1 with
         | Offset => JS.number_or p1 1 = JS.number_or p2 1
         | Cursor => cursorPart c1 = cursorPart c2
         end.
Proof.
  intros Hu1%userId_no_colon Hu2%userId_no_colon. split.
  - unfold CacheService.getCacheKey.
    destruct t1, t2; rewrite ?offset_key_eq, ?cursor_key_eq; intros H;
      apply (inj (String.app "mylist:")) in H;
      apply split_first in H as [-> H]; try done.
    + apply (inj (String.app "offset:page:")) in H.
      apply split_first in H as [Hp H]; try apply String_of_number_no_colon.
      apply (inj (String.app "limit:")) in H.
      apply String_of_number_inj in Hp, H. done.
    + apply (inj (String.app "cursor:")) in H.
      apply split_last in H as [Hc H]; try apply String_of_number_no_colon.
      apply sapp_inj_r in Hc. apply String_of_number_inj in H.
      unfold cursorPart. rewrite !string_or_null_idem in Hc. done.
  - intros (-> & <- & -> & H). unfold CacheService.getCacheKey.
    destruct t1; [by rewrite H|].
    unfold CacheService.getCursorCacheKey. unfold cursorPart in H.
    rewrite !string_or_null_idem. by rewrite H.
Qed.

End CacheKeys.

Lemma cache_key_injective_witness :
  CacheService.getCacheKey "user-1" Offset (Some 2) None 10
  = CacheService.getCacheKey "user-1" Offset (Some 2) (Some "ignored") 10
  <-> "user-1" = "user-1" /\ Offset = Offset /\ 10 = 10
      /\ JS.number_or (Some 2) 1 = JS.number_or (Some 2) 1.
Proof.
  apply (cache_key_injective "user-1" "user-1" Offset Offset (Some 2) (Some 2)
           None (Some "ignored") 10 10); reflexivity.
Defined.

(** C2 as stated fails: a request without cursor and a request whose
    cursor is the word first get one key, although the store answers the
    first with a page and the second with the error of a malformed
    cursor. *)
Lemma cache_key_collision_first :
  CacheService.getCacheKey "user-1" Cursor None None 10
  = CacheService.getCacheKey "user-1" Cursor None (Some "first") 10
  /\ (None : option string) <> Some "first"
  /\ MyListService.readStore strictEngine "user-1" Cursor None 10 None []
     <> MyListService.readStore strictEngine "user-1" Cursor None 10 (Some "first") [].
Proof. split; [reflexivity | split; [discriminate | vm_compute; discriminate]]. Qed.

(** ** The Redis commands and the cache service *)

Section RedisFacts.
Context {V : Type}.
Implicit Types r : Redis.t V.

Lemma command_db_read {A : Type} r (f : gmap string (Z * V) -> A) :
  Redis.db (Redis.command r (fun m => (f m, m))).2 = Redis.db r.
Proof. unfold Redis.command. by repeat case_match. Qed.

Lemma get_db key r : Redis.db (Redis.get key r).2 = Redis.db r.
Proof. apply command_db_read. Qed.

Lemma scan_db c p n r : Redis.db (Redis.scan c p n r).2 = Redis.db r.
Proof. apply (command_db_read r). Qed.

Lemma scan_keys c p n r : Redis.keys (Redis.scan c p n r).2 = Redis.keys r.
Proof. unfold Redis.keys. by rewrite scan_db. Qed.

Lemma scan_reply c p n r next found r' :
  Redis.scan c p n r = (Ok (next, found), r') ->
  next = (if (length (Redis.keys r) <=? c + n)%nat then O else (c + n)%nat)
  /\ found = List.filter (Redis.stringmatch p) (take n (drop c (Redis.keys r))).
Proof.
  unfold Redis.scan, Redis.command. repeat case_match; intros; simplify_eq; done.
Qed.

Lemma scan_no_fault c p n r :
  Redis.faults r = [] ->
  exists next found,
    Redis.scan c p n r = (Ok (next, found), Redis.mk (Redis.db r) []).
Proof. unfold Redis.scan, Redis.command. intros ->. eauto. Qed.

Lemma CacheService_get_db key r : Redis.db (CacheService.get key r).2 = Redis.db r.
Proof.
  unfold CacheService.get. pose proof (get_db key r) as H.
  destruct (Redis.get key r) as [[[d|]|e] r']; done.
Qed.

(** A hit returns what the keyspace holds. *)
Lemma CacheService_get_hit key r d :
  CacheService.data (CacheService.get key r).1 = Some d ->
  exists ttl, Redis.db r !! key = Some (ttl, d).
Proof.
  unfold CacheService.get, Redis.get, Redis.command.
  repeat case_match; simplify_eq/=; intros; simplify_eq;
    match goal with
    | H : snd <$> _ = Some _ |- _ =>
        apply fmap_Some in H as [[ttl ?] [? ?]]; simplify_eq/=; eauto
    end.
Qed.

(** No entry under the key: a miss. *)
Lemma CacheService_get_absent key r :
  Redis.db r !! key = None ->
  (CacheService.get key r).1 = {| CacheService.data := None; CacheService.hit := false |}.
Proof.
  unfold CacheService.get, Redis.get, Redis.command. intros H.
  repeat case_match; simplify_eq/=; try done;
    match goal with H' : snd <$> _ = Some _ |- _ => by rewrite H in H' end.
Qed.

Lemma CacheService_get_shape key r :
  (CacheService.get key r).1 = {| CacheService.data := None; CacheService.hit := false |}
  \/ exists d, (CacheService.get key r).1
               = {| CacheService.data := Some d; CacheService.hit := true |}.
Proof.
  unfold CacheService.get. destruct (Redis.get key r) as [[[d|]|e] r']; eauto.
Qed.

(** After [set] the keyspace is the old one, or the old one with the
    new page. *)
Lemma CacheService_set_db key d ttl r :
  Redis.db (CacheService.set key d ttl r) = Redis.db r
  \/ Redis.db (CacheService.set key d ttl r) = <[key := (ttl, d)]> (Redis.db r).
Proof.
  unfold CacheService.set, Redis.setex, Redis.command.
  repeat case_match; simplify_eq/=; auto.
Qed.

(** The SCAN loop leaves the keyspace alone, and when it ends without
    an error it has collected every key that matches. *)
Lemma scanLoop_spec rounds cursor pattern acc r :
  Redis.db (CacheService.scanLoop rounds cursor pattern acc r).2 = Redis.db r
  /\ forall ks, (CacheService.scanLoop rounds cursor pattern acc r).1 = Ok ks ->
       ks = acc ++ List.filter (Redis.stringmatch pattern) (drop cursor (Redis.keys r)).
Proof.
  revert cursor acc r. induction rounds as [|rounds IH]; intros cursor acc r;
    simpl; pose proof (scan_db cursor pattern 100 r) as Hdb;
    pose proof (scan_keys cursor pattern 100 r) as Hkeys;
    destruct (Redis.scan cursor pattern 100 r) as [[[next found]|e] r'] eqn:Hscan;
    simpl in *; try done.
  - apply scan_reply in Hscan as [Hnext Hfound]. subst found.
    destruct next as [|next]; simpl; [|split; [done | intros ks [=]]]. split; [done|].
    intros ks [= <-]. f_equal. f_equal.
    destruct (Nat.leb_spec (length (Redis.keys r)) (cursor + 100)); [|lia].
    apply take_ge. rewrite length_drop. lia.
  - apply scan_reply in Hscan as [Hnext Hfound]. subst found.
    destruct next as [|next]; simpl.
    + split; [done|]. intros ks [= <-]. f_equal. f_equal.
      destruct (Nat.leb_spec (length (Redis.keys r)) (cursor + 100)); [|lia].
      apply take_ge. rewrite length_drop. lia.
    + destruct (IH (S next) (acc ++ List.filter (Redis.stringmatch pattern)
                     (take 100 (drop cursor (Redis.keys r)))) r') as [IH1 IH2].
      split; [by rewrite IH1|]. intros ks Hks. rewrite (IH2 ks Hks), Hkeys.
      destruct (Nat.leb_spec (length (Redis.keys r)) (cursor + 100)); [done|].
      rewrite Hnext. rewrite <- List.app_assoc. f_equal.
      rewrite <- List.filter_app. f_equal.
      rewrite <- (take_drop 100 (drop cursor (Redis.keys r))) at 2.
      by rewrite drop_drop.
Qed.

Lemma del_db ks r :
  Redis.db (Redis.del ks r).2 = Redis.db r
  \/ ((Redis.del ks r).1 = Ok tt
      /\ Redis.db (Redis.del ks r).2 = foldr delete (Redis.db r) ks).
Proof. unfold Redis.del, Redis.command. repeat case_match; simplify_eq/=; auto. Qed.

Lemma del_ok ks r :
  (Redis.del ks r).1 = Ok tt ->
  Redis.db (Redis.del ks r).2 = foldr delete (Redis.db r) ks.
Proof. unfold Redis.del, Redis.command. repeat case_match; simplify_eq/=; done. Qed.

Lemma elem_of_keys k r : k ∈ Redis.keys r <-> is_Some (Redis.db r !! k).
Proof.
  unfold Redis.keys. rewrite list_elem_of_fmap. split.
  - intros [[k' v] [-> H%elem_of_map_to_list]]. eauto.
  - intros [v H]. exists (k, v). split; [done|]. by apply elem_of_map_to_list.
Qed.

Lemma filter_elem_of (f : string -> bool) (l : list string) (k : string) :
  k ∈ List.filter f l <-> k ∈ l /\ f k = true.
Proof. rewrite !list_elem_of_In. apply filter_In. Qed.

(** The sweep deletes nothing but keys that match the pattern of the
    user. *)
Lemma sweep_frame userId r k :
  Redis.stringmatch (CacheService.getUserCachePattern userId) k = false ->
  Redis.db (CacheService.sweep userId r).2 !! k = Redis.db r !! k.
Proof.
  intros Hk. unfold CacheService.sweep.
  destruct (scanLoop_spec (length (Redis.keys r)) O
              (CacheService.getUserCachePattern userId) [] r) as [Hdb Hks].
  destruct (CacheService.scanLoop _ _ _ _ _) as [[ks|e] r']; simpl in *;
    [|by rewrite Hdb].
  specialize (Hks ks eq_refl). simpl in Hks. rewrite drop_0 in Hks. subst ks.
  case_match; simpl; [|by rewrite Hdb].
  destruct (del_db (List.filter (Redis.stringmatch
              (CacheService.getUserCachePattern userId)) (Redis.keys r)) r')
    as [->|[_ ->]]; rewrite Hdb; [done|].
  apply lookup_foldr_delete_not_elem_of. rewrite filter_elem_of. intros [_ ?]. congruence.
Qed.

(** A sweep that ends without an error leaves no key that matches. *)
Lemma sweep_clears userId r k :
  (CacheService.sweep userId r).1 = Ok tt ->
  Redis.stringmatch (CacheService.getUserCachePattern userId) k = true ->
  Redis.db (CacheService.sweep userId r).2 !! k = None.
Proof.
  unfold CacheService.sweep.
  destruct (scanLoop_spec (length (Redis.keys r)) O
              (CacheService.getUserCachePattern userId) [] r) as [Hdb Hks].
  destruct (CacheService.scanLoop _ _ _ _ _) as [[ks|e] r']; simpl in *; [|done].
  specialize (Hks ks eq_refl). simpl in Hks. rewrite drop_0 in Hks. subst ks.
  destruct (Redis.db r !! k) as [v|] eqn:Hlook.
  - assert (Redis.stringmatch (CacheService.getUserCachePattern userId) k = true ->
            k ∈ List.filter (Redis.stringmatch
              (CacheService.getUserCachePattern userId)) (Redis.keys r)) as Hin.
    { intros. rewrite filter_elem_of, elem_of_keys. eauto. }
    intros Hok Hm. specialize (Hin Hm).
    destruct (List.filter _ _) as [|k0 ks] eqn:Hf; [by apply not_elem_of_nil in Hin|].
    simpl in *. rewrite (del_ok _ _ Hok), Hdb.
    by apply (lookup_foldr_delete _ (k0 :: ks)).
  - intros _ _. case_match; simpl; [|by rewrite Hdb].
    destruct (del_db (List.filter (Redis.stringmatch
                (CacheService.getUserCachePattern userId)) (Redis.keys r)) r')
      as [->|[_ ->]]; rewrite Hdb; [done|].
    apply eq_None_not_Some. intros [y Hy].
    apply lookup_foldr_delete_Some in Hy as [_ Hy]. congruence.
Qed.

(** Without transport failures the loop ends within its rounds. *)
Lemma scanLoop_no_fault rounds cursor pattern acc r :
  Redis.faults r = [] ->
  (length (Redis.keys r) <= cursor + 100 * S rounds)%nat ->
  exists ks, CacheService.scanLoop rounds cursor pattern acc r
             = (Ok ks, Redis.mk (Redis.db r) []).
Proof.
  revert cursor acc r. induction rounds as [|rounds IH]; intros cursor acc r Hf Hlen;
    simpl; destruct (scan_no_fault cursor pattern 100 r Hf) as (next & found & Hscan);
    rewrite Hscan; apply scan_reply in Hscan as [Hnext _].
  - destruct (Nat.leb_spec (length (Redis.keys r)) (cursor + 100)); [|lia].
    subst next. eauto.
  - destruct next as [|next]; [eauto|].
    destruct (Nat.leb_spec (length (Redis.keys r)) (cursor + 100)); [done|].
    destruct (IH (S next) (acc ++ found) (Redis.mk (Redis.db r) [])) as [ks Hks];
      [done | unfold Redis.keys in *; simpl; lia |].
    rewrite Hks. eauto.
Qed.

Lemma sweep_no_fault userId r :
  Redis.faults r = [] -> (CacheService.sweep userId r).1 = Ok tt.
Proof.
  intros Hf. unfold CacheService.sweep.
  destruct (scanLoop_no_fault (length (Redis.keys r)) O
              (CacheService.getUserCachePattern userId) [] r Hf) as [ks ->]; [lia|].
  by case_match.
Qed.
End RedisFacts.

(** ** Glob patterns *)

Section Glob.

Lemma glob_star (s : string) : Redis.glob "*" s = true.
Proof. induction s as [|x s IH]; [done|]. simpl in *. exact IH. Qed.

Lemma glob_literal (c : ascii) (p s : string) :
  special c = false ->
  Redis.glob (String c p) s
  = match s with
    | EmptyString => false
    | String x s' => Ascii.eqb c x && Redis.glob p s'
    end.
Proof.
  unfold special. intros H.
  apply orb_false_elim in H as [H H4]. apply orb_false_elim in H as [H H3].
  apply orb_false_elim in H as [H1 H2].
  simpl. rewrite H1. destruct s as [|x s]; [done|]. by rewrite H2, H3, H4.
Qed.

(** A pattern that starts with plain characters matches the keys that
    start with them and whose rest matches the rest of the pattern. *)
Lemma glob_prefix (lit p s : string) :
  all_chars (fun c => negb (special c)) lit = true ->
  Redis.glob (lit +:+ p) s = true
  <-> exists s', s = lit +:+ s' /\ Redis.glob p s' = true.
Proof.
  revert s. induction lit as [|c lit IH]; intros s Hlit.
  - rewrite sapp_nil_l. split; [eauto|]. by intros (s' & -> & H).
  - simpl in Hlit. apply andb_prop in Hlit as [Hc%negb_true_iff Hlit].
    rewrite sapp_cons, glob_literal by done. destruct s as [|x s].
    + split; [done|]. by intros (s' & ? & _).
    + rewrite andb_true_iff, IH by done. split.
      * intros [->%Ascii.eqb_eq (s' & -> & H)]. eauto.
      * intros (s' & Hs & H). rewrite sapp_cons in Hs. injection Hs as -> ->.
        split; [apply Ascii.eqb_refl | eauto].
Qed.

Lemma userId_char_plain (c : ascii) : userId_char c = true -> special c = false.
Proof. destruct c as [[] [] [] [] [] [] [] []]; vm_compute; congruence. Qed.

Lemma userId_plain (u : string) :
  all_chars userId_char u = true -> all_chars (fun c => negb (special c)) u = true.
Proof.
  induction u as [|c u IH]; [done|]. simpl. intros [Hc Hu]%andb_prop.
  by rewrite (userId_char_plain c Hc), IH.
Qed.

Lemma all_chars_app (f : ascii -> bool) (s t : string) :
  all_chars f (s +:+ t) = all_chars f s && all_chars f t.
Proof.
  induction s as [|c s IH]; [done|]. rewrite sapp_cons. simpl.
  by rewrite IH, andb_assoc.
Qed.

(** The pattern of a user matches exactly the keys in the namespace
    of the user. *)
Lemma user_pattern_match (u k : string) :
  valid_userId u = true ->
  Redis.stringmatch (CacheService.getUserCachePattern u) k = true
  <-> exists rest, k = "mylist:" +:+ u +:+ ":" +:+ rest.
Proof.
  intros [[Hu _]%andb_prop _]%andb_prop.
  assert (CacheService.getUserCachePattern u = ("mylist:" +:+ u +:+ ":") +:+ "*") as ->.
  { unfold CacheService.getUserCachePattern. by rewrite !sapp_assoc. }
  assert (Redis.glob (("mylist:" +:+ u +:+ ":") +:+ "*") k = true
          <-> exists rest, k = "mylist:" +:+ u +:+ ":" +:+ rest) as Hglob.
  { rewrite glob_prefix.
    - split.
      + intros (s' & -> & _). exists s'. by rewrite !sapp_assoc.
      + intros (rest & ->). exists rest. rewrite !sapp_assoc. split; [done|].
        apply glob_star.
    - rewrite !all_chars_app, (userId_plain u Hu). done. }
  destruct k as [|x k]; [|exact Hglob]. split.
  - unfold Redis.stringmatch. intros H%bool_decide_eq_true. discriminate H.
  - intros (rest & H). discriminate H.
Qed.

End Glob.

(** ** C10: invalidation stays within the namespace of the user *)

Section Frame.
Context (E : Engine).

Lemma user_pattern_namespace (u k : string) :
  valid_userId u = true ->
  Redis.stringmatch (CacheService.getUserCachePattern u) k = true <-> in_namespace u k.
Proof. apply user_pattern_match. Qed.

Lemma invalidate_frame {T : Type} (u : string) (r : Redis.t T) (k : string) :
  valid_userId u = true -> ~ in_namespace u k ->
  Redis.db (CacheService.invalidateUserCache u r) !! k = Redis.db r !! k.
Proof.
  intros Hu Hk. apply sweep_frame. apply not_true_is_false.
  by rewrite user_pattern_namespace.
Qed.

(** Every key of a user lies in the namespace of that user. *)
Lemma cache_key_namespace (u : string) (t : PaginationType) (p : option Z)
  (c : option string) (l : Z) :
  in_namespace u (CacheService.getCacheKey u t p c l).
Proof.
  unfold in_namespace, CacheService.getCacheKey. destruct t.
  - rewrite offset_key_eq. eauto.
  - rewrite cursor_key_eq. eauto.
Qed.

Lemma namespace_disjoint (u v k : string) :
  valid_userId u = true -> valid_userId v = true -> u <> v ->
  in_namespace v k -> ~ in_namespace u k.
Proof.
  intros Hu%userId_no_colon Hv%userId_no_colon Hne [rest ->] [rest' H].
  apply (inj (String.app "mylist:")) in H.
  apply split_first in H as [-> _]; done.
Qed.

Lemma sweep_no_match {T : Type} (u : string) (r : Redis.t T) :
  (forall k, k ∈ Redis.keys r ->
     Redis.stringmatch (CacheService.getUserCachePattern u) k = false) ->
  Redis.db (CacheService.invalidateUserCache u r) = Redis.db r.
Proof.
  intros Hno. unfold CacheService.invalidateUserCache, CacheService.sweep.
  destruct (scanLoop_spec (length (Redis.keys r)) O
              (CacheService.getUserCachePattern u) [] r) as [Hdb Hks].
  destruct (CacheService.scanLoop _ _ _ _ _) as [[ks|e] r']; simpl in *; [|done].
  specialize (Hks ks eq_refl). simpl in Hks. rewrite drop_0 in Hks.
  assert (ks = []) as ->.
  { subst ks. induction (Redis.keys r) as [|k l IH]; [done|]. simpl.
    rewrite (Hno k) by apply list_elem_of_here. apply IH.
    intros k' Hk'. apply Hno. by apply list_elem_of_further. }
  done.
Qed.

(** C10: for a user id [U] as the authentication middleware admits it,
    the invalidation for [U] changes no key outside the namespace
    [mylist:U:], whatever the transport does; so the cached pages of
    every other user [V] are the same before and after an add or a
    remove by [U]; and when no key matches, the invalidation changes
    nothing and, on a working transport, ends without an error. *)
Theorem invalidation_frame (U : string) :
  valid_userId U = true ->
  (forall (r : Redis.t ListResult) (k : string),
      ~ in_namespace U k ->
      Redis.db (CacheService.invalidateUserCache U r) !! k = Redis.db r !! k)
  /\ (forall (V : string) (type : PaginationType) (page : option Z)
        (cursor : option string) (limit : Z) (st : State),
        valid_userId V = true -> V <> U ->
        let key := CacheService.getCacheKey V type page cursor limit in
        (forall newId now0 now contentId contentType,
            Redis.db (redis (MyListService.addToList E newId now0 now U contentId
                               contentType st).2) !! key
            = Redis.db (redis st) !! key)
        /\ (forall contentId,
               Redis.db (redis (MyListService.removeFromList U contentId st).2) !! key
               = Redis.db (redis st) !! key))
  /\ (forall (r : Redis.t ListResult),
        (forall k, k ∈ Redis.keys r -> ~ in_namespace U k) ->
        Redis.db (CacheService.invalidateUserCache U r) = Redis.db r
        /\ (Redis.faults r = [] -> (CacheService.sweep U r).1 = Ok tt)).
Proof.
  intros HU. split; [|split].
  - intros r k Hk. by apply invalidate_frame.
  - intros V type page cursor limit st HV Hne key.
    assert (~ in_namespace U key) as Hkey.
    { apply (namespace_disjoint U V); [done..|]. apply cache_key_namespace. }
    split.
    + intros newId now0 now contentId contentType. unfold MyListService.addToList.
      repeat case_match; simpl; try done. by apply invalidate_frame.
    + intros contentId. unfold MyListService.removeFromList.
      repeat case_match; simpl; try done. by apply invalidate_frame.
  - intros r Hno. split; [|apply sweep_no_fault].
    apply sweep_no_match. intros k Hk. apply not_true_is_false.
    rewrite user_pattern_namespace by done. by apply Hno.
Qed.
End Frame.

Lemma invalidation_frame_witness :
  Redis.db (CacheService.invalidateUserCache "alice"
              (Redis.mk (<["mylist:bob:cursor:first:limit:10" := (300, page0)]>
                         (<["mylist:alice:cursor:first:limit:10" := (300, page0)]> ∅)) []))
    !! "mylist:bob:cursor:first:limit:10"
  = Some (300, page0).
Proof.
  rewrite (proj1 (invalidation_frame strictEngine "alice" eq_refl)).
  - reflexivity.
  - intros [rest H]. discriminate H.
Defined.

(** ** C8: a failing cache never fails a read *)

Section CacheFailure.
Context (E : Engine).

(** The answer of [getList] is a cached page or the answer of the
    store, never an error of the cache. *)
Lemma getList_hit_or_store (userId : string) (type : PaginationType)
  (page limit : option Z) (cursor : option string) (st : State) :
  (exists d ttl,
      (MyListService.getList E userId type page limit cursor st).1
      = Ok {| listResult := d; cacheHit := true |}
      /\ Redis.db (redis st)
           !! CacheService.getCacheKey userId type page cursor (JS.number_or limit 10)
         = Some (ttl, d))
  \/ (MyListService.getList E userId type page limit cursor st).1
     = missResult (MyListService.readStore E userId type page (JS.number_or limit 10)
                     cursor (myListItems st)).
Proof.
  unfold MyListService.getList. cbv zeta.
  pose proof (CacheService_get_hit
    (CacheService.getCacheKey userId type page cursor (JS.number_or limit 10)) (redis st)) as Hhit.
  destruct (CacheService.get _ (redis st)) as [[[d|] [|]] r1]; simpl in *.
  - left. destruct (Hhit d eq_refl) as [ttl Httl]. eauto.
  - right. by destruct (MyListService.readStore _ _ _ _ _ _ _).
  - right. by destruct (MyListService.readStore _ _ _ _ _ _ _).
  - right. by destruct (MyListService.readStore _ _ _ _ _ _ _).
Qed.

(** C8: whatever the keyspace holds, when the GET of [getList] fails
    in transport the answer is the answer of the store marked as a
    miss, the same as on a working cache without the page; this holds
    whether the SETEX that follows fails too (then the keyspace is left
    as it was) or not; and on every cache the answer is a cached page
    or the answer of the store, never an error of the cache. *)
Theorem cache_failure_is_miss (userId : string) (type : PaginationType)
  (page limit : option Z) (cursor : option string)
  (c : list MyListItem.t) (ms : list Movie.t) (ts : list TVShow.t)
  (db : gmap string (Z * ListResult)) (fs : list bool) :
  let st (r : Redis.t ListResult) :=
    {| myListItems := c; movies := ms; tvShows := ts; redis := r |} in
  let key := CacheService.getCacheKey userId type page cursor (JS.number_or limit 10) in
  let fromStore :=
    missResult (MyListService.readStore E userId type page (JS.number_or limit 10)
                  cursor c) in
  (MyListService.getList E userId type page limit cursor
     (st (Redis.mk db (true :: fs)))).1 = fromStore
  /\ (MyListService.getList E userId type page limit cursor
        (st (Redis.mk (delete key db) []))).1 = fromStore
  /\ (let st' := (MyListService.getList E userId type page limit cursor
                     (st (Redis.mk db (true :: true :: fs)))).2 in
      Redis.db (redis st') = db /\ myListItems st' = c)
  /\ (forall r,
        (exists d, (MyListService.getList E userId type page limit cursor (st r)).1
                   = Ok {| listResult := d; cacheHit := true |})
        \/ (MyListService.getList E userId type page limit cursor (st r)).1 = fromStore).
Proof.
  intros st key fromStore. split; [|split; [|split]].
  - unfold MyListService.getList, fromStore. cbv zeta. simpl.
    by destruct (MyListService.readStore _ _ _ _ _ _ _).
  - unfold MyListService.getList, fromStore. cbv zeta.
    unfold CacheService.get, Redis.get, Redis.command. simpl.
    fold key. rewrite lookup_delete_eq. simpl.
    by destruct (MyListService.readStore _ _ _ _ _ _ _).
  - unfold MyListService.getList. cbv zeta. simpl.
    by destruct (MyListService.readStore _ _ _ _ _ _ _).
  - intros r. destruct (getList_hit_or_store userId type page limit cursor (st r))
      as [(d & ttl & H & _)|H]; eauto.
Qed.
End CacheFailure.

(** ** C4: one entry per user and content *)

Section Uniqueness.
Context (E : Engine).
Implicit Types c : list MyListItem.t.

Lemma is_entry_key u k d :
  Model.is_entry u k d = true <-> entry_key d = (u, k).
Proof.
  unfold Model.is_entry, entry_key.
  rewrite andb_true_iff, !bool_decide_eq_true. split; [by intros [-> ->]|].
  by intros [= -> ->].
Qed.

Lemma existsb_false_iff {A} (f : A -> bool) (l : list A) :
  existsb f l = false <-> forall x, x ∈ l -> f x = false.
Proof.
  induction l as [|y l IH]; simpl.
  - split; [by intros _ x ?%not_elem_of_nil | done].
  - rewrite orb_false_iff, IH. split.
    + intros [Hy Hl] x [->|Hx]%elem_of_cons; auto.
    + intros H. split; [apply H, list_elem_of_here|].
      intros x Hx. by apply H, list_elem_of_further.
Qed.

Lemma findOne_None u k c :
  Model.findOne u k c = None <-> forall d, d ∈ c -> Model.is_entry u k d = false.
Proof.
  unfold Model.findOne. induction c as [|x c IH]; simpl.
  - split; [by intros _ d ?%not_elem_of_nil | done].
  - destruct (Model.is_entry u k x) eqn:Hx.
    + split; [done|]. intros H. specialize (H x (list_elem_of_here _ _)). congruence.
    + rewrite IH. split.
      * intros H d [->|Hd]%elem_of_cons; auto.
      * intros H d Hd. by apply H, list_elem_of_further.
Qed.

Lemma findOne_Some u k c d :
  Model.findOne u k c = Some d -> d ∈ c /\ Model.is_entry u k d = true.
Proof.
  unfold Model.findOne. intros H%find_some. by rewrite list_elem_of_In.
Qed.

(** [create] appends the document when both keys are new, and refuses
    it with the duplicate-key error otherwise. *)
Lemma create_spec doc c :
  (Model.create doc c = Ok (c ++ [doc])
   /\ (MyListItem._id doc ∉ (MyListItem._id <$> c))
   /\ (entry_key doc ∉ (entry_key <$> c)))
  \/ (Model.create doc c = Throw (MongoServerError 11000)
      /\ (MyListItem._id doc ∈ (MyListItem._id <$> c)
          \/ entry_key doc ∈ (entry_key <$> c))).
Proof.
  unfold Model.create. destruct (existsb _ c || existsb _ c) eqn:Hex.
  - right. split; [done|]. apply orb_true_iff in Hex as [H|H];
      apply existsb_exists in H as (d & Hd%list_elem_of_In & H).
    + left. apply Z.eqb_eq in H. rewrite <- H. by apply list_elem_of_fmap_2.
    + right. apply is_entry_key in H. rewrite <- H at 1. by apply list_elem_of_fmap_2.
  - left. split; [done|]. apply orb_false_iff in Hex as [H1 H2].
    rewrite existsb_false_iff in H1, H2. split.
    + intros (d & Hid & Hd)%list_elem_of_fmap. specialize (H1 d Hd).
      apply Z.eqb_neq in H1. congruence.
    + intros (d & Hk & Hd)%list_elem_of_fmap. specialize (H2 d Hd).
      assert (Model.is_entry (MyListItem.user_id doc) (MyListItem.content_id doc) d = true);
        [|congruence].
      apply is_entry_key. by rewrite <- Hk.
Qed.

Lemma deleteOne_spec u k c :
  (Model.deleteOne u k c = (0, c)
   /\ forall d, d ∈ c -> Model.is_entry u k d = false)
  \/ exists l1 d l2,
       c = l1 ++ d :: l2 /\ Model.deleteOne u k c = (1, l1 ++ l2)
       /\ Model.is_entry u k d = true
       /\ forall x, x ∈ l1 -> Model.is_entry u k x = false.
Proof.
  induction c as [|x c IH]; simpl.
  - left. split; [done|]. by intros d ?%not_elem_of_nil.
  - destruct (Model.is_entry u k x) eqn:Hx.
    + right. exists [], x, c. repeat split; try done. by intros y ?%not_elem_of_nil.
    + destruct IH as [[-> Hno]|(l1 & d & l2 & -> & -> & Hd & Hl1)].
      * left. split; [done|]. intros d [->|Hd]%elem_of_cons; auto.
      * right. exists (x :: l1), d, l2. repeat split; try done.
        intros y [->|Hy]%elem_of_cons; auto.
Qed.

Lemma store_wf_nil : store_wf [].
Proof. split; constructor. Qed.

Lemma store_wf_create doc c c' :
  store_wf c -> 0 <= MyListItem._id doc < 2 ^ 96 ->
  Date.valid (MyListItem.added_at doc) = true ->
  Model.create doc c = Ok c' -> store_wf c'.
Proof.
  intros [Hids Hkeys Hdocs] Hid Hdate Hc.
  destruct (create_spec doc c) as [(H & Hnid & Hnk)|[H _]]; [|congruence].
  rewrite H in Hc. injection Hc as <-. split.
  - rewrite fmap_app. apply NoDup_app. split; [done|]. split; [|apply NoDup_singleton].
    intros x Hx ->%list_elem_of_singleton. done.
  - rewrite fmap_app. apply NoDup_app. split; [done|]. split; [|apply NoDup_singleton].
    intros x Hx ->%list_elem_of_singleton. done.
  - apply Forall_app. split; [done|]. by constructor.
Qed.

Lemma store_wf_remove l1 d l2 : store_wf (l1 ++ d :: l2) -> store_wf (l1 ++ l2).
Proof.
  intros [Hids Hkeys Hdocs]. split.
  - rewrite fmap_app in *. rewrite fmap_cons in Hids.
    apply NoDup_app in Hids as (H1 & H2 & H3%NoDup_cons_1_2).
    apply NoDup_app. split; [done|]. split; [|done].
    intros x Hx Hx'. apply (H2 x Hx). by apply list_elem_of_further.
  - rewrite fmap_app in *. rewrite fmap_cons in Hkeys.
    apply NoDup_app in Hkeys as (H1 & H2 & H3%NoDup_cons_1_2).
    apply NoDup_app. split; [done|]. split; [|done].
    intros x Hx Hx'. apply (H2 x Hx). by apply list_elem_of_further.
  - apply Forall_app in Hdocs as [H1 H2%Forall_cons_1]. apply Forall_app. tauto.
Qed.

Lemma perform_wf rq st :
  request_ok rq -> store_wf (myListItems st) -> store_wf (myListItems (perform E rq st)).
Proof.
  intros Hok Hwf. destruct rq as [newId now0 now u k ct|u k|u t p l cu]; simpl.
  - unfold MyListService.addToList.
    destruct (Model.findOne _ _ _); [done|].
    destruct (MyListService.fetchContent _ _ _ _ _) as [cd|e]; [|done].
    destruct (Model.create _ _) as [c'|e] eqn:Hc; [|done]. simpl.
    destruct Hok as (Hid & _ & Hnow).
    by apply (store_wf_create (MyListService.newItem newId now u k ct cd) _ _ Hwf Hid Hnow Hc).
  - unfold MyListService.removeFromList.
    destruct (deleteOne_spec u k (myListItems st))
      as [[-> _]|(l1 & d & l2 & Hc & -> & _)]; [done|simpl].
    rewrite Hc in Hwf. by apply store_wf_remove in Hwf.
  - unfold MyListService.getList. cbv zeta.
    destruct (CacheService.get _ _) as [[[d|] [|]] r1]; simpl; try done;
      by destruct (MyListService.readStore _ _ _ _ _ _ _).
Qed.

(** Every reachable collection is well formed. *)
Lemma reachable_wf st : reachable E st -> store_wf (myListItems st).
Proof.
  induction 1 as [ms ts r|rq st _ IH Hok]; [apply store_wf_nil|].
  by apply perform_wf.
Qed.

Lemma unique_count c u k :
  NoDup (entry_key <$> c) -> (length (List.filter (Model.is_entry u k) c) <= 1)%nat.
Proof.
  induction c as [|d c IH]; [simpl; lia|]. rewrite fmap_cons.
  intros [Hd Hc]%NoDup_cons. specialize (IH Hc). simpl.
  destruct (Model.is_entry u k d) eqn:Hk; [|done]. simpl.
  assert (List.filter (Model.is_entry u k) c = []) as ->; [|simpl; lia].
  apply is_entry_key in Hk.
  clear IH Hc. induction c as [|x c IH]; [done|].
  rewrite fmap_cons, not_elem_of_cons in Hd. destruct Hd as [Hx Hd]. simpl.
  destruct (Model.is_entry u k x) eqn:Hxk; [|by apply IH].
  apply is_entry_key in Hxk. congruence.
Qed.

(** C4: in every reachable state the collection holds at most one
    document per user and content; an add for a pair that has a
    document throws the conflict error, which the error handler answers
    with status 409, and leaves the whole state as it was. *)
Theorem one_entry_per_pair (st : State) :
  reachable E st ->
  (forall u k, (length (List.filter (Model.is_entry u k) (myListItems st)) <= 1)%nat)
  /\ (forall newId now0 now u k ct d,
         d ∈ myListItems st -> Model.is_entry u k d = true ->
         MyListService.addToList E newId now0 now u k ct st
         = (Throw (ConflictError ERRORS.ITEM_ALREADY_IN_LIST), st)
         /\ (errorHandler (ConflictError ERRORS.ITEM_ALREADY_IN_LIST)).1 = 409).
Proof.
  intros Hr. split.
  - intros u k. apply unique_count. by destruct (reachable_wf st Hr).
  - intros newId now0 now u k ct d Hd Hk. split; [|done].
    unfold MyListService.addToList.
    destruct (Model.findOne u k (myListItems st)) eqn:Hf; [done|].
    rewrite findOne_None in Hf. specialize (Hf d Hd). congruence.
Qed.
End Uniqueness.

Lemma reachable_state1 : reachable strictEngine state1.
Proof.
  apply reachable_step; [apply reachable_init|].
  simpl. repeat split; try done; lia.
Qed.

Lemma one_entry_per_pair_witness :
  (length (List.filter (Model.is_entry "alice" movie1Id) (myListItems state1)) <= 1)%nat
  /\ MyListService.addToList strictEngine 8 0 1704276000001 "alice" movie1Id movie state1
     = (Throw (ConflictError ERRORS.ITEM_ALREADY_IN_LIST), state1).
Proof.
  destruct (one_entry_per_pair strictEngine state1 reachable_state1) as [H1 H2].
  split; [apply H1|].
  apply (H2 8 0 1704276000001 "alice" movie1Id movie
            (MyListService.newItem 7 1704276000000 "alice" movie1Id movie
               (MyListService.Build_ContentData "Heat" "A heist" ["Action"]
                  819936000000 (Some "Michael Mann") ["Al Pacino"]))).
  - vm_compute. apply list_elem_of_here.
  - reflexivity.
Defined.

(** ** Sorting *)

Section Sorting.
Context {D : Type} (before : D -> D -> bool).

Lemma insert_perm (x : D) (l : list D) : Mongo.insert before x l ≡ₚ x :: l.
Proof.
  induction l as [|y l IH]; simpl; [done|].
  destruct (before y x); [|done]. rewrite IH. apply Permutation_swap.
Qed.

Lemma sort_perm (l : list D) : Mongo.sort before l ≡ₚ l.
Proof.
  induction l as [|x l IH]; simpl; [done|].
  fold (Mongo.sort before l). by rewrite insert_perm, IH.
Qed.

Lemma sort_length (l : list D) : length (Mongo.sort before l) = length l.
Proof. apply Permutation_length, sort_perm. Qed.

(** [R x y]: [y] does not sort strictly before [x]. *)
Let R (x y : D) : Prop := before y x = false.

Hypothesis asym : forall x y, before y x = true -> before x y = false.
Hypothesis trans : forall x y z, R x y -> R y z -> R x z.

Lemma insert_sorted (x : D) (l : list D) :
  Sorted R l -> Sorted R (Mongo.insert before x l).
Proof.
  induction 1 as [|y l Hl IH Hy]; simpl; [by repeat constructor|].
  destruct (before y x) eqn:Hyx.
  - constructor; [done|]. destruct Hy as [|z l Hz]; simpl.
    + constructor. by apply asym.
    + destruct (before z x); constructor; [done | by apply asym].
  - by repeat constructor.
Qed.

Lemma sort_sorted (l : list D) : StronglySorted R (Mongo.sort before l).
Proof.
  apply Sorted_StronglySorted; [exact trans|].
  induction l as [|x l IH]; simpl; [constructor|]. by apply insert_sorted.
Qed.
End Sorting.

Lemma StronglySorted_mono {A : Type} (R R' : A -> A -> Prop) (l : list A) :
  (forall x y, R x y -> R' x y) -> StronglySorted R l -> StronglySorted R' l.
Proof.
  intros HR. induction 1 as [|x l Hl IH Hx]; constructor; [done|].
  eapply Forall_impl; [exact Hx | auto].
Qed.

Lemma sort_by_added_at (l : list MyListItem.t) :
  StronglySorted not_older (Mongo.sort MyListService.by_added_at l).
Proof.
  eapply StronglySorted_mono; [|apply sort_sorted].
  - intros x y H. unfold MyListService.by_added_at in H. unfold not_older. lia.
  - intros x y. unfold MyListService.by_added_at. lia.
  - intros x y z. unfold MyListService.by_added_at. lia.
Qed.

(** In canonical order every document strictly precedes the later
    ones, provided the ids of the collection differ. *)
Lemma sort_by_added_at_id (l : list MyListItem.t) :
  NoDup (MyListItem._id <$> l) ->
  StronglySorted precedes (Mongo.sort MyListService.by_added_at_id l).
Proof.
  intros Hnd.
  assert (NoDup (MyListItem._id <$> Mongo.sort MyListService.by_added_at_id l)) as Hnd'.
  { by rewrite sort_perm. }
  assert (StronglySorted (fun x y => MyListService.by_added_at_id y x = false)
            (Mongo.sort MyListService.by_added_at_id l)) as Hs.
  { apply sort_sorted.
    - intros x y. unfold MyListService.by_added_at_id. lia.
    - intros x y z. unfold MyListService.by_added_at_id. lia. }
  induction Hs as [|x s Hs IH Hx]; constructor.
  - apply IH. rewrite fmap_cons in Hnd'. by apply NoDup_cons in Hnd' as [_ ?].
  - rewrite fmap_cons in Hnd'. apply NoDup_cons in Hnd' as [Hx' _].
    rewrite Forall_forall in Hx |- *. intros y Hy. specialize (Hx y Hy).
    assert (MyListItem._id y <> MyListItem._id x) as Hne.
    { intros Heq. apply Hx'. rewrite <- Heq. by apply list_elem_of_fmap_2. }
    unfold MyListService.by_added_at_id in Hx. unfold precedes. lia.
Qed.

(** ** C6: the offset mode *)

Lemma ceil_div_spec (a b : Z) :
  0 < b -> (MyListService.ceil_div a b - 1) * b < a <= MyListService.ceil_div a b * b.
Proof.
  intros Hb. unfold MyListService.ceil_div.
  pose proof (Z.div_mod (- a) b ltac:(lia)) as Hdm.
  pose proof (Z.mod_pos_bound (- a) b Hb) as Hm. nia.
Qed.

Lemma skip_nonneg {D : Type} (n : Z) (l : list D) :
  0 <= n -> Mongo.skip n l = Ok (drop (Z.to_nat n) l).
Proof. intros Hn. unfold Mongo.skip. case_match eqn:H; [lia | done]. Qed.

Lemma limit_pos {D : Type} (n : Z) (l : list D) :
  1 <= n -> Mongo.limit n l = take (Z.to_nat n) l.
Proof.
  intros Hn. unfold Mongo.limit. case_match eqn:H; [lia|].
  by rewrite Z.abs_eq by lia.
Qed.

(** C6, amended: in offset mode with [page >= 1] and [1 <= limit <= 100]
    the page holds the documents of the user sorted by [added_at]
    descending (without the tie-break on the id of the canonical order),
    after skipping [(page-1)*limit] and taking [limit]; [totalItems] is
    the number of documents of the user, [totalPages] the ceiling of
    [totalItems/limit], [hasNextPage] is [page < totalPages], [hasPrevPage]
    is [page > 1]; beyond the last page the item list is empty and the
    pagination block is the same well-formed record. *)
Theorem offset_page (userId : string) (page limit : Z) (c : list MyListItem.t) :
  1 <= page -> 1 <= limit <= 100 ->
  let sorted := Mongo.sort MyListService.by_added_at (List.filter (Model.is_user userId) c) in
  let totalItems := Z.of_nat (length (List.filter (Model.is_user userId) c)) in
  exists totalPages,
    MyListService.getListWithOffsetPagination userId page limit c
    = Ok {| items := List.map MyListService.mapToListItemData
                       (take (Z.to_nat limit) (drop (Z.to_nat ((page - 1) * limit)) sorted));
            pagination := OffsetPage
              {| OffsetPagination.page := page;
                 OffsetPagination.limit := limit;
                 OffsetPagination.totalItems := totalItems;
                 OffsetPagination.totalPages := totalPages;
                 OffsetPagination.hasNextPage := page <? totalPages;
                 OffsetPagination.hasPrevPage := 1 <? page |} |}
    /\ sorted ≡ₚ List.filter (Model.is_user userId) c
    /\ StronglySorted not_older sorted
    /\ (totalPages - 1) * limit < totalItems <= totalPages * limit
    /\ (totalPages < page ->
        take (Z.to_nat limit) (drop (Z.to_nat ((page - 1) * limit)) sorted) = []).
Proof.
  intros Hpage Hlimit sorted totalItems.
  exists (MyListService.ceil_div totalItems limit).
  pose proof (ceil_div_spec totalItems limit ltac:(lia)) as Hceil.
  split; [|split; [|split; [|split]]].
  - unfold MyListService.getListWithOffsetPagination. cbv zeta.
    rewrite skip_nonneg by nia. unfold bind. by rewrite limit_pos by lia.
  - apply sort_perm.
  - apply sort_by_added_at.
  - exact Hceil.
  - intros Hbeyond. rewrite drop_ge; [apply take_nil|].
    unfold sorted. rewrite sort_length.
    assert (totalItems <= (page - 1) * limit) by nia. unfold totalItems in *. lia.
Qed.

Lemma offset_page_witness :
  exists totalPages,
    MyListService.getListWithOffsetPagination "alice" 2 1 tiedCollection
    = Ok {| items := [MyListService.mapToListItemData (item 2 "alice" "m2" 1704276000000)];
            pagination := OffsetPage (OffsetPagination.mk 2 1 2 totalPages false true) |}.
Proof.
  destruct (offset_page "alice" 2 1 tiedCollection ltac:(lia) ltac:(lia))
    as (totalPages & H & _ & _ & Hceil & _).
  exists totalPages. rewrite H. simpl in Hceil.
  assert (totalPages = 2) as -> by lia. reflexivity.
Defined.

(** C6 as stated fails: two items of one user with the same [added_at]
    come back in the order of the collection, the canonical order puts
    the greater id first. *)
Lemma offset_order_not_canonical :
  exists res,
    MyListService.getListWithOffsetPagination "alice" 1 10 tiedCollection = Ok res
    /\ items res
       = List.map MyListService.mapToListItemData
           [item 1 "alice" "m1" 1704276000000; item 2 "alice" "m2" 1704276000000]
    /\ List.map MyListService.mapToListItemData (take 10 (canonical "alice" tiedCollection))
       = List.map MyListService.mapToListItemData
           [item 2 "alice" "m2" 1704276000000; item 1 "alice" "m1" 1704276000000]
    /\ items res
       <> List.map MyListService.mapToListItemData (take 10 (canonical "alice" tiedCollection)).
Proof.
  eexists. split; [reflexivity|]. split; [reflexivity|]. split; [reflexivity|].
  vm_compute. discriminate.
Qed.

(** ** Numerals of fixed width *)

Lemma char_digit_digit_char (base d : Z) :
  0 <= d < base -> base <= 16 -> JS.char_digit base (JS.digit_char d) = Some d.
Proof.
  intros Hd Hb.
  assert (d = 0 \/ d = 1 \/ d = 2 \/ d = 3 \/ d = 4 \/ d = 5 \/ d = 6 \/ d = 7
          \/ d = 8 \/ d = 9 \/ d = 10 \/ d = 11 \/ d = 12 \/ d = 13 \/ d = 14 \/ d = 15)
    as Hcases by lia.
  unfold JS.char_digit.
  repeat (destruct Hcases as [->|Hcases]); try subst d;
    match goal with
    | |- context [JS.hex_value (JS.digit_char ?k)] =>
        change (JS.hex_value (JS.digit_char k)) with (Some k); cbv beta iota;
        destruct (Z.ltb_spec k base); [reflexivity | lia]
    end.
Qed.

Lemma digit_char_plain (d : Z) :
  0 <= d < 16 ->
  let c := JS.digit_char d in
  Ascii.eqb c JSON.dquote = false /\ Ascii.eqb c JSON.backslash = false
  /\ (JS.byte c <? 32) = false /\ Ascii.eqb c "+" = false /\ Ascii.eqb c "-" = false.
Proof.
  intros Hd.
  assert (d = 0 \/ d = 1 \/ d = 2 \/ d = 3 \/ d = 4 \/ d = 5 \/ d = 6 \/ d = 7
          \/ d = 8 \/ d = 9 \/ d = 10 \/ d = 11 \/ d = 12 \/ d = 13 \/ d = 14 \/ d = 15)
    as Hcases by lia.
  repeat (destruct Hcases as [->|Hcases]); try subst d; vm_compute; done.
Qed.

Lemma digit_range (base n : Z) (w : nat) :
  1 < base -> 0 <= (n / base ^ Z.of_nat w) mod base < base.
Proof. intros Hb. apply Z.mod_pos_bound. lia. Qed.

(** Reading back the [w] digits of [n]. *)
Lemma read_fixed_digits (base : Z) (w : nat) (n acc : Z) (rest : string) :
  1 < base <= 16 -> 0 <= n ->
  JS.read_digits base w acc (JS.fixed_digits base w n +:+ rest)
  = Some (acc * base ^ Z.of_nat w + n mod base ^ Z.of_nat w, rest).
Proof.
  intros Hb Hn. revert acc. induction w as [|w IH]; intros acc.
  - simpl. rewrite sapp_nil_l, Z.mod_1_r. do 2 f_equal. lia.
  - cbn [JS.fixed_digits JS.read_digits]. rewrite sapp_cons.
    rewrite char_digit_digit_char by (try apply digit_range; lia).
    rewrite IH. do 2 f_equal.
    rewrite Nat2Z.inj_succ, Z.pow_succ_r by lia.
    rewrite (Z.mul_comm base), Z.rem_mul_r by lia. lia.
Qed.

Lemma read_fixed_digits_small (base : Z) (w : nat) (n : Z) (rest : string) :
  1 < base <= 16 -> 0 <= n < base ^ Z.of_nat w ->
  JS.read_digits base w 0 (JS.fixed_digits base w n +:+ rest) = Some (n, rest).
Proof.
  intros Hb Hn. rewrite read_fixed_digits by lia.
  by rewrite Z.mod_small by lia.
Qed.

Lemma fixed_digits_plain (base : Z) (w : nat) (n : Z) :
  1 < base <= 16 -> JSON.plain (JS.fixed_digits base w n) = true.
Proof.
  intros Hb. induction w as [|w IH]; [done|]. cbn [JS.fixed_digits JSON.plain].
  destruct (digit_char_plain ((n / base ^ Z.of_nat w) mod base)) as (-> & -> & -> & _).
  { pose proof (digit_range base n w). lia. }
  by rewrite IH.
Qed.

(** The text of an ObjectId casts back to it. *)
Lemma ObjectId_roundtrip (id : Z) :
  0 <= id < 2 ^ 96 -> Mongo.ObjectId_fromHex (Mongo.ObjectId_toString id) = Some id.
Proof.
  intros Hid. unfold Mongo.ObjectId_fromHex, Mongo.ObjectId_toString.
  rewrite <- (sapp_nil_r (JS.fixed_digits 16 24 id)).
  rewrite read_fixed_digits_small; [done | lia |].
  replace (16 ^ Z.of_nat 24) with (2 ^ 96) by reflexivity. lia.
Qed.

(** ** Dates *)

Lemma all_from_spec (f : Z -> bool) (n : nat) (i j : Z) :
  all_from f n i = true -> i <= j < i + Z.of_nat n -> f j = true.
Proof.
  revert i. induction n as [|k IH]; intros i; simpl; [lia|].
  intros [Hi Hrest]%andb_prop Hj.
  destruct (decide (j = i)) as [->|Hne]; [done|]. apply (IH (i + 1)); [done | lia].
Qed.

Lemma era_day_table : all_from era_day_check (Z.to_nat 146097) 0 = true.
Proof. vm_cast_no_check (eq_refl true). Qed.

Lemma era_day_ok (doe : Z) :
  0 <= doe < 146097 ->
  exists yoe m d,
    Date.civil_of_era_day doe = (yoe, m, d)
    /\ 0 <= yoe < 400 /\ 1 <= m <= 12 /\ 1 <= d <= 31
    /\ Date.era_day_of_civil yoe m d = doe.
Proof.
  intros Hdoe. pose proof (all_from_spec _ _ 0 doe era_day_table ltac:(lia)) as H.
  unfold era_day_check in H. destruct (Date.civil_of_era_day doe) as [[yoe m] d].
  exists yoe, m, d. split; [done|]. lia.
Qed.

(** The day number of the civil date of a day number. *)
Lemma civil_roundtrip (z : Z) :
  exists y m d,
    Date.civil_from_days z = (y, m, d)
    /\ 1 <= m <= 12 /\ 1 <= d <= 31
    /\ (z + 719468) / 146097 * 400 <= y <= (z + 719468) / 146097 * 400 + 400
    /\ Date.days_from_civil y m d = z.
Proof.
  unfold Date.civil_from_days, Date.days_from_civil. cbv zeta.
  destruct (era_day_ok ((z + 719468) mod 146097)) as (yoe & m & d & -> & Hy & Hm & Hd & Hinv).
  { apply Z.mod_pos_bound. lia. }
  eexists _, m, d. split; [done|]. split; [done|]. split; [done|]. split; [case_match; lia|].
  set (era := (z + 719468) / 146097) in *.
  assert ((if m <=? 2 then yoe + era * 400 + (if m <=? 2 then 1 else 0) - 1
           else yoe + era * 400 + (if m <=? 2 then 1 else 0)) = yoe + era * 400) as ->.
  { destruct (m <=? 2); lia. }
  rewrite Z.div_add, Z.mod_add by lia.
  rewrite Z.div_small, Z.mod_small by lia. rewrite Hinv.
  pose proof (Z.div_mod (z + 719468) 146097 ltac:(lia)). fold era in H. lia.
Qed.

Lemma read_year_roundtrip (y : Z) (rest : string) :
  -999999 <= y <= 999999 ->
  Date.read_year (Date.year_string y +:+ rest) = Some (y, rest).
Proof.
  intros Hy. unfold Date.year_string.
  destruct ((0 <=? y) && (y <=? 9999)) eqn:Hsmall.
  - apply andb_prop in Hsmall as [H0%Z.leb_le H9%Z.leb_le].
    pose proof (read_fixed_digits_small 10 4 y rest ltac:(lia) ltac:(lia)) as Hread.
    revert Hread. cbn [JS.fixed_digits]. rewrite sapp_cons. intros Hread.
    unfold Date.read_year.
    destruct (digit_char_plain ((y / 10 ^ Z.of_nat 3) mod 10)) as (_ & _ & _ & -> & ->).
    { pose proof (digit_range 10 y 3). lia. }
    exact Hread.
  - rewrite sapp_cons. unfold Date.read_year.
    destruct (Z.ltb_spec y 0).
    + change (Ascii.eqb "-" "+") with false. change (Ascii.eqb "-" "-") with true.
      cbv iota. rewrite read_fixed_digits_small by lia. simpl. do 2 f_equal. lia.
    + change (Ascii.eqb "+" "+") with true. cbv iota.
      rewrite read_fixed_digits_small by lia. do 2 f_equal. lia.
Qed.

Lemma expect_cons (c : ascii) (s : string) : JS.expect c (String c s) = Some s.
Proof. unfold JS.expect. by rewrite Ascii.eqb_refl. Qed.

Lemma valid_range (t : Z) :
  Date.valid t = true <-> - Date.maxTime <= t <= Date.maxTime.
Proof. unfold Date.valid. rewrite andb_true_iff, !Z.leb_le. done. Qed.

Lemma time_fields (r : Z) :
  r / 3600000 * 3600000 + (r / 60000) mod 60 * 60000 + (r / 1000) mod 60 * 1000
  + r mod 1000 = r.
Proof.
  replace (r / 3600000) with (r / 1000 / 60 / 60) by (rewrite !Z.div_div by lia; done).
  replace (r / 60000) with (r / 1000 / 60) by (rewrite !Z.div_div by lia; done).
  pose proof (Z.div_mod r 1000 ltac:(lia)).
  pose proof (Z.div_mod (r / 1000) 60 ltac:(lia)).
  pose proof (Z.div_mod (r / 1000 / 60) 60 ltac:(lia)).
  lia.
Qed.

(** The fields of the ISO form of a valid date spell its time value. *)
Lemma read_fields_iso (t : Z) :
  Date.valid t = true -> Date.read_fields (Date.iso_string t) = Some t.
Proof.
  intros Ht%valid_range. unfold Date.maxTime in Ht. unfold Date.iso_string.
  destruct (civil_roundtrip (t / Date.msPerDay)) as (y & m & d & -> & Hm & Hd & Hy & Hinv).
  unfold Date.msPerDay in *.
  set (r := t mod 86400000) in *.
  assert (0 <= r < 86400000) as Hr by (apply Z.mod_pos_bound; lia).
  assert (-999999 <= y <= 999999) as Hy'.
  { clear Hinv. Z.to_euclidean_division_equations. lia. }
  unfold Date.read_fields.
  rewrite read_year_roundtrip by done. cbn [mbind option_bind].
  rewrite sapp_cons, sapp_nil_l, expect_cons. cbn [mbind option_bind].
  rewrite read_fixed_digits_small by lia. cbn [mbind option_bind].
  rewrite sapp_cons, sapp_nil_l, expect_cons. cbn [mbind option_bind].
  rewrite read_fixed_digits_small by lia. cbn [mbind option_bind].
  rewrite sapp_cons, sapp_nil_l, expect_cons. cbn [mbind option_bind].
  rewrite read_fixed_digits_small by (try lia; Z.to_euclidean_division_equations; lia).
  cbn [mbind option_bind].
  rewrite sapp_cons, sapp_nil_l, expect_cons. cbn [mbind option_bind].
  rewrite read_fixed_digits_small by (try lia; Z.to_euclidean_division_equations; lia).
  cbn [mbind option_bind].
  rewrite sapp_cons, sapp_nil_l, expect_cons. cbn [mbind option_bind].
  rewrite read_fixed_digits_small by (try lia; Z.to_euclidean_division_equations; lia).
  cbn [mbind option_bind].
  rewrite sapp_cons, sapp_nil_l, expect_cons. cbn [mbind option_bind].
  rewrite read_fixed_digits_small by (try lia; Z.to_euclidean_division_equations; lia).
  cbn [mbind option_bind].
  rewrite expect_cons. cbn [mbind option_bind].
  f_equal. rewrite Hinv. pose proof (time_fields r).
  pose proof (Z.div_mod t 86400000 ltac:(lia)). fold r in H0.
  unfold Date.msPerDay. lia.
Qed.

Lemma parse_iso_roundtrip (t : Z) :
  Date.valid t = true -> Date.parse_iso (Date.iso_string t) = Some t.
Proof.
  intros Ht. unfold Date.parse_iso. rewrite read_fields_iso, Ht by done.
  by rewrite bool_decide_eq_true_2.
Qed.

(** ** Base64 *)

Lemma byte_range (c : ascii) : 0 <= JS.byte c < 256.
Proof. unfold JS.byte. pose proof (N_ascii_bounded c). lia. Qed.

Lemma char_byte (c : ascii) : JS.char (JS.byte c) = c.
Proof. unfold JS.char, JS.byte. rewrite N2Z.id. apply ascii_N_embedding. Qed.

Lemma sextet_table : all_from sextet_check 64 0 = true.
Proof. vm_compute. reflexivity. Qed.

Lemma sextets_cons (v : Z) (s : string) :
  0 <= v < 64 ->
  Buffer.sextets (String (Buffer.sextet_char v) s) = v :: Buffer.sextets s.
Proof.
  intros Hv. pose proof (all_from_spec _ _ 0 v sextet_table ltac:(lia)) as H.
  unfold sextet_check in H. apply andb_prop in H as [H1%negb_true_iff H2].
  cbn [Buffer.sextets]. rewrite H1.
  destruct (Buffer.unbase64 (Buffer.sextet_char v)) as [v'|]; [|done].
  apply Z.eqb_eq in H2. by subst v'.
Qed.

(** Decoding what [toString_base64] wrote gives the bytes back. *)
Lemma base64_roundtrip (s : string) :
  Buffer.from_base64 (Buffer.toString_base64 s) = s.
Proof.
  unfold Buffer.from_base64.
  assert (forall n s, (String.length s <= n)%nat ->
            Buffer.bytes_of_sextets (Buffer.sextets (Buffer.toString_base64 s)) = s) as H;
    [|by apply (H (String.length s))].
  clear s. induction n as [|n IH]; intros s Hlen.
  - destruct s; [done | simpl in Hlen; lia].
  - destruct s as [|a [|b [|c rest]]]; [done|..].
    + pose proof (byte_range a).
      cbn [Buffer.toString_base64]. cbv zeta.
      rewrite !sextets_cons by (Z.to_euclidean_division_equations; lia).
      cbn [Buffer.sextets Buffer.bytes_of_sextets]. change (Ascii.eqb "=" "=") with true.
      cbv iota. cbn [Buffer.bytes_of_sextets]. f_equal.
      rewrite <- (char_byte a) at 3. f_equal. Z.to_euclidean_division_equations; lia.
    + pose proof (byte_range a). pose proof (byte_range b).
      cbn [Buffer.toString_base64]. cbv zeta.
      rewrite !sextets_cons by (Z.to_euclidean_division_equations; lia).
      cbn [Buffer.sextets Buffer.bytes_of_sextets]. change (Ascii.eqb "=" "=") with true.
      cbv iota. cbn [Buffer.bytes_of_sextets]. f_equal; [|f_equal].
      * rewrite <- (char_byte a) at 3. f_equal. Z.to_euclidean_division_equations; lia.
      * rewrite <- (char_byte b) at 3. f_equal. Z.to_euclidean_division_equations; lia.
    + pose proof (byte_range a). pose proof (byte_range b). pose proof (byte_range c).
      cbn [Buffer.toString_base64]. cbv zeta.
      rewrite !sextets_cons by (Z.to_euclidean_division_equations; lia).
      cbn [Buffer.bytes_of_sextets]. rewrite IH by (simpl in Hlen; lia).
      f_equal; [|f_equal; [|f_equal]].
      * rewrite <- (char_byte a) at 3. f_equal. Z.to_euclidean_division_equations; lia.
      * rewrite <- (char_byte b) at 3. f_equal. Z.to_euclidean_division_equations; lia.
      * rewrite <- (char_byte c) at 3. f_equal. Z.to_euclidean_division_equations; lia.
Qed.

(** ** JSON *)

Lemma plain_cons (c : ascii) (s : string) :
  JSON.plain (String c s) = true ->
  Ascii.eqb c JSON.dquote = false /\ Ascii.eqb c JSON.backslash = false
  /\ (JS.byte c <? 32) = false /\ JSON.plain s = true.
Proof.
  cbn [JSON.plain]. rewrite !andb_true_iff, !negb_true_iff. tauto.
Qed.

Lemma plain_app (s t : string) :
  JSON.plain (s +:+ t) = JSON.plain s && JSON.plain t.
Proof.
  induction s as [|c s IH]; [done|]. rewrite sapp_cons. cbn [JSON.plain].
  by rewrite IH, !andb_assoc.
Qed.

Lemma not_control (c x : ascii) :
  (JS.byte c <? 32) = false -> (JS.byte x <? 32) = true -> Ascii.eqb c x = false.
Proof.
  intros Hc Hx. destruct (Ascii.eqb_spec c x) as [->|]; [congruence | done].
Qed.

(** A plain string is written as it is. *)
Lemma escape_plain (s : string) : JSON.plain s = true -> JSON.escape_string s = s.
Proof.
  induction s as [|c s IH]; [done|]. intros (Hq & Hb & Hc & Hs)%plain_cons.
  cbn [JSON.escape_string]. rewrite (IH Hs). unfold JSON.escape.
  rewrite Hq, Hb, Hc, !(not_control c) by done. done.
Qed.

(** A plain string is read up to the quote that closes it. *)
Lemma read_string_plain (s rest : string) :
  JSON.plain s = true ->
  JSON.read_string (s +:+ String JSON.dquote rest) = Some (s, rest).
Proof.
  induction s as [|c s IH].
  - intros _. rewrite sapp_nil_l. cbn [JSON.read_string].
    by rewrite Ascii.eqb_refl.
  - intros (Hq & Hb & Hc & Hs)%plain_cons. rewrite sapp_cons.
    cbn [JSON.read_string]. rewrite Hq, Hb, Hc, (IH Hs). done.
Qed.

Lemma stringify_string_plain (s : string) :
  JSON.plain s = true ->
  JSON.stringify_string s = String JSON.dquote (s +:+ String JSON.dquote EmptyString).
Proof. intros H. unfold JSON.stringify_string. by rewrite escape_plain. Qed.

(** The text [JSON.stringify] writes for the two strings of a cursor. *)
Lemma stringify_cursor (a i : string) :
  JSON.plain a = true -> JSON.plain i = true ->
  JSON.stringify (JObj [("added_at", JStr a); ("id", JStr i)])
  = String "{" (String JSON.dquote ("added_at" +:+ String JSON.dquote (String ":"
      (String JSON.dquote (a +:+ String JSON.dquote (String ","
         (String JSON.dquote ("id" +:+ String JSON.dquote (String ":"
            (String JSON.dquote (i +:+ String JSON.dquote "}"))))))))))).
Proof.
  intros Ha Hi. cbn [JSON.stringify].
  rewrite !stringify_string_plain by done.
  rewrite !sapp_cons, !sapp_nil_l, ?sapp_assoc, !sapp_cons, !sapp_nil_l.
  repeat (rewrite ?sapp_assoc, ?sapp_cons, ?sapp_nil_l). done.
Qed.

Lemma skip_ws_cons (c : ascii) (s : string) :
  JSON.is_ws c = false -> JSON.skip_ws (String c s) = String c s.
Proof. intros H. cbn [JSON.skip_ws]. by rewrite H. Qed.

Lemma expect_ne (c c' : ascii) (s : string) :
  Ascii.eqb c c' = false -> JS.expect c (String c' s) = None.
Proof. intros H. unfold JS.expect. by rewrite H. Qed.

Lemma parse_value_string (fuel : nat) (s rest : string) :
  JSON.plain s = true ->
  JSON.parse_value (S fuel) (String JSON.dquote (s +:+ String JSON.dquote rest))
  = Some (JStr s, rest).
Proof.
  intros Hs. cbn [JSON.parse_value]. rewrite skip_ws_cons by done.
  change (Ascii.eqb JSON.dquote "{") with false.
  change (Ascii.eqb JSON.dquote "[") with false.
  rewrite Ascii.eqb_refl. cbv iota.
  by rewrite read_string_plain.
Qed.

(** [JSON.parse] reads the text of a cursor back. *)
Lemma parse_cursor (a i : string) :
  JSON.plain a = true -> JSON.plain i = true ->
  JSON.parse (JSON.stringify (JObj [("added_at", JStr a); ("id", JStr i)]))
  = Ok (JObj [("added_at", JStr a); ("id", JStr i)]).
Proof.
  intros Ha Hi. rewrite stringify_cursor by done. unfold JSON.parse.
  match goal with |- context [JSON.parse_value (S (String.length ?t)) ?t] =>
    assert (exists n, String.length t = S (S (S n))) as [n ->]
  end.
  { cbn [String.length]. eauto. }
  cbn [JSON.parse_value]. rewrite skip_ws_cons by done.
  change (Ascii.eqb "{" "{") with true. cbv iota.
  rewrite skip_ws_cons by done. rewrite expect_ne by done.
  cbn [JSON.parse_members]. rewrite skip_ws_cons by done.
  rewrite expect_cons. cbn [mbind option_bind].
  rewrite read_string_plain by done. cbn [mbind option_bind].
  rewrite skip_ws_cons by done. rewrite expect_cons. cbn [mbind option_bind].
  rewrite parse_value_string by done. cbn [mbind option_bind].
  rewrite skip_ws_cons by done. rewrite expect_cons.
  cbn [JSON.parse_members]. rewrite skip_ws_cons by done.
  rewrite expect_cons. cbn [mbind option_bind].
  rewrite read_string_plain by done. cbn [mbind option_bind].
  rewrite skip_ws_cons by done. rewrite expect_cons. cbn [mbind option_bind].
  rewrite parse_value_string by done. cbn [mbind option_bind].
  rewrite skip_ws_cons by done. rewrite expect_ne by done. rewrite expect_cons.
  cbn [mbind option_bind]. done.
Qed.

(** ** C7: the cursor codec *)

Lemma year_string_cons (y : Z) : exists c s, Date.year_string y = String c s.
Proof. unfold Date.year_string. case_match; cbn [JS.fixed_digits]; eauto. Qed.

Lemma year_string_plain (y : Z) : JSON.plain (Date.year_string y) = true.
Proof.
  unfold Date.year_string. case_match; [by apply fixed_digits_plain|].
  cbn [JSON.plain]. rewrite fixed_digits_plain by lia. by destruct (y <? 0).
Qed.

Lemma iso_string_plain (t : Z) : JSON.plain (Date.iso_string t) = true.
Proof.
  unfold Date.iso_string. destruct (Date.civil_from_days _) as [[y m] d].
  rewrite !plain_app, year_string_plain, !fixed_digits_plain by lia. done.
Qed.

Lemma iso_string_truthy (t : Z) : JS.string_truthy (Date.iso_string t) = true.
Proof.
  unfold Date.iso_string. destruct (Date.civil_from_days _) as [[y m] d].
  destruct (year_string_cons y) as (c & s & ->). by rewrite sapp_cons.
Qed.

Lemma ObjectId_toString_plain (id : Z) : JSON.plain (Mongo.ObjectId_toString id) = true.
Proof. by apply fixed_digits_plain. Qed.

Lemma ObjectId_toString_truthy (id : Z) :
  JS.string_truthy (Mongo.ObjectId_toString id) = true.
Proof. done. Qed.

Section Codec.
Context (E : Engine).

Lemma encodeCursor_valid (lastItem : MyListItem.t) :
  Date.valid (MyListItem.added_at lastItem) = true ->
  MyListService.encodeCursor lastItem
  = Ok (Buffer.toString_base64 (JSON.stringify (cursorObject lastItem))).
Proof.
  intros Hv. unfold MyListService.encodeCursor, Date.toISOString. by rewrite Hv.
Qed.

Lemma Date_new_iso (t : Z) :
  Date.valid t = true -> MyListService.Date_new E (JStr (Date.iso_string t)) = Some t.
Proof. intros Ht. unfold MyListService.Date_new. by rewrite parse_iso_roundtrip. Qed.

(** Decoding the cursor of a document gives the structure and the date
    it was made from. *)
Lemma decode_encode (lastItem : MyListItem.t) (cursor : string) :
  Date.valid (MyListItem.added_at lastItem) = true ->
  MyListService.encodeCursor lastItem = Ok cursor ->
  MyListService.decodeCursor E cursor
  = Ok (cursorObject lastItem, MyListItem.added_at lastItem).
Proof.
  intros Hv. rewrite encodeCursor_valid by done. intros Heq.
  assert (cursor = Buffer.toString_base64 (JSON.stringify (cursorObject lastItem)))
    as -> by congruence.
  clear Heq. unfold MyListService.decodeCursor. rewrite base64_roundtrip.
  unfold cursorObject.
  rewrite parse_cursor by (apply iso_string_plain || apply ObjectId_toString_plain).
  cbn [bind JSON.get JSON.lookup]. rewrite !bool_decide_eq_false_2 by done.
  rewrite bool_decide_eq_true_2 by done.
  cbn [MyListService.truthy]. rewrite iso_string_truthy.
  by rewrite Date_new_iso.
Qed.

Lemma buildQuery_encode (userId : string) (lastItem : MyListItem.t) :
  MyListService.buildQuery E userId
    (Some (cursorObject lastItem, MyListItem.added_at lastItem))
  = CursorQuery.mk userId None
      (Some (MyListItem.added_at lastItem,
             JStr (Mongo.ObjectId_toString (MyListItem._id lastItem)))).
Proof.
  unfold MyListService.buildQuery, cursorObject.
  cbn [JSON.get JSON.lookup]. rewrite bool_decide_eq_true_2 by done. done.
Qed.

Lemma castId_toString (id : Z) :
  0 <= id < 2 ^ 96 -> Mongo.castId E (JStr (Mongo.ObjectId_toString id)) = Ok id.
Proof. intros Hid. unfold Mongo.castId. by rewrite ObjectId_roundtrip. Qed.

(** A cursor is a non-empty string and never the word first. *)
Lemma toString_base64_cons (c : ascii) (s : string) :
  exists rest,
    Buffer.toString_base64 (String c s)
    = String (Buffer.sextet_char (JS.byte c / 4)) rest.
Proof. destruct s as [|b [|d s]]; cbn [Buffer.toString_base64]; eauto. Qed.

Lemma stringify_obj_cons (ms : list (string * json)) :
  exists s, JSON.stringify (JObj ms) = String "{" s.
Proof. eexists. cbn [JSON.stringify]. by rewrite sapp_cons, sapp_nil_l. Qed.

Lemma encodeCursor_shape (lastItem : MyListItem.t) (cursor : string) :
  MyListService.encodeCursor lastItem = Ok cursor -> exists rest, cursor = String "e" rest.
Proof.
  unfold MyListService.encodeCursor, bind. destruct (Date.toISOString _); [|done].
  intros Heq.
  destruct (stringify_obj_cons [("added_at", JStr a);
    ("id", JStr (Mongo.ObjectId_toString (MyListItem._id lastItem)))]) as [s Hs].
  rewrite Hs in Heq. destruct (toString_base64_cons "{" s) as [rest Hrest].
  rewrite Hrest in Heq. exists rest. injection Heq as Heq. rewrite <- Heq. reflexivity.
Qed.

(** C7: the cursor made from a document with a twelve-byte id and a
    valid date decodes to the date and, through the cast of the query,
    to the id it was made from; and decoding fails with the error
    [BadRequestError] of the invalid cursor format (status 400) whenever
    [JSON.parse] throws on the decoded text, the structure has no truthy
    [added_at], or [added_at] is no valid date, in which case the list
    call fails with the same error. The base64 transform of Node skips
    what it cannot decode and never throws. *)
Theorem cursor_codec :
  (forall (userId : string) (lastItem : MyListItem.t),
      0 <= MyListItem._id lastItem < 2 ^ 96 ->
      Date.valid (MyListItem.added_at lastItem) = true ->
      exists cursor decoded bound,
        MyListService.encodeCursor lastItem = Ok cursor
        /\ MyListService.decodeCursor E cursor = Ok (decoded, MyListItem.added_at lastItem)
        /\ MyListService.buildQuery E userId (Some (decoded, MyListItem.added_at lastItem))
           = CursorQuery.mk userId None (Some (MyListItem.added_at lastItem, bound))
        /\ Mongo.castId E bound = Ok (MyListItem._id lastItem))
  /\ (forall (cursor : string),
        let failure := BadRequestError VALIDATION.INVALID_CURSOR_FORMAT in
        ((forall e, JSON.parse (Buffer.from_base64 cursor) = Throw e ->
                    MyListService.decodeCursor E cursor = Throw failure)
         /\ (forall v, JSON.parse (Buffer.from_base64 cursor) = Ok v ->
               JSON.get v "added_at" = None ->
               MyListService.decodeCursor E cursor = Throw failure)
         /\ (forall v a, JSON.parse (Buffer.from_base64 cursor) = Ok v ->
               JSON.get v "added_at" = Some a ->
               MyListService.truthy E a = false \/ MyListService.Date_new E a = None ->
               MyListService.decodeCursor E cursor = Throw failure))
        /\ (forall e userId limit c,
               JS.string_truthy cursor = true ->
               MyListService.decodeCursor E cursor = Throw e ->
               e = failure
               /\ MyListService.getListWithCursorPagination E userId (Some cursor) limit c
                  = Throw failure
               /\ (errorHandler failure).1 = 400)).
Proof.
  split.
  - intros userId lastItem Hid Hv.
    exists (Buffer.toString_base64 (JSON.stringify (cursorObject lastItem))),
      (cursorObject lastItem), (JStr (Mongo.ObjectId_toString (MyListItem._id lastItem))).
    split; [by apply encodeCursor_valid|]. split; [|split].
    + apply decode_encode; [done | by apply encodeCursor_valid].
    + apply buildQuery_encode.
    + by apply castId_toString.
  - intros cursor failure. split; [split; [|split]|].
    + intros e He. unfold MyListService.decodeCursor. by rewrite He.
    + intros v Hv Ha. unfold MyListService.decodeCursor. rewrite Hv. cbn [bind].
      by rewrite Ha.
    + intros v a Hv Ha Hbad. unfold MyListService.decodeCursor. rewrite Hv. cbn [bind].
      rewrite Ha. destruct Hbad as [->| Hd]; [done|]. rewrite Hd.
      by destruct (MyListService.truthy E a).
    + intros e userId limit c Hc He.
      assert (e = failure) as ->.
      { unfold MyListService.decodeCursor in He. by case_match; simplify_eq. }
      split; [done|]. split; [|done].
      unfold MyListService.getListWithCursorPagination, MyListService.decodeIfPresent.
      by rewrite Hc, He.
Qed.
End Codec.

Lemma cursor_codec_witness :
  exists cursor decoded bound,
    MyListService.encodeCursor (item 1 "alice" "m1" 1704276000000) = Ok cursor
    /\ MyListService.decodeCursor strictEngine cursor = Ok (decoded, 1704276000000)
    /\ MyListService.buildQuery strictEngine "alice" (Some (decoded, 1704276000000))
       = CursorQuery.mk "alice" None (Some (1704276000000, bound))
    /\ Mongo.castId strictEngine bound = Ok 1.
Proof.
  apply (proj1 (cursor_codec strictEngine) "alice" (item 1 "alice" "m1" 1704276000000));
    [simpl; lia | reflexivity].
Defined.

(** ** C5: a page of the cursor mode *)

Section CursorPage.
Context (E : Engine).

Lemma slice0_pos {A : Type} (n : Z) (l : list A) :
  0 <= n -> MyListService.slice0 n l = take (Z.to_nat n) l.
Proof. intros Hn. unfold MyListService.slice0. case_match eqn:H; [lia | done]. Qed.

(** The documents [find] selects are documents of the collection and of
    the user. *)
Lemma find_subset (query : CursorQuery.t) (c found : list MyListItem.t) :
  MyListService.find E query c = Ok found ->
  exists keep, found = List.filter keep c
               /\ forall d, keep d = true -> Model.is_user (CursorQuery.user_id query) d = true.
Proof.
  unfold MyListService.find, bind.
  destruct (match CursorQuery.or_before query with
            | Some (d, i) => _
            | None => _
            end) as [bound|e]; [|done].
  intros [= <-]. eexists. split; [done|]. intros d Hd.
  by apply andb_prop in Hd as [[Hu _]%andb_prop _].
Qed.

Lemma filter_valid (keep : MyListItem.t -> bool) (c : list MyListItem.t) :
  store_wf c -> store_wf (List.filter keep c).
Proof.
  intros [Hids Hkeys Hdocs]. induction c as [|d c IH]; [done|].
  rewrite fmap_cons in Hids. rewrite fmap_cons in Hkeys.
  apply NoDup_cons in Hids as [Hid Hids]. apply NoDup_cons in Hkeys as [Hkey Hkeys].
  apply Forall_cons in Hdocs as [Hd Hdocs]. specialize (IH Hids Hkeys Hdocs).
  simpl. destruct (keep d); [|done]. destruct IH as [IH1 IH2 IH3].
  split; rewrite ?fmap_cons.
  - apply NoDup_cons. split; [|done]. intros (x & Hx & Hin)%list_elem_of_fmap.
    apply Hid. rewrite Hx. apply list_elem_of_fmap_2.
    apply list_elem_of_In, filter_In in Hin as [Hin _]. by apply list_elem_of_In.
  - apply NoDup_cons. split; [|done]. intros (x & Hx & Hin)%list_elem_of_fmap.
    apply Hkey. rewrite Hx. apply list_elem_of_fmap_2.
    apply list_elem_of_In, filter_In in Hin as [Hin _]. by apply list_elem_of_In.
  - by constructor.
Qed.

Lemma store_wf_perm (c c' : list MyListItem.t) : c ≡ₚ c' -> store_wf c -> store_wf c'.
Proof.
  intros Hp [Hids Hkeys Hdocs]. split.
  - by rewrite <- Hp.
  - by rewrite <- Hp.
  - by rewrite <- Hp.
Qed.

Lemma store_wf_elem (c : list MyListItem.t) (d : MyListItem.t) :
  store_wf c -> d ∈ c ->
  0 <= MyListItem._id d < 2 ^ 96 /\ Date.valid (MyListItem.added_at d) = true.
Proof. intros [_ _ Hdocs] Hd. rewrite Forall_forall in Hdocs. by apply Hdocs. Qed.

Lemma last_take_elem {A : Type} (l : list A) (n : nat) (x : A) :
  last (take n l) = Some x -> x ∈ l.
Proof. intros H%last_Some_elem_of. by apply (subseteq_take n l). Qed.

Lemma last_is_Some {A : Type} (l : list A) : l <> [] -> is_Some (last l).
Proof.
  intros Hl. destruct (last l) eqn:H; [done|]. apply last_None in H. done.
Qed.

(** The page the cursor mode computes, in the terms of the
    specification. *)
Lemma cursor_page_result (userId : string) (cursor : option string) (limit : Z)
  (c found : list MyListItem.t) (decoded : option (json * Z)) :
  1 <= limit ->
  Forall (fun d => Date.valid (MyListItem.added_at d) = true) found ->
  MyListService.decodeIfPresent E cursor = Ok decoded ->
  MyListService.find E (MyListService.buildQuery E userId decoded) c = Ok found ->
  MyListService.getListWithCursorPagination E userId cursor limit c
  = Ok (cursorPageOf cursor limit (Mongo.sort MyListService.by_added_at_id found)).
Proof.
  intros Hlimit Hvalid Hdec Hfind.
  set (sorted := Mongo.sort MyListService.by_added_at_id found).
  unfold MyListService.getListWithCursorPagination.
  rewrite Hdec. cbn [bind]. rewrite Hfind. cbn [bind].
  rewrite limit_pos by lia. fold sorted.
  set (fetched := take (Z.to_nat (limit + 1)) sorted).
  assert (length fetched = Nat.min (Z.to_nat (limit + 1)) (length sorted)) as Hlen
    by apply length_take.
  assert (JS.string_or_null cursor = None ->
          match cursor with Some s => JS.string_truthy s | None => false end = false) as Hprev0.
  { destruct cursor as [[|x s]|]; done. }
  assert (is_Some (JS.string_or_null cursor) ->
          match cursor with Some s => JS.string_truthy s | None => false end = true) as Hprev1.
  { destruct cursor as [[|x s]|]; try done; by intros [? ?]. }
  assert (match cursor with Some s => JS.string_truthy s | None => false end
          = bool_decide (is_Some (JS.string_or_null cursor))) as Hprev.
  { destruct (JS.string_or_null cursor) eqn:Hc.
    - rewrite bool_decide_eq_true_2 by eauto. apply Hprev1. eauto.
    - rewrite bool_decide_eq_false_2 by (by intros [? ?]). by apply Hprev0. }
  unfold cursorPageOf, nextCursorOf.
  destruct (decide (Z.to_nat limit < length sorted)%nat) as [Hmore|Hlast].
  - rewrite (bool_decide_eq_true_2 _ Hmore).
    assert ((limit <? Z.of_nat (length fetched)) = true) as -> by (apply Z.ltb_lt; lia).
    rewrite slice0_pos by lia.
    assert (take (Z.to_nat limit) fetched = take (Z.to_nat limit) sorted) as ->.
    { unfold fetched. rewrite take_take. f_equal. lia. }
    assert ((0 <? length (take (Z.to_nat limit) sorted))%nat = true) as ->.
    { apply Nat.ltb_lt. rewrite length_take. lia. }
    cbn [andb].
    destruct (last (take (Z.to_nat limit) sorted)) as [lastItem|] eqn:Hlast.
    + assert (Date.valid (MyListItem.added_at lastItem) = true) as Hdate.
      { apply last_take_elem in Hlast. rewrite Forall_forall in Hvalid. apply Hvalid.
        by rewrite <- (sort_perm MyListService.by_added_at_id found). }
      rewrite (encodeCursor_valid lastItem Hdate). cbn [bind]. by rewrite Hprev.
    + cbn [bind]. by rewrite Hprev.
  - rewrite (bool_decide_eq_false_2 _ Hlast).
    assert ((limit <? Z.of_nat (length fetched)) = false) as -> by (apply Z.ltb_ge; lia).
    cbn [andb bind]. rewrite Hprev.
    assert (fetched = take (Z.to_nat limit) sorted) as ->; [|done].
    unfold fetched. rewrite !take_ge by lia. done.
Qed.

(** C5: with [limit >= 1], on a well-formed collection, once the cursor
    (if a non-empty one was supplied) has decoded and the query has been
    cast, the cursor mode fetches the first [limit + 1] of the selected
    documents in canonical order and returns the first [limit] of them;
    [hasNextPage] says whether the fetch holds [limit + 1] documents; if
    so [nextCursor] is the cursor of the last returned document, which
    decodes to its date and id, and otherwise it is null; [hasPrevPage]
    says whether a non-empty cursor was supplied, and [prevCursor] is
    that cursor, or null. *)
Theorem cursor_page (userId : string) (cursor : option string) (limit : Z)
  (c found : list MyListItem.t) (decoded : option (json * Z)) :
  1 <= limit -> store_wf c ->
  MyListService.decodeIfPresent E cursor = Ok decoded ->
  MyListService.find E (MyListService.buildQuery E userId decoded) c = Ok found ->
  let sorted := Mongo.sort MyListService.by_added_at_id found in
  let fetched := take (Z.to_nat (limit + 1)) sorted in
  let page := take (Z.to_nat limit) fetched in
  exists nextCursor,
    MyListService.getListWithCursorPagination E userId cursor limit c
    = Ok {| items := List.map MyListService.mapToListItemData page;
            pagination := CursorPage
              {| CursorPagination.limit := limit;
                 CursorPagination.nextCursor := nextCursor;
                 CursorPagination.prevCursor := JS.string_or_null cursor;
                 CursorPagination.hasNextPage :=
                   bool_decide (length fetched = Z.to_nat (limit + 1));
                 CursorPagination.hasPrevPage :=
                   bool_decide (is_Some (JS.string_or_null cursor)) |} |}
    /\ sorted ≡ₚ found /\ StronglySorted precedes sorted
    /\ (length page <= Z.to_nat limit)%nat
    /\ (length fetched = Z.to_nat (limit + 1) ->
        exists lastItem next,
          last page = Some lastItem /\ nextCursor = Some next
          /\ MyListService.encodeCursor lastItem = Ok next
          /\ MyListService.decodeCursor E next
             = Ok (cursorObject lastItem, MyListItem.added_at lastItem)
          /\ Mongo.castId E (JStr (Mongo.ObjectId_toString (MyListItem._id lastItem)))
             = Ok (MyListItem._id lastItem))
    /\ (length fetched <> Z.to_nat (limit + 1) -> nextCursor = None).
Proof.
  intros Hlimit Hwf Hdec Hfind sorted fetched page.
  destruct (find_subset _ _ _ Hfind) as (keep & Hfound & _).
  assert (store_wf sorted) as Hsorted.
  { apply (store_wf_perm found); [symmetry; apply sort_perm|].
    rewrite Hfound. by apply filter_valid. }
  assert (Forall (fun d => Date.valid (MyListItem.added_at d) = true) found) as Hvalid.
  { destruct (filter_valid keep c Hwf) as [_ _ Hd]. rewrite Hfound.
    eapply Forall_impl; [exact Hd | by intros d [_ ?]]. }
  assert (page = take (Z.to_nat limit) sorted) as Hpage.
  { unfold page, fetched. rewrite take_take. f_equal. lia. }
  assert (length fetched = Nat.min (Z.to_nat (limit + 1)) (length sorted)) as Hlen
    by apply length_take.
  assert (length fetched = Z.to_nat (limit + 1) <-> (Z.to_nat limit < length sorted)%nat)
    as Hfull by lia.
  exists (nextCursorOf limit sorted).
  split; [|split; [apply sort_perm|split; [|split; [|split]]]].
  - rewrite (cursor_page_result userId cursor limit c found decoded) by done.
    unfold cursorPageOf. fold sorted. rewrite <- Hpage.
    by rewrite (bool_decide_ext _ _ Hfull).
  - apply sort_by_added_at_id. rewrite Hfound. by destruct (filter_valid keep c Hwf).
  - rewrite Hpage, length_take. lia.
  - intros Hmore%Hfull. unfold nextCursorOf.
    rewrite (bool_decide_eq_true_2 _ Hmore), <- Hpage.
    destruct (last_is_Some page) as [lastItem Hlast].
    { intros Hnil. apply (f_equal length) in Hnil. rewrite Hpage, length_take in Hnil.
      simpl in Hnil. lia. }
    assert (lastItem ∈ sorted) as Hin.
    { rewrite Hpage in Hlast. by apply last_take_elem in Hlast. }
    destruct (store_wf_elem sorted lastItem Hsorted Hin) as [Hid Hdate].
    rewrite Hlast. exists lastItem. eexists. split; [done|]. split; [done|].
    split; [by apply encodeCursor_valid|]. split.
    + apply decode_encode; [done | by apply encodeCursor_valid].
    + by apply castId_toString.
  - intros Hshort. unfold nextCursorOf. rewrite bool_decide_eq_false_2; [done|].
    by rewrite <- Hfull.
Qed.
End CursorPage.

Lemma tiedCollection_wf : store_wf tiedCollection.
Proof.
  split.
  - apply (bool_decide_unpack _). by vm_compute.
  - apply (bool_decide_unpack _). by vm_compute.
  - repeat constructor; simpl; lia.
Qed.

Lemma cursor_page_witness :
  exists nextCursor,
    MyListService.getListWithCursorPagination strictEngine "alice" None 1 tiedCollection
    = Ok {| items := [MyListService.mapToListItemData (item 2 "alice" "m2" 1704276000000)];
            pagination := CursorPage (CursorPagination.mk 1 nextCursor None true false) |}.
Proof.
  destruct (cursor_page strictEngine "alice" None 1 tiedCollection tiedCollection None
              ltac:(lia) tiedCollection_wf eq_refl eq_refl) as (next & H & _).
  exists next. rewrite H. reflexivity.
Defined.


(** ** C1: the full forward walk *)

Lemma after_precedes (x d : MyListItem.t) : after x d = true <-> precedes x d.
Proof. unfold after, precedes. lia. Qed.

Lemma precedes_asym (x y : MyListItem.t) : precedes x y -> precedes y x -> False.
Proof. unfold precedes. lia. Qed.

Lemma sorted_unique (l1 l2 : list MyListItem.t) :
  StronglySorted precedes l1 -> StronglySorted precedes l2 -> l1 ≡ₚ l2 -> l1 = l2.
Proof.
  apply StronglySorted_unique_strong. intros x y _ _ Hxy Hyx.
  by destruct (precedes_asym x y).
Qed.

Lemma filter_perm {A : Type} (f : A -> bool) (l l' : list A) :
  l ≡ₚ l' -> List.filter f l ≡ₚ List.filter f l'.
Proof.
  induction 1 as [|x l l' _ IH|x y l|l l' l'' _ IH1 _ IH2]; simpl.
  - done.
  - destruct (f x); by rewrite IH.
  - destruct (f x), (f y); try done. apply Permutation_swap.
  - by rewrite IH1.
Qed.

Lemma filter_and {A : Type} (f g : A -> bool) (l : list A) :
  List.filter (fun a => f a && g a) l = List.filter g (List.filter f l).
Proof.
  induction l as [|a l IH]; [done|]. simpl. destruct (f a); simpl; [|done].
  destruct (g a); by rewrite IH.
Qed.

Lemma filter_none {A : Type} (f : A -> bool) (l : list A) :
  (forall a, a ∈ l -> f a = false) -> List.filter f l = [].
Proof.
  induction l as [|a l IH]; [done|]. intros H. simpl.
  rewrite (H a) by apply list_elem_of_here. apply IH.
  intros b Hb. by apply H, list_elem_of_further.
Qed.

Lemma filter_all {A : Type} (f : A -> bool) (l : list A) :
  (forall a, a ∈ l -> f a = true) -> List.filter f l = l.
Proof.
  induction l as [|a l IH]; [done|]. intros H. simpl.
  rewrite (H a) by apply list_elem_of_here. f_equal. apply IH.
  intros b Hb. by apply H, list_elem_of_further.
Qed.

(** In a canonically sorted list the documents after [x] are the ones
    that follow it. *)
Lemma filter_after (pre post : list MyListItem.t) (x : MyListItem.t) :
  StronglySorted precedes (pre ++ x :: post) ->
  List.filter (after x) (pre ++ x :: post) = post.
Proof.
  intros Hs. apply StronglySorted_app in Hs as (Hcross & _ & Hx).
  apply StronglySorted_cons in Hx as [Hx _]. rewrite Forall_forall in Hx.
  rewrite List.filter_app. simpl.
  rewrite (filter_none (after x) pre).
  - assert (after x x = false) as -> by (unfold after; lia).
    simpl. apply filter_all. intros d Hd. apply after_precedes. by apply Hx.
  - intros d Hd. apply not_true_is_false. intros Ha%after_precedes.
    apply (precedes_asym x d Ha). apply Hcross; [done | apply list_elem_of_here].
Qed.

Lemma canonical_wf (u : string) (c : list MyListItem.t) :
  store_wf c -> store_wf (canonical u c).
Proof.
  intros Hwf. apply (store_wf_perm (List.filter (Model.is_user u) c)).
  - symmetry. apply sort_perm.
  - by apply filter_valid.
Qed.

Lemma canonical_sorted (u : string) (c : list MyListItem.t) :
  store_wf c -> StronglySorted precedes (canonical u c).
Proof.
  intros Hwf. apply sort_by_added_at_id. by destruct (filter_valid (Model.is_user u) c Hwf).
Qed.

Lemma canonical_perm (u : string) (c : list MyListItem.t) :
  canonical u c ≡ₚ List.filter (Model.is_user u) c.
Proof. apply sort_perm. Qed.

(** The documents a cursor of [x] selects, sorted, are the documents
    that follow [x] in the canonical order of the user. *)
Lemma sort_after (u : string) (c pre post : list MyListItem.t) (x : MyListItem.t) :
  store_wf c -> canonical u c = pre ++ x :: post ->
  Mongo.sort MyListService.by_added_at_id
    (List.filter (fun d => Model.is_user u d && after x d) c) = post.
Proof.
  intros Hwf Hc. pose proof (canonical_sorted u c Hwf) as Hs. rewrite Hc in Hs.
  apply sorted_unique.
  - apply sort_by_added_at_id. by destruct (filter_valid (fun d => Model.is_user u d && after x d) c Hwf).
  - apply StronglySorted_app in Hs as (_ & _ & Hx).
    by apply StronglySorted_cons in Hx as [_ ?].
  - rewrite sort_perm, filter_and.
    rewrite <- (filter_perm (after x) _ _ (canonical_perm u c)), Hc.
    by rewrite filter_after.
Qed.

Section Walk.
Context (E : Engine).

Lemma find_all (u : string) (c : list MyListItem.t) :
  MyListService.find E (CursorQuery.mk u None None) c
  = Ok (List.filter (Model.is_user u) c).
Proof.
  unfold MyListService.find. cbn [CursorQuery.or_before CursorQuery.added_at_lt bind].
  f_equal. apply filter_ext. intros d. cbn [CursorQuery.user_id]. by rewrite !andb_true_r.
Qed.

Lemma find_after (u : string) (c : list MyListItem.t) (x : MyListItem.t) :
  0 <= MyListItem._id x < 2 ^ 96 ->
  MyListService.find E
    (CursorQuery.mk u None
       (Some (MyListItem.added_at x, JStr (Mongo.ObjectId_toString (MyListItem._id x))))) c
  = Ok (List.filter (fun d => Model.is_user u d && after x d) c).
Proof.
  intros Hid. unfold MyListService.find.
  cbn [CursorQuery.or_before CursorQuery.added_at_lt CursorQuery.user_id].
  rewrite castId_toString by done. cbn [bind]. f_equal. apply filter_ext.
  intros d. by rewrite andb_true_r.
Qed.

Lemma cursor_key_inj (u : string) (c1 c2 : option string) (l : Z) :
  CacheService.getCacheKey u Cursor None c1 l = CacheService.getCacheKey u Cursor None c2 l ->
  cursorPart c1 = cursorPart c2.
Proof.
  unfold CacheService.getCacheKey. rewrite !cursor_key_eq, !string_or_null_idem.
  intros H. apply (inj (String.app "mylist:")), (inj (String.app u)) in H.
  injection H as H. rewrite !sapp_nil_l in H. by apply sapp_inj_r, sapp_inj_r in H.
Qed.

Lemma walkCursor_part (c1 c2 : option string) :
  walkCursor c1 -> walkCursor c2 -> cursorPart c1 = cursorPart c2 -> c1 = c2.
Proof.
  intros [->|(x1 & s1 & [r1 ->]%encodeCursor_shape & ->)]
         [->|(x2 & s2 & [r2 ->]%encodeCursor_shape & ->)]; unfold cursorPart; simpl;
    congruence.
Qed.

(** A call of a walk on a coherent cache answers the page of the store
    and leaves the cache coherent. *)
Lemma getList_coherent (u : string) (limit : Z) (cur : option string) (st : State)
  (v : ListResult) :
  limit <> 0 -> walkCursor cur -> cache_coherent E u limit st ->
  MyListService.getListWithCursorPagination E u cur limit (myListItems st) = Ok v ->
  exists hit st',
    MyListService.getList E u Cursor None (Some limit) cur st
    = (Ok {| listResult := v; cacheHit := hit |}, st')
    /\ myListItems st' = myListItems st /\ cache_coherent E u limit st'.
Proof.
  intros Hlimit Hcur Hcoh Hstore. unfold MyListService.getList.
  assert (JS.number_or (Some limit) 10 = limit) as ->.
  { unfold JS.number_or. destruct (Z.eqb_spec limit 0); [done|done]. }
  cbv zeta.
  pose proof (CacheService_get_hit (CacheService.getCacheKey u Cursor None cur limit)
                (redis st)) as Hhit.
  pose proof (CacheService_get_db (CacheService.getCacheKey u Cursor None cur limit)
                (redis st)) as Hdb.
  destruct (CacheService.get _ (redis st)) as [[d h] r1]. simpl in Hhit, Hdb.
  assert (cache_coherent E u limit (MyListService.with_redis st r1)) as Hcoh1.
  { intros c ttl p Hc. simpl. rewrite Hdb. by apply Hcoh. }
  cbn [CacheService.hit CacheService.data].
  assert (Hmiss :
    exists st',
      match MyListService.readStore E u Cursor None limit cur (myListItems st) with
      | Throw e => (Throw e, MyListService.with_redis st r1)
      | Ok res =>
          (Ok {| listResult := res; cacheHit := false |},
           MyListService.with_redis st
             (CacheService.set (CacheService.getCacheKey u Cursor None cur limit) res
                CacheService.CACHE_TTL_SECONDS r1))
      end = (Ok {| listResult := v; cacheHit := false |}, st')
      /\ myListItems st' = myListItems st /\ cache_coherent E u limit st').
  { unfold MyListService.readStore. rewrite Hstore. eexists. split; [done|].
    split; [done|]. intros c ttl p Hc.
    unfold MyListService.with_redis. cbn [redis myListItems].
    destruct (CacheService_set_db (CacheService.getCacheKey u Cursor None cur limit) v
                CacheService.CACHE_TTL_SECONDS r1) as [-> | ->].
    - rewrite Hdb. by apply Hcoh.
    - destruct (decide (CacheService.getCacheKey u Cursor None cur limit
                        = CacheService.getCacheKey u Cursor None c limit)) as [Heq|Hne].
      + rewrite Heq, lookup_insert_eq. intros Hp.
        assert (p = v) as -> by congruence.
        apply cursor_key_inj in Heq. apply walkCursor_part in Heq; [|done|done].
        by subst c.
      + rewrite lookup_insert_ne by done. rewrite Hdb. by apply Hcoh. }
  destruct h, d as [d|]; try (destruct Hmiss as (st' & ? & ? & ?); by eauto).
  destruct (Hhit d eq_refl) as [ttl Httl].
  exists true, (MyListService.with_redis st r1). split; [|by split].
  by rewrite (Hcoh cur ttl d Hcur Httl) in Hstore; simplify_eq.
Qed.

Lemma positioned_walkCursor (cur : option string) (pre : list MyListItem.t) :
  positioned cur pre -> walkCursor cur.
Proof. intros [[_ ->]|(x & s & _ & Hs & ->)]; [by left | right; eauto]. Qed.

Lemma filter_valid_dates (f : MyListItem.t -> bool) (c : list MyListItem.t) :
  store_wf c ->
  Forall (fun d => Date.valid (MyListItem.added_at d) = true) (List.filter f c).
Proof.
  intros Hwf. destruct (filter_valid f c Hwf) as [_ _ Hdocs].
  eapply Forall_impl; [exact Hdocs|]. by intros d [_ ?].
Qed.

(** The page the store answers at a position of the walk: the head of
    what remains of the canonical order. *)
Lemma store_page (u : string) (limit : Z) (c pre rest : list MyListItem.t)
  (cur : option string) :
  1 <= limit -> store_wf c -> canonical u c = pre ++ rest -> positioned cur pre ->
  MyListService.getListWithCursorPagination E u cur limit c
  = Ok (cursorPageOf cur limit rest).
Proof.
  intros Hlimit Hwf Hc [[-> ->]|(x & s & Hlast & Hs & ->)].
  - rewrite (cursor_page_result E u None limit c (List.filter (Model.is_user u) c) None
               Hlimit (filter_valid_dates _ c Hwf) eq_refl (find_all u c)).
    simpl in Hc. by rewrite <- Hc.
  - apply last_Some in Hlast as [pre' ->]. rewrite <- List.app_assoc in Hc. simpl in Hc.
    assert (x ∈ c) as Hx.
    { assert (x ∈ canonical u c) as Hin by (rewrite Hc; set_solver).
      rewrite canonical_perm in Hin. apply list_elem_of_In, filter_In in Hin as [Hin _].
      by apply list_elem_of_In. }
    destruct (store_wf_elem c x Hwf Hx) as [Hid Hdate].
    assert (MyListService.decodeIfPresent E (Some s)
            = Ok (Some (cursorObject x, MyListItem.added_at x))) as Hdec.
    { unfold MyListService.decodeIfPresent.
      destruct (encodeCursor_shape x s Hs) as [r Hr]. rewrite Hr at 1.
      cbn [JS.string_truthy]. by rewrite (decode_encode E x s Hdate Hs). }
    rewrite (cursor_page_result E u (Some s) limit c
               (List.filter (fun d => Model.is_user u d && after x d) c) _
               Hlimit (filter_valid_dates _ c Hwf) Hdec).
    + by rewrite (sort_after u c pre' rest x Hwf Hc).
    + rewrite buildQuery_encode. by apply find_after.
Qed.

(** From any position the walk returns what remains of the canonical
    order. *)
Lemma walk_from (u : string) (limit : Z) (c : list MyListItem.t) :
  1 <= limit -> store_wf c ->
  forall (fuel : nat) (pre rest : list MyListItem.t) (cur : option string) (st : State),
    canonical u c = pre ++ rest -> positioned cur pre -> myListItems st = c ->
    cache_coherent E u limit st -> (length rest < fuel)%nat ->
    cursorWalk E fuel u limit cur st
    = Some (List.map MyListService.mapToListItemData rest).
Proof.
  intros Hlimit Hwf. induction fuel as [|fuel IH]; intros pre rest cur st Hc Hpos Hst Hcoh Hfuel;
    [lia|].
  pose proof (store_page u limit c pre rest cur Hlimit Hwf Hc Hpos) as Hpage.
  rewrite <- Hst in Hpage.
  destruct (getList_coherent u limit cur st _ ltac:(lia)
              (positioned_walkCursor cur pre Hpos) Hcoh Hpage)
    as (hit & st' & Hget & Hitems & Hcoh').
  cbn [cursorWalk]. rewrite Hget.
  cbn [listResult pagination cursorPageOf CursorPagination.hasNextPage
       CursorPagination.nextCursor items].
  case_bool_decide as Hmore.
  - unfold nextCursorOf. rewrite bool_decide_eq_true_2 by done.
    destruct (last_is_Some (take (Z.to_nat limit) rest)) as [lastItem Hlast].
    { intros Hnil%(f_equal length). rewrite length_take in Hnil. simpl in Hnil. lia. }
    rewrite Hlast.
    assert (lastItem ∈ canonical u c) as Hin.
    { rewrite Hc. apply elem_of_app. right. by apply (last_take_elem rest (Z.to_nat limit)). }
    destruct (store_wf_elem _ lastItem (canonical_wf u c Hwf) Hin) as [_ Hdate].
    rewrite (IH (pre ++ take (Z.to_nat limit) rest) (drop (Z.to_nat limit) rest)).
    + cbn. by rewrite <- List.map_app, take_drop.
    + by rewrite <- List.app_assoc, take_drop.
    + right. eexists lastItem, _. split; [|split; [by apply encodeCursor_valid|done]].
      rewrite last_app, Hlast. done.
    + congruence.
    + done.
    + rewrite length_drop. lia.
  - rewrite take_ge by lia. done.
Qed.

(** The same for the walk over the pages of the store. *)
Lemma store_walk_from (u : string) (limit : Z) (c : list MyListItem.t) :
  1 <= limit -> store_wf c ->
  forall (fuel : nat) (pre rest : list MyListItem.t) (cur : option string),
    canonical u c = pre ++ rest -> positioned cur pre -> (length rest < fuel)%nat ->
    storeWalk E fuel u limit cur c = Some (List.map MyListService.mapToListItemData rest).
Proof.
  intros Hlimit Hwf. induction fuel as [|fuel IH]; intros pre rest cur Hc Hpos Hfuel; [lia|].
  cbn [storeWalk]. rewrite (store_page u limit c pre rest cur Hlimit Hwf Hc Hpos).
  cbn [pagination cursorPageOf CursorPagination.hasNextPage CursorPagination.nextCursor items].
  case_bool_decide as Hmore.
  - unfold nextCursorOf. rewrite bool_decide_eq_true_2 by done.
    destruct (last_is_Some (take (Z.to_nat limit) rest)) as [lastItem Hlast].
    { intros Hnil%(f_equal length). rewrite length_take in Hnil. simpl in Hnil. lia. }
    rewrite Hlast.
    assert (lastItem ∈ canonical u c) as Hin.
    { rewrite Hc. apply elem_of_app. right. by apply (last_take_elem rest (Z.to_nat limit)). }
    destruct (store_wf_elem _ lastItem (canonical_wf u c Hwf) Hin) as [_ Hdate].
    rewrite (IH (pre ++ take (Z.to_nat limit) rest) (drop (Z.to_nat limit) rest)).
    + cbn. by rewrite <- List.map_app, take_drop.
    + by rewrite <- List.app_assoc, take_drop.
    + right. eexists lastItem, _. split; [|split; [by apply encodeCursor_valid|done]].
      rewrite last_app, Hlast. done.
    + rewrite length_drop. lia.
  - rewrite take_ge by lia. done.
Qed.
End Walk.

Lemma ObjectId_toString_inj (i j : Z) :
  0 <= i < 2 ^ 96 -> 0 <= j < 2 ^ 96 ->
  Mongo.ObjectId_toString i = Mongo.ObjectId_toString j -> i = j.
Proof.
  intros Hi Hj Heq. pose proof (ObjectId_roundtrip i Hi) as Hri.
  rewrite Heq, (ObjectId_roundtrip j Hj) in Hri. congruence.
Qed.

Lemma returned_ids_NoDup (c : list MyListItem.t) :
  store_wf c ->
  NoDup (ListItemData.id <$> List.map MyListService.mapToListItemData c).
Proof.
  intros Hwf. change (List.map MyListService.mapToListItemData c)
    with (MyListService.mapToListItemData <$> c).
  rewrite <- list_fmap_compose.
  change (ListItemData.id ∘ MyListService.mapToListItemData)
    with (Mongo.ObjectId_toString ∘ MyListItem._id).
  rewrite list_fmap_compose. apply NoDup_fmap_2_strong; [|by destruct Hwf].
  intros i j [x [-> Hx]]%list_elem_of_fmap [y [-> Hy]]%list_elem_of_fmap.
  apply ObjectId_toString_inj.
  - by destruct (store_wf_elem c x Hwf Hx).
  - by destruct (store_wf_elem c y Hwf Hy).
Qed.

(** C1, amended: on a store that keeps its indexes, for every limit of
    at least 1, the full forward walk in cursor mode from the absent
    cursor, each [nextCursor] fed into the next call until [hasNextPage]
    is false, ends within as many calls as the user has entries plus one
    and returns the entries of the user in canonical order ([added_at]
    descending, then [_id] descending): a strictly sorted rearrangement
    of the entries of the user in the store, each of them once and no
    other, also when entries share their [added_at]; the returned ids
    are pairwise distinct. This holds of the walk over the pages the
    store answers, and of the walk through [getList] whenever the cache
    agrees with the store on the pages of the walk (an empty or a
    freshly swept cache does). *)
Theorem cursor_walk_complete (E : Engine) (userId : string) (limit : Z) (st : State)
  (fuel : nat) :
  1 <= limit -> store_wf (myListItems st) ->
  (length (List.filter (Model.is_user userId) (myListItems st)) < fuel)%nat ->
  let entries := canonical userId (myListItems st) in
  storeWalk E fuel userId limit None (myListItems st)
  = Some (List.map MyListService.mapToListItemData entries)
  /\ (cache_coherent E userId limit st ->
      cursorWalk E fuel userId limit None st
      = Some (List.map MyListService.mapToListItemData entries))
  /\ entries ≡ₚ List.filter (Model.is_user userId) (myListItems st)
  /\ StronglySorted precedes entries
  /\ NoDup entries
  /\ NoDup (ListItemData.id <$> List.map MyListService.mapToListItemData entries).
Proof.
  intros Hlimit Hwf Hfuel entries.
  pose proof (canonical_wf userId _ Hwf) as Hwf'. fold entries in Hwf'.
  split; [|split; [|split; [|split; [|split]]]].
  - apply (store_walk_from E userId limit (myListItems st) Hlimit Hwf fuel [] entries None);
      try done.
    + by left.
    + unfold entries. by rewrite canonical_perm.
  - intros Hcoh.
    apply (walk_from E userId limit (myListItems st) Hlimit Hwf fuel [] entries None st);
      try done.
    + by left.
    + unfold entries. by rewrite canonical_perm.
  - apply canonical_perm.
  - by apply canonical_sorted.
  - destruct Hwf' as [Hids _ _]. by apply NoDup_fmap_1 in Hids.
  - by apply returned_ids_NoDup.
Qed.

Lemma cursor_walk_complete_witness :
  cursorWalk strictEngine 3 "alice" 1 None tiedState
  = Some (List.map MyListService.mapToListItemData
            [item 2 "alice" "m2" 1704276000000; item 1 "alice" "m1" 1704276000000]).
Proof.
  refine (proj1 (proj2 (cursor_walk_complete strictEngine "alice" 1 tiedState 3
                          ltac:(lia) tiedCollection_wf _)) _).
  - simpl. lia.
  - intros cursor ttl page _ H. simpl in H. by rewrite lookup_empty in H.
Defined.

(** C1 as stated fails on a state the service reaches: a read caches the
    empty first page of the user, the add that follows succeeds while
    the sweep of its invalidation meets a transport error, which is
    logged and dropped; the walk through [getList] is then served the
    cached page and ends with no entry, although the store holds one
    entry of the user, which the walk over the pages of the store
    returns. *)
Lemma stale_walk_after_add :
  let read := GetList "alice" Cursor None None None in
  let add := AddToList 7 0 1704276000000 "alice" movie1Id movie in
  let st2 := perform strictEngine add (perform strictEngine read faultyState) in
  reachable strictEngine st2
  /\ store_wf (myListItems st2)
  /\ List.map MyListItem._id (canonical "alice" (myListItems st2)) = [7]
  /\ cursorWalk strictEngine 2 "alice" 10 None st2 = Some []
  /\ List.map ListItemData.id <$> storeWalk strictEngine 2 "alice" 10 None (myListItems st2)
     = Some ["000000000000000000000007"]
  /\ ~ cache_coherent strictEngine "alice" 10 st2.
Proof.
  cbv zeta. split; [|split; [|split; [|split; [|split]]]].
  - apply reachable_step; [apply reachable_step; [apply reachable_init | done]|].
    repeat split; (lia || reflexivity).
  - apply reachable_wf with (E := strictEngine).
    apply reachable_step; [apply reachable_step; [apply reachable_init | done]|].
    repeat split; (lia || reflexivity).
  - reflexivity.
  - reflexivity.
  - reflexivity.
  - intros Hcoh.
    specialize (Hcoh None CacheService.CACHE_TTL_SECONDS
                  (cursorPageOf None 10 []) (or_introl eq_refl) eq_refl).
    discriminate Hcoh.
Qed.

(** ** C3: reading after a mutation *)

Lemma limit_subset {D : Type} (n : Z) (l : list D) : Mongo.limit n l ⊆ l.
Proof. unfold Mongo.limit. case_match; [done | apply subseteq_take]. Qed.

Lemma skip_subset {D : Type} (n : Z) (l l' : list D) : Mongo.skip n l = Ok l' -> l' ⊆ l.
Proof. unfold Mongo.skip. case_match; [done|]. intros [= <-]. apply subseteq_drop. Qed.

Lemma slice0_subset {A : Type} (n : Z) (l : list A) : MyListService.slice0 n l ⊆ l.
Proof. unfold MyListService.slice0. case_match; apply subseteq_take. Qed.

Lemma sort_subset {D : Type} (before : D -> D -> bool) (l : list D) :
  Mongo.sort before l ⊆ l.
Proof. intros x. by rewrite sort_perm. Qed.

Lemma filter_subset {A : Type} (f : A -> bool) (l : list A) (x : A) :
  x ∈ List.filter f l -> x ∈ l /\ f x = true.
Proof. rewrite !list_elem_of_In. apply filter_In. Qed.

Section ReadAfterWrite.
Context (E : Engine).

Lemma buildQuery_user (u : string) (decoded : option (json * Z)) :
  CursorQuery.user_id (MyListService.buildQuery E u decoded) = u.
Proof.
  unfold MyListService.buildQuery. destruct decoded as [[dc cd]|]; [|done].
  by repeat case_match.
Qed.

(** Every item of a page the store answers is a document of the user in
    the collection. *)
Lemma readStore_items (u : string) (type : PaginationType) (page : option Z) (limit : Z)
  (cursor : option string) (c : list MyListItem.t) (res : ListResult) (it : ListItemData.t) :
  MyListService.readStore E u type page limit cursor c = Ok res ->
  it ∈ items res ->
  exists d, d ∈ c /\ Model.is_user u d = true /\ it = MyListService.mapToListItemData d.
Proof.
  destruct type; simpl.
  - unfold MyListService.getListWithOffsetPagination.
    destruct (Mongo.skip _ _) as [skipped|e] eqn:Hskip; [|done]. simpl.
    intros [= <-]. simpl. intros (d & -> & Hd)%list_elem_of_fmap.
    apply limit_subset in Hd. apply (skip_subset _ _ _ Hskip), sort_subset in Hd.
    apply filter_subset in Hd as [? ?]. eauto.
  - unfold MyListService.getListWithCursorPagination.
    destruct (MyListService.decodeIfPresent E cursor) as [decoded|e]; [|done]. simpl.
    destruct (MyListService.find E _ c) as [found|e] eqn:Hfind; [|done]. simpl.
    apply find_subset in Hfind as (keep & -> & Hkeep). rewrite buildQuery_user in Hkeep.
    set (fetched := Mongo.limit (limit + 1) _).
    set (resultItems := if limit <? _ then _ else _).
    destruct (if _ && _ then _ else _) as [nextCursor|e]; [|done]. simpl.
    intros [= <-]. simpl. intros (d & -> & Hd)%list_elem_of_fmap.
    assert (d ∈ fetched) as Hf.
    { unfold resultItems in Hd. destruct (limit <? _); [by apply slice0_subset in Hd|done]. }
    apply limit_subset, sort_subset, filter_subset in Hf as [? ?]. eauto.
Qed.

(** Without a page under its key, [getList] answers from the store. *)
Lemma getList_miss (u : string) (type : PaginationType) (page limit : option Z)
  (cursor : option string) (st : State) :
  Redis.db (redis st) !! CacheService.getCacheKey u type page cursor (JS.number_or limit 10)
  = None ->
  (MyListService.getList E u type page limit cursor st).1
  = missResult (MyListService.readStore E u type page (JS.number_or limit 10) cursor
                  (myListItems st)).
Proof.
  intros Hnone.
  destruct (getList_hit_or_store E u type page limit cursor st)
    as [(d & ttl & _ & Hsome)|H]; [congruence | done].
Qed.

(** After a sweep that ended without an error the user has no page in
    the cache. *)
Lemma swept_namespace (u : string) (r : Redis.t ListResult) (type : PaginationType)
  (page : option Z) (cursor : option string) (limit : Z) :
  valid_userId u = true -> (CacheService.sweep u r).1 = Ok tt ->
  Redis.db (CacheService.invalidateUserCache u r)
    !! CacheService.getCacheKey u type page cursor limit = None.
Proof.
  intros Hu Hsweep. apply sweep_clears; [done|].
  apply user_pattern_namespace; [done|]. apply cache_key_namespace.
Qed.

(** What a state just swept for the user answers: every read comes from
    the store, and a walk returns the canonical order. *)
Lemma swept_reads (u : string) (st st' : State) :
  valid_userId u = true -> (CacheService.sweep u (redis st)).1 = Ok tt ->
  redis st' = CacheService.invalidateUserCache u (redis st) ->
  store_wf (myListItems st') ->
  (forall type page limit cursor,
     (MyListService.getList E u type page limit cursor st').1
     = missResult (MyListService.readStore E u type page (JS.number_or limit 10) cursor
                     (myListItems st')))
  /\ (forall limit fuel,
        1 <= limit -> (length (canonical u (myListItems st')) < fuel)%nat ->
        cursorWalk E fuel u limit None st'
        = Some (List.map MyListService.mapToListItemData (canonical u (myListItems st')))).
Proof.
  intros Hu Hsweep Hredis Hwf. split.
  - intros type page limit cursor. apply getList_miss. rewrite Hredis.
    by apply swept_namespace.
  - intros limit fuel Hlimit Hfuel.
    apply (walk_from E u limit (myListItems st') Hlimit Hwf fuel [] _ None st');
      try done.
    + by left.
    + intros cursor ttl page _. rewrite Hredis, swept_namespace by done. done.
Qed.

(** What a successful [addToList] has done. *)
Lemma addToList_Ok (newId now0 now : Z) (u k : string) (ct : ContentType)
  (st st' : State) (added : ListItemData.t) :
  MyListService.addToList E newId now0 now u k ct st = (Ok added, st') ->
  exists cd,
    let doc := MyListService.newItem newId now u k ct cd in
    added = MyListService.mapToListItemData doc
    /\ Model.create doc (myListItems st) = Ok (myListItems st')
    /\ myListItems st' = myListItems st ++ [doc]
    /\ redis st' = CacheService.invalidateUserCache u (redis st).
Proof.
  unfold MyListService.addToList.
  destruct (Model.findOne _ _ _); [done|].
  destruct (MyListService.fetchContent _ _ _ _ _) as [cd|e]; [|done].
  destruct (create_spec (MyListService.newItem newId now u k ct cd) (myListItems st))
    as [(Hc & _)|[Hc _]]; rewrite Hc; [|done].
  intros [= <- <-]. exists cd. simpl. by rewrite Hc.
Qed.

(** What a successful [removeFromList] has done. *)
Lemma removeFromList_Ok (u k : string) (st st' : State) :
  store_wf (myListItems st) ->
  MyListService.removeFromList u k st = (Ok tt, st') ->
  store_wf (myListItems st')
  /\ (forall d, d ∈ myListItems st' -> Model.is_entry u k d = false)
  /\ myListItems st' ⊆ myListItems st
  /\ redis st' = CacheService.invalidateUserCache u (redis st).
Proof.
  intros Hwf. unfold MyListService.removeFromList.
  destruct (deleteOne_spec u k (myListItems st))
    as [[-> _]|(l1 & d & l2 & Hc & -> & Hd & Hl1)]; [done|].
  simpl. intros [= <-]. simpl. rewrite Hc in Hwf |- *.
  split; [by apply store_wf_remove in Hwf|]. split; [|split; [|done]];
    [|intros y; rewrite !elem_of_app, elem_of_cons; tauto].
  intros x Hx. apply not_true_is_false. intros Hxk.
  apply is_entry_key in Hd, Hxk. destruct Hwf as [_ Hkeys _].
  rewrite fmap_app, fmap_cons in Hkeys.
  apply NoDup_app in Hkeys as (_ & Hcross & Hnd). apply NoDup_cons in Hnd as [Hnd _].
  apply elem_of_app in Hx as [Hx|Hx].
  - apply (Hcross (entry_key x)); [by apply list_elem_of_fmap_2|].
    rewrite Hxk, <- Hd. apply list_elem_of_here.
  - apply Hnd. rewrite Hd, <- Hxk. by apply list_elem_of_fmap_2.
Qed.
End ReadAfterWrite.

Lemma sorted_position (l : list MyListItem.t) (x : MyListItem.t) :
  StronglySorted precedes l -> x ∈ l ->
  exists l1 l2,
    l = l1 ++ x :: l2
    /\ (forall y, y ∈ l1 -> precedes y x) /\ (forall y, y ∈ l2 -> precedes x y).
Proof.
  intros Hs (l1 & l2 & ->)%list_elem_of_split. exists l1, l2. split; [done|].
  apply StronglySorted_app in Hs as (Hcross & _ & Hx).
  apply StronglySorted_cons in Hx as [Hx _]. rewrite Forall_forall in Hx.
  split; [|done]. intros y Hy. apply Hcross; [done | apply list_elem_of_here].
Qed.

(** C3, amended: when the sweep of the invalidation ends without an
    error of the cache, every [getList] of the user right after a
    successful [addToList] or [removeFromList] is answered from the
    store, so with [cacheHit] false. After the add the new entry stands
    at its canonical position among the entries of the user, which a
    fresh walk returns in full; after the remove no page and no walk
    holds an entry of the removed content. *)
Theorem read_after_mutation (E : Engine) (u : string) (st : State) :
  valid_userId u = true -> store_wf (myListItems st) ->
  (CacheService.sweep u (redis st)).1 = Ok tt ->
  (forall newId now0 now k ct added st',
     request_ok (AddToList newId now0 now u k ct) ->
     MyListService.addToList E newId now0 now u k ct st = (Ok added, st') ->
     let entries := canonical u (myListItems st') in
     (forall type page limit cursor,
        (MyListService.getList E u type page limit cursor st').1
        = missResult (MyListService.readStore E u type page (JS.number_or limit 10) cursor
                        (myListItems st')))
     /\ (exists doc older newer,
           added = MyListService.mapToListItemData doc
           /\ entries = newer ++ doc :: older
           /\ (forall y, y ∈ newer -> precedes y doc)
           /\ (forall y, y ∈ older -> precedes doc y))
     /\ (forall limit fuel,
           1 <= limit -> (length entries < fuel)%nat ->
           cursorWalk E fuel u limit None st'
           = Some (List.map MyListService.mapToListItemData entries)))
  /\ (forall k st',
        MyListService.removeFromList u k st = (Ok tt, st') ->
        let entries := canonical u (myListItems st') in
        (forall type page limit cursor,
           (MyListService.getList E u type page limit cursor st').1
           = missResult (MyListService.readStore E u type page (JS.number_or limit 10) cursor
                           (myListItems st')))
        /\ (forall type page limit cursor res,
              (MyListService.getList E u type page limit cursor st').1 = Ok res ->
              cacheHit res = false
              /\ forall it, it ∈ items (listResult res) -> ListItemData.contentId it <> k)
        /\ (forall limit fuel,
              1 <= limit -> (length entries < fuel)%nat ->
              cursorWalk E fuel u limit None st'
              = Some (List.map MyListService.mapToListItemData entries))
        /\ (forall d, d ∈ entries -> MyListItem.content_id d <> k)).
Proof.
  intros Hu Hwf Hsweep. split.
  - intros newId now0 now k ct added st' (Hid & _ & Hnow) Hadd entries.
    destruct (addToList_Ok E _ _ _ _ _ _ _ _ _ Hadd) as (cd & Hadded & Hcreate & Hc & Hredis).
    assert (store_wf (myListItems st')) as Hwf'.
    { by apply (store_wf_create (MyListService.newItem newId now u k ct cd)
                  (myListItems st)). }
    destruct (swept_reads E u st st' Hu Hsweep Hredis Hwf') as [Hreads Hwalk].
    split; [done|]. split; [|done].
    destruct (sorted_position entries (MyListService.newItem newId now u k ct cd))
      as (newer & older & Hsplit & Hnewer & Holder).
    + by apply canonical_sorted.
    + unfold entries. rewrite canonical_perm, Hc, List.filter_app. apply elem_of_app. right.
      simpl. unfold Model.is_user at 1. simpl. rewrite bool_decide_eq_true_2 by done.
      apply list_elem_of_here.
    + by exists (MyListService.newItem newId now u k ct cd), older, newer.
  - intros k st' Hremove entries.
    destruct (removeFromList_Ok u k st st' Hwf Hremove) as (Hwf' & Hgone & _ & Hredis).
    destruct (swept_reads E u st st' Hu Hsweep Hredis Hwf') as [Hreads Hwalk].
    assert (forall d, d ∈ myListItems st' -> Model.is_user u d = true ->
                      MyListItem.content_id d <> k) as Hno.
    { intros d Hd Hud Hk. specialize (Hgone d Hd). unfold Model.is_entry in Hgone.
      unfold Model.is_user in Hud. rewrite Hud in Hgone.
      by rewrite bool_decide_eq_true_2 in Hgone. }
    split; [done|]. split; [|split; [done|]].
    + intros type page limit cursor res. rewrite Hreads.
      destruct (MyListService.readStore _ _ _ _ _ _ _) as [page'|e] eqn:Hstore; [|done].
      intros [= <-]. split; [done|]. simpl. intros it Hit.
      destruct (readStore_items E _ _ _ _ _ _ _ _ Hstore Hit) as (d & Hd & Hud & ->).
      by apply Hno.
    + intros d Hd. unfold entries in Hd. rewrite canonical_perm in Hd.
      apply filter_subset in Hd as [Hd Hud]. by apply Hno.
Qed.

Lemma read_after_mutation_witness :
  (MyListService.getList strictEngine "alice" Cursor None None None state1).1
  = missResult (MyListService.readStore strictEngine "alice" Cursor None 10 None
                  (myListItems state1)).
Proof.
  refine (proj1 (proj1 (read_after_mutation strictEngine "alice" state0 eq_refl store_wf_nil
                          eq_refl)
                   7 0 1704276000000 movie1Id movie _ state1 _ _) Cursor None None None).
  - repeat split; (lia || reflexivity).
  - reflexivity.
Defined.

(** C3 as stated fails: the sweep of the invalidation meets a transport
    error, which is logged and dropped; the add succeeds, and the read
    right after it is a hit on the page cached before, without the new
    entry. *)
Lemma stale_page_after_add :
  let st1 := (MyListService.getList strictEngine "alice" Cursor None None None faultyState).2 in
  exists added st2 res,
    MyListService.addToList strictEngine 7 0 1704276000000 "alice" movie1Id movie st1
    = (Ok added, st2)
    /\ (CacheService.sweep "alice" (redis st1)).1 = Throw RedisError
    /\ length (myListItems st2) = 1%nat
    /\ (MyListService.getList strictEngine "alice" Cursor None None None st2).1 = Ok res
    /\ cacheHit res = true
    /\ items (listResult res) = [].
Proof.
  cbv zeta. eexists _, _, _. split; [reflexivity|]. split; [reflexivity|].
  split; [reflexivity|]. split; [reflexivity|]. split; reflexivity.
Qed.

(** * Further properties of the service *)

(** ** [removeFromList] and [addToList] on the store *)

Lemma filter_length_remove {A : Type} (f : A -> bool) (l1 l2 : list A) (d : A) :
  length (List.filter f (l1 ++ d :: l2))
  = (length (List.filter f (l1 ++ l2)) + (if f d then 1 else 0))%nat.
Proof.
  rewrite !List.filter_app, !length_app. simpl. destruct (f d); simpl; lia.
Qed.

Lemma is_entry_user (u k : string) (d : MyListItem.t) :
  Model.is_entry u k d = true -> Model.is_user u d = true.
Proof. unfold Model.is_entry, Model.is_user. by intros [? _]%andb_prop. Qed.

(** X1: [removeFromList] on a collection that keeps its indexes: without a
    document of the pair it throws the error of the missing item, which
    the error handler answers with status 404, and the state is as it
    was; with one, that document alone goes, the others keep their
    order, the count of the user falls by one, no document of the pair
    is left and the cache of the user is invalidated. *)
Theorem removeFromList_spec (u k : string) (st : State) :
  store_wf (myListItems st) ->
  (Model.findOne u k (myListItems st) = None
   /\ MyListService.removeFromList u k st
      = (Throw (NotFoundError ERRORS.ITEM_NOT_IN_LIST), st)
   /\ errorHandler (NotFoundError ERRORS.ITEM_NOT_IN_LIST) = (404, "Item not in list"))
  \/ (exists d l1 l2,
        myListItems st = l1 ++ d :: l2
        /\ Model.findOne u k (myListItems st) = Some d
        /\ MyListService.removeFromList u k st
           = (Ok tt,
              {| myListItems := l1 ++ l2;
                 movies := movies st;
                 tvShows := tvShows st;
                 redis := CacheService.invalidateUserCache u (redis st) |})
        /\ Model.findOne u k (l1 ++ l2) = None
        /\ Model.countDocuments u (l1 ++ l2) = Model.countDocuments u (myListItems st) - 1).
Proof.
  intros Hwf. unfold MyListService.removeFromList.
  destruct (deleteOne_spec u k (myListItems st))
    as [[-> Hno]|(l1 & d & l2 & Hc & -> & Hd & Hl1)].
  - left. split; [by apply findOne_None|]. done.
  - right. exists d, l1, l2. split; [done|].
    assert (Model.findOne u k (l1 ++ l2) = None) as Hgone.
    { apply findOne_None. intros x Hx. apply not_true_is_false. intros Hxk.
      apply is_entry_key in Hd, Hxk. destruct Hwf as [_ Hkeys _].
      rewrite Hc, fmap_app, fmap_cons in Hkeys.
      apply NoDup_app in Hkeys as (_ & Hcross & Hnd). apply NoDup_cons in Hnd as [Hnd _].
      apply elem_of_app in Hx as [Hx|Hx].
      - apply (Hcross (entry_key x)); [by apply list_elem_of_fmap_2|].
        rewrite Hxk, <- Hd. apply list_elem_of_here.
      - apply Hnd. rewrite Hd, <- Hxk. by apply list_elem_of_fmap_2. }
    split; [|split; [done|split; [done|]]].
    + rewrite Hc. unfold Model.findOne. clear Hc Hwf Hgone.
      induction l1 as [|x l1 IH]; simpl; [by rewrite Hd|].
      rewrite (Hl1 x) by apply list_elem_of_here. apply IH.
      intros y Hy. by apply Hl1, list_elem_of_further.
    + unfold Model.countDocuments. rewrite Hc, filter_length_remove.
      rewrite (is_entry_user u k d Hd). lia.
Qed.

Lemma removeFromList_spec_witness :
  MyListService.removeFromList "alice" movie1Id state0
  = (Throw (NotFoundError ERRORS.ITEM_NOT_IN_LIST), state0).
Proof.
  destruct (removeFromList_spec "alice" movie1Id state0 store_wf_nil)
    as [(_ & H & _)|(d & l1 & l2 & Hc & _)].
  - exact H.
  - by destruct l1.
Defined.

Lemma castId_throws (E : Engine) (v : json) (e : exn) :
  Mongo.castId E v = Throw e -> e = CastError.
Proof.
  unfold Mongo.castId. destruct v; try (destruct (castObjectId E _); by intros [= <-]).
  destruct (Mongo.ObjectId_fromHex _); [done|].
  destruct (castObjectId E _); by intros [= <-].
Qed.




(** What a successful [addToList] started from. *)
Lemma addToList_Ok_pre (E : Engine) (newId now0 now : Z) (u k : string) (ct : ContentType)
  (st st' : State) (added : ListItemData.t) :
  MyListService.addToList E newId now0 now u k ct st = (Ok added, st') ->
  Model.findOne u k (myListItems st) = None
  /\ exists cd,
       MyListService.fetchContent E now0 k ct st = Ok cd
       /\ added = MyListService.mapToListItemData (MyListService.newItem newId now u k ct cd)
       /\ st' = {| myListItems := myListItems st ++ [MyListService.newItem newId now u k ct cd];
                   movies := movies st;
                   tvShows := tvShows st;
                   redis := CacheService.invalidateUserCache u (redis st) |}.
Proof.
  unfold MyListService.addToList.
  destruct (Model.findOne _ _ _); [done|].
  destruct (MyListService.fetchContent _ _ _ _ _) as [cd|e]; [|done].
  destruct (create_spec (MyListService.newItem newId now u k ct cd) (myListItems st))
    as [(Hc & _)|[Hc _]]; rewrite Hc; [|done].
  intros [= <- <-]. split; [done|]. by exists cd.
Qed.

Lemma deleteOne_last (u k : string) (c : list MyListItem.t) (d : MyListItem.t) :
  (forall x, x ∈ c -> Model.is_entry u k x = false) ->
  Model.is_entry u k d = true ->
  Model.deleteOne u k (c ++ [d]) = (1, c).
Proof.
  intros Hc Hd. induction c as [|x c IH]; simpl; [by rewrite Hd|].
  rewrite (Hc x) by apply list_elem_of_here. rewrite IH; [done|].
  intros y Hy. by apply Hc, list_elem_of_further.
Qed.

Lemma newItem_entry (newId now : Z) (u k : string) (ct : ContentType)
  (cd : MyListService.ContentData) :
  Model.is_entry u k (MyListService.newItem newId now u k ct cd) = true.
Proof. unfold Model.is_entry. simpl. by rewrite !bool_decide_eq_true_2. Qed.

(** X3: removing what was just added gives the collections back: after a
    successful [addToList], [removeFromList] of the same user and
    content succeeds and the list items are the ones before the add, in
    the same order. *)
Theorem add_then_remove (E : Engine) (newId now0 now : Z) (u k : string)
  (ct : ContentType) (st st1 : State) (added : ListItemData.t) :
  MyListService.addToList E newId now0 now u k ct st = (Ok added, st1) ->
  exists st2,
    MyListService.removeFromList u k st1 = (Ok tt, st2)
    /\ myListItems st2 = myListItems st
    /\ movies st2 = movies st /\ tvShows st2 = tvShows st.
Proof.
  intros (Hfind & cd & _ & _ & ->)%addToList_Ok_pre.
  unfold MyListService.removeFromList. cbn [myListItems].
  rewrite deleteOne_last; [by eexists | by apply findOne_None | apply newItem_entry].
Qed.

Lemma add_then_remove_witness :
  exists st2,
    MyListService.removeFromList "alice" movie1Id state1 = (Ok tt, st2)
    /\ myListItems st2 = [].
Proof.
  destruct (add_then_remove strictEngine 7 0 1704276000000 "alice" movie1Id movie state0
              state1 _ eq_refl) as (st2 & H & Hc & _).
  by exists st2.
Defined.

(** ** The snapshot of the content on a new item *)

Lemma create_fresh (doc : MyListItem.t) (c : list MyListItem.t) :
  MyListItem._id doc ∉ (MyListItem._id <$> c) ->
  Model.findOne (MyListItem.user_id doc) (MyListItem.content_id doc) c = None ->
  Model.create doc c = Ok (c ++ [doc]).
Proof.
  intros Hid Hfind. destruct (create_spec doc c) as [(Hc & _)|[_ [Hdup|Hdup]]]; [done|done|].
  apply list_elem_of_fmap in Hdup as (x & Hkey & Hx). symmetry in Hkey.
  apply is_entry_key in Hkey. rewrite findOne_None in Hfind.
  specialize (Hfind x Hx). congruence.
Qed.

Lemma findOne_last (u k : string) (c : list MyListItem.t) (d : MyListItem.t) :
  Model.findOne u k c = None -> Model.is_entry u k d = true ->
  Model.findOne u k (c ++ [d]) = Some d.
Proof.
  unfold Model.findOne. intros Hc Hd. induction c as [|x c IH]; simpl in *; [by rewrite Hd|].
  destruct (Model.is_entry u k x); [done|]. by apply IH.
Qed.

Lemma countDocuments_app (u : string) (c : list MyListItem.t) (d : MyListItem.t) :
  Model.countDocuments u (c ++ [d])
  = Model.countDocuments u c + (if Model.is_user u d then 1 else 0).
Proof.
  unfold Model.countDocuments. rewrite List.filter_app, length_app. simpl.
  destruct (Model.is_user u d); simpl; lia.
Qed.

(** [trim] on strings with white space of one, two and three bytes
    around and within. *)
Example trim_examples :
  trim "  Heat " = "Heat"
  /\ trim " The  Godfather " = "The  Godfather"
  /\ trim " 　Dark " = "Dark"
  /\ trim "   " = ""
  /\ trim "Heat" = "Heat".
Proof. repeat split; reflexivity. Qed.

(** X4: adding a movie of the catalogue that is not on the list, with a
    fresh ObjectId, where the document passes the validators of the
    list-item schema: the call succeeds, the new document is appended
    with the trimmed title and the trimmed director of the movie, its
    description, genres, release date and actors as they are, and the
    reading of the clock as [added_at]; the item returned shows the same
    values; the document is what [findOne] then finds for the pair, the
    count of the user grows by one and the count of every other user
    stays. *)
Theorem addToList_movie (E : Engine) (newId now0 now : Z) (u k : string) (st : State)
  (oid : Z) (m : Movie.t) :
  Model.findOne u k (myListItems st) = None ->
  Mongo.castId E (JStr k) = Ok oid ->
  List.find (fun m => Movie._id m =? oid) (movies st) = Some m ->
  newId ∉ (MyListItem._id <$> myListItems st) ->
  let doc :=
    MyListItem.mk newId u k movie now (trim (Movie.title m)) (Movie.description m)
      (Movie.genres m) (Movie.releaseDate m) (Some (trim (Movie.director m)))
      (Movie.actors m) in
  let added :=
    ListItemData.mk (Mongo.ObjectId_toString newId) k movie (trim (Movie.title m))
      (Movie.description m) (Movie.genres m) (Movie.releaseDate m)
      (Some (trim (Movie.director m))) (Movie.actors m) now in
  Model.validates u k (trim (Movie.title m)) (Movie.description m) (Movie.genres m) = true ->
  MyListService.addToList E newId now0 now u k movie st
  = (Ok added,
     {| myListItems := myListItems st ++ [doc];
        movies := movies st;
        tvShows := tvShows st;
        redis := CacheService.invalidateUserCache u (redis st) |})
  /\ Model.findOne u k (myListItems st ++ [doc]) = Some doc
  /\ Model.countDocuments u (myListItems st ++ [doc])
     = Model.countDocuments u (myListItems st) + 1
  /\ (forall v, v <> u ->
        Model.countDocuments v (myListItems st ++ [doc])
        = Model.countDocuments v (myListItems st)).
Proof.
  intros Hfind Hcast Hm Hfresh doc added _. split; [|split; [|split]].
  - unfold MyListService.addToList. rewrite Hfind.
    unfold MyListService.fetchContent, Model.Movie_findById. rewrite Hcast. cbn [bind].
    rewrite Hm. cbv zeta. change (MyListService.newItem _ _ _ _ _ _) with doc.
    rewrite (create_fresh doc (myListItems st)) by done. done.
  - apply findOne_last; [done|]. unfold Model.is_entry. simpl.
    by rewrite !bool_decide_eq_true_2.
  - rewrite countDocuments_app. unfold Model.is_user. simpl.
    by rewrite bool_decide_eq_true_2.
  - intros v Hv. rewrite countDocuments_app. unfold Model.is_user. simpl.
    rewrite bool_decide_eq_false_2 by done. lia.
Qed.

Lemma addToList_movie_witness :
  (MyListService.addToList strictEngine 7 0 1704276000000 "alice" movie1Id movie paddedState).1
  = Ok (ListItemData.mk "000000000000000000000007" movie1Id movie "Heat" "A heist"
          ["Action"] 819936000000 (Some "Michael Mann") ["Al Pacino"] 1704276000000).
Proof.
  pose proof (addToList_movie strictEngine 7 0 1704276000000 "alice" movie1Id paddedState 1
                paddedMovie eq_refl eq_refl eq_refl) as H.
  rewrite (proj1 (H ltac:(simpl; apply not_elem_of_nil) eq_refl)). reflexivity.
Defined.

(** *** The actors of a show *)

Lemma uniq_elem (seen l : list string) (x : string) :
  x ∈ MyListService.uniq seen l <-> x ∈ l /\ x ∉ seen.
Proof.
  revert seen. induction l as [|y l IH]; intros seen; simpl.
  - split; [by intros ?%not_elem_of_nil | by intros [?%not_elem_of_nil _]].
  - case_bool_decide as Hy.
    + rewrite IH, elem_of_cons. split; [tauto|]. intros [[->|?] ?]; tauto.
    + rewrite !elem_of_cons, IH, elem_of_cons. split.
      * intros [->|[? ?]]; [tauto|]. split; [tauto|]. tauto.
      * intros [[->|?] ?]; [tauto|]. destruct (decide (x = y)); [tauto|]. right. tauto.
Qed.

Lemma uniq_NoDup (seen l : list string) : NoDup (MyListService.uniq seen l).
Proof.
  revert seen. induction l as [|y l IH]; intros seen; simpl; [constructor|].
  case_bool_decide; [done|]. constructor; [|done].
  rewrite uniq_elem, elem_of_cons. tauto.
Qed.

Lemma uniq_sublist (seen l : list string) : sublist (MyListService.uniq seen l) l.
Proof.
  revert seen. induction l as [|y l IH]; intros seen; simpl; [constructor|].
  case_bool_decide; [by apply sublist_cons | by apply sublist_skip].
Qed.

Lemma uniq_order (seen l : list string) (a b : string) (i j : nat) :
  MyListService.uniq seen l !! i = Some a -> MyListService.uniq seen l !! j = Some b ->
  (i < j)%nat ->
  exists i', l !! i' = Some a /\ forall j', (j' <= i')%nat -> l !! j' <> Some b.
Proof.
  revert seen i j. induction l as [|x l IH]; intros seen i j; simpl; [done|].
  case_bool_decide as Hx.
  - intros Ha Hb Hij. destruct (IH _ _ _ Ha Hb Hij) as (i' & Hi' & Hlt).
    exists (S i'). split; [done|]. intros [|j'] Hj'; simpl.
    + intros [= ->]. apply list_elem_of_lookup_2, uniq_elem in Hb. tauto.
    + apply Hlt. lia.
  - destruct i as [|i], j as [|j]; simpl; try lia.
    + intros [= ->] Hb _. exists 0%nat. split; [done|].
      intros j' Hj'. replace j' with 0%nat by lia. simpl. intros [= ->].
      apply list_elem_of_lookup_2, uniq_elem in Hb. rewrite elem_of_cons in Hb. tauto.
    + intros Ha Hb Hij. destruct (IH _ _ _ Ha Hb ltac:(lia)) as (i' & Hi' & Hlt).
      exists (S i'). split; [done|]. intros [|j'] Hj'; simpl.
      * intros [= ->]. apply list_elem_of_lookup_2, uniq_elem in Hb.
        rewrite elem_of_cons in Hb. tauto.
      * apply Hlt. lia.
Qed.

(** X5: adding a show of the catalogue that is not on the list, with a
    fresh ObjectId, where the document passes the validators of the
    list-item schema: the call succeeds; the item carries the trimmed
    title of the show, its description and genres, the release date and
    the trimmed director of its first episode (without episodes the
    first reading of the clock and no director), and as actors every
    actor of every episode once, in the order of the first appearance;
    the document found for the pair afterwards holds the same values. *)
Theorem addToList_tvshow (E : Engine) (newId now0 now : Z) (u k : string) (st : State)
  (oid : Z) (s : TVShow.t) :
  Model.findOne u k (myListItems st) = None ->
  Mongo.castId E (JStr k) = Ok oid ->
  List.find (fun m => TVShow._id m =? oid) (tvShows st) = Some s ->
  newId ∉ (MyListItem._id <$> myListItems st) ->
  Model.validates u k (trim (TVShow.title s)) (TVShow.description s) (TVShow.genres s) = true ->
  exists added st',
    MyListService.addToList E newId now0 now u k tvshow st = (Ok added, st')
    /\ ListItemData.id added = Mongo.ObjectId_toString newId
    /\ ListItemData.contentId added = k
    /\ ListItemData.contentType added = tvshow
    /\ ListItemData.title added = trim (TVShow.title s)
    /\ ListItemData.description added = TVShow.description s
    /\ ListItemData.genres added = TVShow.genres s
    /\ ListItemData.addedAt added = now
    /\ match TVShow.episodes s with
       | first :: _ =>
           ListItemData.releaseDate added = Episode.releaseDate first
           /\ ListItemData.director added = Some (trim (Episode.director first))
       | [] =>
           ListItemData.releaseDate added = now0 /\ ListItemData.director added = None
       end
    /\ NoDup (ListItemData.actors added)
    /\ (forall a, a ∈ ListItemData.actors added
                  <-> exists ep, ep ∈ TVShow.episodes s /\ a ∈ Episode.actors ep)
    /\ sublist (ListItemData.actors added) (flat_map Episode.actors (TVShow.episodes s))
    /\ (forall a b i j,
          ListItemData.actors added !! i = Some a -> ListItemData.actors added !! j = Some b ->
          (i < j)%nat ->
          exists i', flat_map Episode.actors (TVShow.episodes s) !! i' = Some a
                     /\ forall j', (j' <= i')%nat ->
                          flat_map Episode.actors (TVShow.episodes s) !! j' <> Some b)
    /\ Model.findOne u k (myListItems st') = Some (MyListItem.mk newId u k tvshow now
         (ListItemData.title added) (ListItemData.description added)
         (ListItemData.genres added) (ListItemData.releaseDate added)
         (ListItemData.director added) (ListItemData.actors added)).
Proof.
  intros Hfind Hcast Hs Hfresh _. unfold MyListService.addToList. rewrite Hfind.
  unfold MyListService.fetchContent, Model.TVShow_findById. rewrite Hcast. cbn [bind].
  rewrite Hs.
  set (cd := MyListService.Build_ContentData _ _ _ _ _ _).
  rewrite (create_fresh (MyListService.newItem newId now u k tvshow cd) (myListItems st))
    by done.
  eexists _, _. split; [done|]. cbn. repeat (split; [done|]).
  split; [by destruct (TVShow.episodes s)|]. split; [apply uniq_NoDup|].
  split; [|split; [apply uniq_sublist|split; [apply uniq_order|]]].
  - intros a. rewrite uniq_elem. split.
    + intros [(ep & Hep & Ha)%list_elem_of_In%in_flat_map _].
      exists ep. by rewrite !list_elem_of_In.
    + intros (ep & Hep & Ha). split; [|apply not_elem_of_nil].
      apply list_elem_of_In, in_flat_map. exists ep. by rewrite <- !list_elem_of_In.
  - apply findOne_last; [done|]. unfold Model.is_entry. simpl.
    by rewrite !bool_decide_eq_true_2.
Qed.

Lemma addToList_tvshow_witness :
  exists added,
    (MyListService.addToList strictEngine 7 0 1704276000000 "alice" show1Id tvshow
       showState).1 = Ok added
    /\ ListItemData.actors added = ["Louis Hofmann"; "Oliver Masucci"; "Karoline Eichhorn"].
Proof.
  destruct (addToList_tvshow strictEngine 7 0 1704276000000 "alice" show1Id showState 2 show1
              eq_refl eq_refl eq_refl ltac:(simpl; apply not_elem_of_nil) eq_refl)
    as (added & st' & H & _).
  exists added. rewrite H. split; [done|].
  assert (Ok added = Ok (MyListService.mapToListItemData
            (MyListService.newItem 7 1704276000000 "alice" show1Id tvshow
               (MyListService.Build_ContentData "Dark" "A town" ["SciFi"] 1512086400000
                  (Some "Baran bo Odar")
                  ["Louis Hofmann"; "Oliver Masucci"; "Karoline Eichhorn"])))) as Heq.
  { transitivity (MyListService.addToList strictEngine 7 0 1704276000000 "alice" show1Id
                    tvshow showState).1; [by rewrite H | reflexivity]. }
  by injection Heq as ->.
Defined.

(** ** The cache around the reads *)

Section ReadThrough.
Context (E : Engine).

Lemma get_no_fault {V : Type} (key : string) (r : Redis.t V) :
  Redis.faults r = [] ->
  Redis.get key r = (Ok (snd <$> Redis.db r !! key), Redis.mk (Redis.db r) []).
Proof. unfold Redis.get, Redis.command. by intros ->. Qed.

Lemma setex_no_fault {V : Type} (key : string) (ttl : Z) (v : V) (r : Redis.t V) :
  Redis.faults r = [] ->
  (Redis.setex key ttl v r).2 = Redis.mk (<[key := (ttl, v)]> (Redis.db r)) [].
Proof. unfold Redis.setex, Redis.command. by intros ->. Qed.

Lemma CacheService_get_no_fault {T : Type} (key : string) (r : Redis.t T) :
  Redis.faults r = [] ->
  CacheService.get key r
  = (match Redis.db r !! key with
     | Some (_, d) => {| CacheService.data := Some d; CacheService.hit := true |}
     | None => {| CacheService.data := None; CacheService.hit := false |}
     end, Redis.mk (Redis.db r) []).
Proof.
  intros Hf. unfold CacheService.get. rewrite get_no_fault by done.
  by destruct (Redis.db r !! key) as [[ttl d]|].
Qed.

Lemma decodeCursor_throws (cursor : string) (e : exn) :
  MyListService.decodeCursor E cursor = Throw e ->
  e = BadRequestError VALIDATION.INVALID_CURSOR_FORMAT.
Proof.
  unfold MyListService.decodeCursor.
  destruct (let? decodedCursor := _ in _) as [x|e']; [done | congruence].
Qed.

Lemma decodeIfPresent_throws (cursor : option string) (e : exn) :
  MyListService.decodeIfPresent E cursor = Throw e ->
  e = BadRequestError VALIDATION.INVALID_CURSOR_FORMAT.
Proof.
  unfold MyListService.decodeIfPresent. destruct cursor as [s|]; [|done].
  destruct (JS.string_truthy s); [|done].
  destruct (MyListService.decodeCursor E s) as [x|e'] eqn:Hdec; [done|]. cbn [bind].
  intros [= <-]. by apply decodeCursor_throws in Hdec.
Qed.

Lemma find_throws (query : CursorQuery.t) (c : list MyListItem.t) (e : exn) :
  MyListService.find E query c = Throw e -> e = CastError.
Proof.
  unfold MyListService.find. destruct (CursorQuery.or_before query) as [[d i]|]; [|done].
  destruct (Mongo.castId E i) as [oid|e'] eqn:Hcast; [done|]. cbn [bind].
  intros [= <-]. by apply castId_throws in Hcast.
Qed.

(** X6: on a cache whose transport works, a read that succeeded is answered
    from the cache when it is repeated: the same page, marked as a hit,
    and neither the store nor the keyspace changes. *)
Theorem repeated_read_hits (u : string) (type : PaginationType) (page limit : option Z)
  (cursor : option string) (st st1 : State) (res : PaginatedListResult) :
  Redis.faults (redis st) = [] ->
  MyListService.getList E u type page limit cursor st = (Ok res, st1) ->
  exists st2,
    MyListService.getList E u type page limit cursor st1
    = (Ok {| listResult := listResult res; cacheHit := true |}, st2)
    /\ myListItems st2 = myListItems st
    /\ Redis.db (redis st2) = Redis.db (redis st1)
    /\ Redis.db (redis st1)
         !! CacheService.getCacheKey u type page cursor (JS.number_or limit 10)
       = Some (match Redis.db (redis st)
                       !! CacheService.getCacheKey u type page cursor (JS.number_or limit 10)
               with
               | Some cached => cached
               | None => (CacheService.CACHE_TTL_SECONDS, listResult res)
               end).
Proof.
  intros Hf. unfold MyListService.getList. cbv zeta.
  set (key := CacheService.getCacheKey u type page cursor (JS.number_or limit 10)).
  rewrite (CacheService_get_no_fault key (redis st) Hf).
  destruct (Redis.db (redis st) !! key) as [[ttl d]|] eqn:Hlook; cbn [CacheService.hit CacheService.data].
  - intros [= <- <-]. cbn [redis MyListService.with_redis listResult].
    rewrite (CacheService_get_no_fault key (Redis.mk (Redis.db (redis st)) []) eq_refl).
    cbn [Redis.db]. rewrite Hlook. cbn [CacheService.hit CacheService.data].
    eexists. split; [done|]. done.
  - destruct (MyListService.readStore E u type page _ cursor (myListItems st)) as [v|e];
      [|done].
    intros [= <- <-]. cbn [redis MyListService.with_redis listResult myListItems].
    unfold CacheService.set. rewrite setex_no_fault by done.
    rewrite CacheService_get_no_fault by done. cbn [Redis.db].
    assert (<[key := (CacheService.CACHE_TTL_SECONDS, v)]> (Redis.db (redis st)) !! key
            = Some (CacheService.CACHE_TTL_SECONDS, v)) as Hins by apply lookup_insert_eq.
    rewrite Hins. cbn [CacheService.hit CacheService.data].
    eexists. split; [done|]. done.
Qed.

(** What a failed [getList] leaves and where its error comes from. *)
Lemma getList_throws (u : string) (type : PaginationType) (page limit : option Z)
  (cursor : option string) (st st' : State) (e : exn) :
  MyListService.getList E u type page limit cursor st = (Throw e, st') ->
  Redis.db (redis st') = Redis.db (redis st)
  /\ myListItems st' = myListItems st
  /\ MyListService.readStore E u type page (JS.number_or limit 10) cursor (myListItems st)
     = Throw e.
Proof.
  unfold MyListService.getList. cbv zeta.
  pose proof (CacheService_get_db
    (CacheService.getCacheKey u type page cursor (JS.number_or limit 10)) (redis st)) as Hdb.
  destruct (CacheService.get _ (redis st)) as [[d h] r1]. simpl in Hdb.
  cbn [CacheService.hit CacheService.data].
  assert ((match MyListService.readStore E u type page (JS.number_or limit 10) cursor
                   (myListItems st) with
           | Throw e0 => (Throw e0, MyListService.with_redis st r1)
           | Ok v =>
               (Ok {| listResult := v; cacheHit := false |},
                MyListService.with_redis st
                  (CacheService.set
                     (CacheService.getCacheKey u type page cursor (JS.number_or limit 10))
                     v CacheService.CACHE_TTL_SECONDS r1))
           end) = (Throw e, st') ->
          Redis.db (redis st') = Redis.db (redis st)
          /\ myListItems st' = myListItems st
          /\ MyListService.readStore E u type page (JS.number_or limit 10) cursor
               (myListItems st) = Throw e) as Hmiss.
  { destruct (MyListService.readStore _ _ _ _ _ _ _) as [v|e0]; [done|].
    intros [= <- <-]. done. }
  intros Hget. destruct h, d as [d|]; by try apply Hmiss.
Qed.

(** In cursor mode on a collection that keeps its indexes the store
    read fails with a client error only. *)
Lemma cursor_read_throws (u : string) (limit : Z) (cursor : option string)
  (c : list MyListItem.t) (e : exn) :
  store_wf c -> 1 <= limit ->
  MyListService.getListWithCursorPagination E u cursor limit c = Throw e ->
  (errorHandler e).1 = 400.
Proof.
  intros Hwf Hlimit H3.
  destruct (MyListService.decodeIfPresent E cursor) as [decoded|e0] eqn:Hdec.
  - destruct (MyListService.find E (MyListService.buildQuery E u decoded) c)
      as [found|e0] eqn:Hfind.
    + rewrite (cursor_page_result E u cursor limit c found decoded) in H3;
        [done | lia | | done | done].
      destruct (find_subset E _ _ _ Hfind) as (keep & -> & _).
      by apply filter_valid_dates.
    + unfold MyListService.getListWithCursorPagination in H3.
      rewrite Hdec in H3. cbn [bind] in H3. rewrite Hfind in H3. cbn [bind] in H3.
      injection H3 as <-. by rewrite (find_throws _ _ _ Hfind).
  - unfold MyListService.getListWithCursorPagination in H3.
    rewrite Hdec in H3. cbn [bind] in H3. injection H3 as <-.
    by rewrite (decodeIfPresent_throws _ _ Hdec).
Qed.

(** X7: a read that fails caches nothing: the keyspace and the store are as
    they were. In cursor mode on a collection that keeps its indexes the
    failure is a client error, answered with status 400. *)
Theorem failed_read_not_cached (u : string) (type : PaginationType) (page limit : option Z)
  (cursor : option string) (st st' : State) (e : exn) :
  MyListService.getList E u type page limit cursor st = (Throw e, st') ->
  Redis.db (redis st') = Redis.db (redis st)
  /\ myListItems st' = myListItems st
  /\ MyListService.readStore E u type page (JS.number_or limit 10) cursor (myListItems st)
     = Throw e
  /\ (type = Cursor -> store_wf (myListItems st) -> JS.number_or limit 10 >= 1 ->
      (errorHandler e).1 = 400).
Proof.
  intros (Hdb & Hitems & Hstore)%getList_throws.
  split; [done|]. split; [done|]. split; [done|].
  intros -> Hwf Hlimit.
  apply (cursor_read_throws u (JS.number_or limit 10) cursor (myListItems st));
    [done | lia | exact Hstore].
Qed.
End ReadThrough.

Lemma repeated_read_hits_witness :
  exists res st2,
    MyListService.getList strictEngine "alice" Cursor None None None
      (MyListService.getList strictEngine "alice" Cursor None None None state1).2
    = (Ok res, st2)
    /\ cacheHit res = true.
Proof.
  destruct (repeated_read_hits strictEngine "alice" Cursor None None None state1 _ _
              eq_refl eq_refl) as (st2 & H & _).
  eexists _, st2. split; [exact H | reflexivity].
Defined.

Lemma failed_read_not_cached_witness :
  Redis.db (redis (MyListService.getList strictEngine "alice" Cursor None None
                     (Some "invalid-base64") state1).2)
  = Redis.db (redis state1).
Proof.
  exact (proj1 (failed_read_not_cached strictEngine "alice" Cursor None None
                  (Some "invalid-base64") state1 _
                  (BadRequestError VALIDATION.INVALID_CURSOR_FORMAT) eq_refl)).
Defined.

(** ** The sweep of the invalidation *)

(** X8: on a transport that works, for a user id as the authentication
    middleware admits it, the invalidation ends without an error and
    removes exactly the keys of the namespace of the user, however many
    there are: every key [mylist:U:...] is gone, every other key holds
    what it held. *)
Theorem invalidation_exact (u : string) (r : Redis.t ListResult) (k : string) :
  valid_userId u = true -> Redis.faults r = [] ->
  (CacheService.sweep u r).1 = Ok tt
  /\ Redis.db (CacheService.invalidateUserCache u r) !! k
     = (if Redis.stringmatch (CacheService.getUserCachePattern u) k then None
        else Redis.db r !! k)
  /\ (Redis.stringmatch (CacheService.getUserCachePattern u) k = true
      <-> exists rest, k = "mylist:" +:+ u +:+ ":" +:+ rest).
Proof.
  intros Hu Hf. pose proof (sweep_no_fault u r Hf) as Hok.
  split; [done|]. split; [|by apply user_pattern_match].
  destruct (Redis.stringmatch _ k) eqn:Hk.
  - by apply sweep_clears.
  - by apply sweep_frame.
Qed.

Lemma invalidation_exact_witness :
  Redis.db (CacheService.invalidateUserCache "alice"
              (Redis.mk (<["mylist:bob:cursor:first:limit:10" := (300, page0)]>
                         (<["mylist:alice:cursor:first:limit:10" := (300, page0)]> ∅)) []))
    !! "mylist:alice:cursor:first:limit:10"
  = None.
Proof.
  exact (proj1 (proj2 (invalidation_exact "alice"
                         (Redis.mk (<["mylist:bob:cursor:first:limit:10" := (300, page0)]>
                                    (<["mylist:alice:cursor:first:limit:10" := (300, page0)]> ∅))
                            [])
                         "mylist:alice:cursor:first:limit:10" eq_refl eq_refl))).
Defined.

(** ** The pages of a user *)

Section Pages.
Context (E : Engine).

Lemma find_by_user (u : string) (decoded : option (json * Z)) :
  exists keep : result (MyListItem.t -> bool),
    forall c,
      MyListService.find E (MyListService.buildQuery E u decoded) c
      = (let? k := keep in Ok (List.filter k (List.filter (Model.is_user u) c))).
Proof.
  unfold MyListService.find. rewrite buildQuery_user.
  destruct (match CursorQuery.or_before _ with
            | Some (d, i) => _
            | None => _
            end) as [bound|e].
  - eexists (Ok (fun doc => _ && _)). intros c'. cbn [bind]. f_equal.
    rewrite <- filter_and. apply filter_ext. intros d.
    by rewrite andb_assoc.
  - exists (Throw e). done.
Qed.

(** X9: the pages of a user depend on the documents of that user alone:
    two collections with the same documents of the user, in the same
    order, answer every read of the user alike; so a document of another
    user, added or removed, changes no page; and every item of a page is
    a document of the user. *)
Theorem pages_of_own_entries (u : string) (type : PaginationType) (page : option Z)
  (limit : Z) (cursor : option string) (c c' : list MyListItem.t) :
  List.filter (Model.is_user u) c = List.filter (Model.is_user u) c' ->
  MyListService.readStore E u type page limit cursor c
  = MyListService.readStore E u type page limit cursor c'
  /\ (forall d, MyListItem.user_id d <> u ->
        MyListService.readStore E u type page limit cursor (c ++ [d])
        = MyListService.readStore E u type page limit cursor c)
  /\ (forall v k, v <> u ->
        MyListService.readStore E u type page limit cursor (Model.deleteOne v k c).2
        = MyListService.readStore E u type page limit cursor c)
  /\ (forall res it,
        MyListService.readStore E u type page limit cursor c = Ok res ->
        it ∈ items res ->
        exists d, d ∈ c /\ MyListItem.user_id d = u
                  /\ it = MyListService.mapToListItemData d).
Proof.
  assert (forall c1 c2,
            List.filter (Model.is_user u) c1 = List.filter (Model.is_user u) c2 ->
            MyListService.readStore E u type page limit cursor c1
            = MyListService.readStore E u type page limit cursor c2) as Hown.
  { intros c1 c2 Heq. destruct type; simpl.
    - unfold MyListService.getListWithOffsetPagination, Model.countDocuments.
      by rewrite Heq.
    - unfold MyListService.getListWithCursorPagination.
      destruct (MyListService.decodeIfPresent E cursor) as [decoded|e]; [|done].
      cbn [bind]. destruct (find_by_user u decoded) as [keep Hfind].
      by rewrite !Hfind, Heq. }
  intros Heq. split; [by apply Hown|]. split; [|split].
  - intros d Hd. apply Hown. rewrite List.filter_app. simpl.
    unfold Model.is_user at 2. rewrite bool_decide_eq_false_2 by done.
    by rewrite List.app_nil_r.
  - intros v k Hv. apply Hown.
    destruct (deleteOne_spec v k c) as [[-> _]|(l1 & d & l2 & -> & -> & Hd & _)]; [done|].
    simpl. rewrite !List.filter_app. simpl.
    apply is_entry_user in Hd. unfold Model.is_user in *.
    apply bool_decide_eq_true in Hd. rewrite bool_decide_eq_false_2; [done|congruence].
  - intros res it Hres Hit.
    destruct (readStore_items E _ _ _ _ _ _ _ _ Hres Hit) as (d & Hd & Hud & ->).
    exists d. split; [done|]. split; [|done]. by apply bool_decide_eq_true in Hud.
Qed.
End Pages.

Lemma pages_of_own_entries_witness :
  MyListService.readStore strictEngine "alice" Offset None 10 None
    (tiedCollection ++ [item 3 "bob" "m1" 1704276000000])
  = MyListService.readStore strictEngine "alice" Offset None 10 None tiedCollection.
Proof.
  exact (proj1 (pages_of_own_entries strictEngine "alice" Offset None 10 None
                  (tiedCollection ++ [item 3 "bob" "m1" 1704276000000]) tiedCollection
                  eq_refl)).
Defined.

(** ** The walk of the offset mode *)





(** ** Cursors of the old form *)

Section Legacy.
Context (E : Engine).

Lemma find_older (u : string) (date : Z) (c : list MyListItem.t) :
  MyListService.find E (CursorQuery.mk u (Some date) None) c
  = Ok (List.filter (fun d => Model.is_user u d && (MyListItem.added_at d <? date)) c).
Proof.
  unfold MyListService.find. cbn [CursorQuery.or_before CursorQuery.added_at_lt bind].
  f_equal. apply filter_ext. intros d. cbn [CursorQuery.user_id]. by rewrite andb_true_r.
Qed.

(** X11: a cursor that decodes to a date without a usable id (the old form)
    selects by the date alone: the page is the head of the documents of
    the user strictly older than the date, in canonical order, so every
    item of the page is older than the date and documents added at the
    very date of the cursor are passed over. *)
Theorem legacy_cursor_page (u cursor : string) (limit : Z) (c : list MyListItem.t)
  (obj : json) (date : Z) :
  1 <= limit -> store_wf c ->
  JS.string_truthy cursor = true ->
  MyListService.decodeCursor E cursor = Ok (obj, date) ->
  match JSON.get obj "id" with
  | Some i => MyListService.truthy E i = false
  | None => True
  end ->
  let older :=
    List.filter (fun d => Model.is_user u d && (MyListItem.added_at d <? date)) c in
  MyListService.getListWithCursorPagination E u (Some cursor) limit c
  = Ok (cursorPageOf (Some cursor) limit (Mongo.sort MyListService.by_added_at_id older))
  /\ (forall it,
        it ∈ items (cursorPageOf (Some cursor) limit
                      (Mongo.sort MyListService.by_added_at_id older)) ->
        ListItemData.addedAt it < date).
Proof.
  intros Hlimit Hwf Hcur Hdec Hid older. split.
  - apply (cursor_page_result E u (Some cursor) limit c older (Some (obj, date)) Hlimit).
    + by apply filter_valid_dates.
    + unfold MyListService.decodeIfPresent. by rewrite Hcur, Hdec.
    + unfold MyListService.buildQuery.
      destruct (JSON.get obj "id") as [i|]; [rewrite Hid|]; apply find_older.
  - cbn [items cursorPageOf]. intros it (d & -> & Hd)%list_elem_of_fmap.
    apply subseteq_take in Hd. rewrite sort_perm in Hd.
    apply filter_subset in Hd as [_ [_ Hlt]%andb_prop]. simpl. lia.
Qed.
End Legacy.

Lemma legacy_cursor_page_witness :
  MyListService.getListWithCursorPagination strictEngine "alice"
    (Some (legacyCursor "2024-01-03T10:00:00.000Z")) 10 tiedCollection
  = Ok {| items := [];
          pagination := CursorPage
            (CursorPagination.mk 10 None (Some (legacyCursor "2024-01-03T10:00:00.000Z"))
               false true) |}.
Proof.
  exact (proj1 (legacy_cursor_page strictEngine "alice"
                  (legacyCursor "2024-01-03T10:00:00.000Z") 10 tiedCollection
                  (JObj [("added_at", JStr "2024-01-03T10:00:00.000Z")]) 1704276000000
                  ltac:(lia) tiedCollection_wf eq_refl ltac:(vm_compute; reflexivity) I)).
Defined.

(** * Properties of the HTTP layer *)

(** ** Authentication *)

(** X13: [authMiddleware] lets a request through exactly when the header is
    one string of 1 to 50 letters, digits, [_] or [-], which becomes the
    user id; every other request is answered 401. A user id it lets
    through has no colon and no character with a meaning in a glob
    pattern, so the pattern of the invalidation matches the keys of the
    namespace of the user and no other; and the rate limiter counts the
    request under that user id, whatever the address. *)
Theorem auth_admits_safe_ids (h : option header) :
  match authMiddleware h with
  | inr u =>
      h = Some (HeaderString u)
      /\ (1 <= String.length u <= 50)%nat
      /\ all_chars userId_char u = true
      /\ has ":" u = false
      /\ all_chars (fun c => negb (special c)) u = true
      /\ (forall k, Redis.stringmatch (CacheService.getUserCachePattern u) k = true
                    <-> exists rest, k = "mylist:" +:+ u +:+ ":" +:+ rest)
      /\ (forall ip, keyGenerator h ip = u)
  | inl response =>
      Response.status response = 401
      /\ (forall u, h = Some (HeaderString u) -> valid_userId u = false)
  end.
Proof.
  unfold authMiddleware. destruct h as [[s|l]|]; try (split; [done|]; by intros u [=]).
  destruct (JS.string_truthy s) eqn:Hs.
  - destruct (valid_userId s) eqn:Hv.
    + pose proof Hv as [[Hchars Hmin%Nat.leb_le]%andb_prop Hmax%Nat.leb_le]%andb_prop.
      split; [done|]. split; [lia|]. split; [done|]. split; [by apply userId_no_colon|].
      split; [by apply userId_plain|]. split; [|done].
      intros k. by apply user_pattern_match.
    + split; [done|]. by intros u [= <-].
  - split; [done|]. intros u [= <-]. by destruct s.
Qed.

(** ** [parseInt] *)

Lemma pretty_N_char_digit (x : N) :
  (x < 10)%N -> JS.char_digit 10 (pretty_N_char x) = Some (Z.of_N x).
Proof.
  intros Hx.
  assert (x = 0 \/ x = 1 \/ x = 2 \/ x = 3 \/ x = 4 \/ x = 5 \/ x = 6 \/ x = 7 \/ x = 8
          \/ x = 9)%N as Hcases by lia.
  repeat destruct Hcases as [->|Hcases]; try done. by subst x.
Qed.

Lemma pretty_N_go_app (x : N) (s t : string) :
  pretty_N_go x s +:+ t = pretty_N_go x (s +:+ t).
Proof.
  revert s. induction (N.lt_wf_0 x) as [x _ IH]; intros s.
  destruct (decide (x = 0%N)) as [->|Hx].
  - by rewrite !pretty_N_go_0.
  - rewrite (pretty_N_go_step x s), (pretty_N_go_step x (s +:+ t)) by lia.
    rewrite IH by (apply N.div_lt; lia). by rewrite sapp_cons.
Qed.

Lemma pretty_N_char_is_digit (x : N) : JSON.is_digit (pretty_N_char x) = true.
Proof. unfold pretty_N_char. by repeat case_match. Qed.

Lemma pretty_N_go_head (x : N) (s : string) :
  (0 < x)%N ->
  exists c r, pretty_N_go x s = String c r /\ JSON.is_digit c = true.
Proof.
  revert s. induction (N.lt_wf_0 x) as [x _ IH]; intros s Hx.
  rewrite pretty_N_go_step by done.
  destruct (decide (x `div` 10 = 0)%N) as [->|Hq].
  - rewrite pretty_N_go_0. eexists _, _. split; [done|]. apply pretty_N_char_is_digit.
  - apply IH; [apply N.div_lt; lia | by apply N.neq_0_lt_0].
Qed.

(** Reading the decimal form of [x] puts its digits behind what has
    been read. *)
Lemma read_pretty_N_go (x : N) :
  (0 < x)%N ->
  exists k, forall acc s,
    read_decimal acc (pretty_N_go x s)
    = read_decimal (Some (default 0 acc * k + Z.of_N x)) s.
Proof.
  induction (N.lt_wf_0 x) as [x _ IH]; intros Hx.
  assert (Z.of_N x = 10 * Z.of_N (x `div` 10) + Z.of_N (x `mod` 10)) as Hdm.
  { rewrite <- (N2Z.inj_mul 10), <- N2Z.inj_add. f_equal. apply N.div_mod. lia. }
  assert (JS.char_digit 10 (pretty_N_char (x `mod` 10)) = Some (Z.of_N (x `mod` 10)))
    as Hd by (apply pretty_N_char_digit, N.mod_lt; lia).
  destruct (decide (x `div` 10 = 0)%N) as [Hq|Hq].
  - exists 10. intros acc s. rewrite pretty_N_go_step, Hq, pretty_N_go_0 by done.
    cbn [read_decimal]. rewrite Hd. do 2 f_equal. rewrite Hdm, Hq. lia.
  - destruct (IH (x `div` 10)%N) as [k Hk];
      [apply N.div_lt; lia | by apply N.neq_0_lt_0 |].
    exists (10 * k). intros acc s. rewrite pretty_N_go_step, Hk by done.
    cbn [read_decimal]. rewrite Hd. cbn [default]. do 2 f_equal. rewrite Hdm.
    unfold id. lia.
Qed.

Lemma trimStart_plain (c : ascii) (r : string) :
  JSON.is_digit c || Ascii.eqb c "-" || Ascii.eqb c "+" = true ->
  trimStart (String c r) = String c r.
Proof.
  destruct c as [[] [] [] [] [] [] [] []]; intros H; try discriminate H;
    by destruct r as [|b [|c r]].
Qed.

Lemma digit_no_sign (c : ascii) :
  JSON.is_digit c = true -> Ascii.eqb c "-" = false /\ Ascii.eqb c "+" = false.
Proof. destruct c as [[] [] [] [] [] [] [] []]; intros H; try discriminate H; done. Qed.

Lemma is_digit_char_digit (c : ascii) :
  JSON.is_digit c = true -> is_Some (JS.char_digit 10 c).
Proof. destruct c as [[] [] [] [] [] [] [] []]; intros H; try discriminate H; by eexists. Qed.

Lemma read_decimal_stop (acc : option Z) (t : string) :
  no_digit_ahead t -> read_decimal acc t = acc.
Proof. destruct t as [|c t]; [done|]. simpl. by intros ->. Qed.

Lemma read_decimal_cons (acc : option Z) (c : ascii) (s : string) (d : Z) :
  JS.char_digit 10 c = Some d ->
  read_decimal acc (String c s) = read_decimal (Some (10 * default 0 acc + d)) s.
Proof. intros H. simpl. by rewrite H. Qed.

Lemma read_pretty_N (x : N) (t : string) :
  no_digit_ahead t -> read_decimal None (pretty x +:+ t) = Some (Z.of_N x).
Proof.
  intros Ht. unfold pretty, pretty_N. case_decide as Hx.
  - subst x. rewrite sapp_cons, sapp_nil_l.
    rewrite (read_decimal_cons None "0" t 0) by done. by rewrite read_decimal_stop.
  - rewrite pretty_N_go_app, sapp_nil_l.
    destruct (read_pretty_N_go x ltac:(lia)) as [k Hk]. rewrite Hk.
    by rewrite read_decimal_stop by done.
Qed.

Lemma pretty_N_head (x : N) (t : string) :
  exists c r, pretty x +:+ t = String c r /\ JSON.is_digit c = true.
Proof.
  unfold pretty, pretty_N. case_decide as Hx.
  - eexists _, _. by rewrite sapp_cons.
  - rewrite pretty_N_go_app. apply pretty_N_go_head. lia.
Qed.

(** X14: [parseInt] reads back what the decimal form of an integer below
    2^53 in magnitude prints, also when the digits are followed by other
    text ([12abc], [1.5], [1e3]); so the page and the limit a client
    prints are the page and the limit the validation sees. *)
Theorem parseInt_String (n : Z) (t : string) :
  - 2 ^ 53 < n < 2 ^ 53 -> no_digit_ahead t ->
  parseInt (JS.String_of_number n +:+ t) = Int n.
Proof.
  intros Hn Ht. unfold JS.String_of_number, pretty at 1, pretty_Z, parseInt.
  destruct n as [|p|p].
  - rewrite sapp_cons, sapp_nil_l, trimStart_plain by done.
    change (Ascii.eqb "0" "-") with false. change (Ascii.eqb "0" "+") with false.
    cbn [orb]. rewrite (read_decimal_cons None "0" t 0) by done.
    by rewrite read_decimal_stop.
  - change (pretty p) with (pretty (N.pos p)).
    destruct (pretty_N_head (N.pos p) t) as (c & r & Heq & Hc).
    pose proof (read_pretty_N (N.pos p) t Ht) as Hread. rewrite Heq in Hread |- *.
    destruct (digit_no_sign c Hc) as [Hm Hp]. rewrite trimStart_plain by by rewrite Hc.
    rewrite Hm, Hp. cbn [orb]. rewrite Hread.
    destruct (Z.ltb_spec (Z.of_N (N.pos p)) (2 ^ 53)); [done|]. simpl in *. lia.
  - change (pretty p) with (pretty (N.pos p)).
    rewrite sapp_assoc, sapp_cons, sapp_nil_l, trimStart_plain by done.
    change (Ascii.eqb "-" "-") with true. cbn [orb].
    rewrite (read_pretty_N (N.pos p) t Ht).
    destruct (Z.ltb_spec (Z.of_N (N.pos p)) (2 ^ 53)); [done|]. simpl in *. lia.
Qed.

Lemma parseInt_String_witness : parseInt "12abc" = Int 12.
Proof. exact (parseInt_String 12 "abc" ltac:(lia) eq_refl). Defined.

(** ** The validation of the list query *)








(** ** Requests through the router *)

(** Membership of a status in a list of statuses. *)
Ltac statuses :=
  repeat match goal with
         | H : _ ∈ _ |- _ => rewrite ?elem_of_cons, ?elem_of_nil in H
         end;
  rewrite ?elem_of_cons, ?elem_of_nil; lia.

Lemma errorResponse_status (e : exn) :
  Response.status (errorResponse e) = (errorHandler e).1.
Proof. unfold errorResponse. by destruct (errorHandler e). Qed.

Lemma errorHandler_status (e : exn) : (errorHandler e).1 ∈ [400; 404; 409; 500].
Proof.
  destruct e as [m|m|m| |code| | |]; simpl; try statuses.
  unfold errorHandler. repeat case_match; simpl; statuses.
Qed.

Section Router.
Context (E : Engine).



(** In cursor mode the page plays no part: the controller may call the
    service without it. *)
Lemma getList_cursor_page (u : string) (page page' limit : option Z)
  (cursor : option string) (st : State) :
  MyListService.getList E u Cursor page limit cursor st
  = MyListService.getList E u Cursor page' limit cursor st.
Proof. reflexivity. Qed.





Lemma handle_admitted (env : environment) (u : string) (rt : route) (st : State) :
  valid_userId u = true -> limited env = false ->
  handle E env (Some (HeaderString u)) rt st
  = match rt with
    | GetMyList query =>
        match Validate.validate Validate.listItemsQuerySchema query with
        | inl response => Some (response, st)
        | inr validated => MyListController.getList E u validated st
        end
    | PostMyList body =>
        match Validate.validate Validate.addToListSchema body with
        | inl response => Some (response, st)
        | inr validated =>
            Some (MyListController.addToList E (newId env) (now0 env) (now env) u
                    validated st)
        end
    | DeleteMyList contentId =>
        match Validate.validate Validate.contentIdParamSchema contentId with
        | inl response => Some (response, st)
        | inr validated => Some (MyListController.removeFromList u validated st)
        end
    end.
Proof.
  intros Hu Hl. unfold handle, authMiddleware. rewrite Hu, Hl.
  by destruct u.
Qed.

Lemma handle_success_admitted (env : environment) (h : option header) (rt : route)
  (st st1 : State) (response : Response.t) :
  handle E env h rt st = Some (response, st1) ->
  Response.status response = 200 \/ Response.status response = 201 ->
  exists u, h = Some (HeaderString u) /\ valid_userId u = true /\ limited env = false.
Proof.
  unfold handle, authMiddleware. intros H Hs.
  destruct h as [[s|l]|]; try (injection H as <- _; simpl in Hs; lia).
  destruct (JS.string_truthy s); [|injection H as <- _; simpl in Hs; lia].
  destruct (valid_userId s) eqn:Hv; [|injection H as <- _; simpl in Hs; lia].
  destruct (limited env); [injection H as <- _; simpl in Hs; lia|].
  by exists s.
Qed.

(** X18: a mutation that succeeded is refused when it is repeated: the same
    POST after a POST answered 201 is answered 409 with the message of
    the item already in the list, the same DELETE after a DELETE
    answered 200 (on a collection that keeps its indexes) is answered 404
    with the message of the item not in the list; neither repetition
    changes the state, whatever ObjectId and clock the second request
    meets. *)
Theorem repeated_mutation_rejected (env env' : environment) (h : option header) :
  limited env' = false ->
  (forall body st response st1,
     handle E env h (PostMyList body) st = Some (response, st1) ->
     Response.status response = 201 ->
     handle E env' h (PostMyList body) st1
     = Some (Response.mk 409 [] (Response.Failure "Item already exists in list" None), st1))
  /\ (forall k st response st1,
        store_wf (myListItems st) ->
        handle E env h (DeleteMyList k) st = Some (response, st1) ->
        Response.status response = 200 ->
        handle E env' h (DeleteMyList k) st1
        = Some (Response.mk 404 [] (Response.Failure "Item not in list" None), st1)).
Proof.
  intros Hl'. split.
  - intros body st response st1 H Hs.
    destruct (handle_success_admitted _ _ _ _ _ _ H ltac:(lia)) as (u & -> & Hu & Hl).
    rewrite handle_admitted in H |- * by done. unfold Validate.validate in *.
    destruct (Validate.addToListSchema body) as [issues|v].
    { injection H as <- _. simpl in Hs. lia. }
    unfold MyListController.addToList in *.
    destruct (MyListService.addToList E (newId env) _ _ u _ _ st) as [[added|e] st0] eqn:Hadd.
    + injection H as _ ->.
      apply addToList_Ok_pre in Hadd as (Hfind & cd & _ & _ & ->).
      unfold MyListService.addToList. cbn [myListItems].
      rewrite (findOne_last u (Validate.contentId v) (myListItems st) _ Hfind)
        by apply newItem_entry.
      done.
    + injection H as <- _. rewrite errorResponse_status in Hs.
      pose proof (errorHandler_status e). statuses.
  - intros k st response st1 Hwf H Hs.
    destruct (handle_success_admitted _ _ _ _ _ _ H ltac:(lia)) as (u & -> & Hu & Hl).
    rewrite handle_admitted in H |- * by done. unfold Validate.validate in *.
    destruct (Validate.contentIdParamSchema k) as [issues|v].
    { injection H as <- _. simpl in Hs. lia. }
    unfold MyListController.removeFromList in *.
    destruct (MyListService.removeFromList u v st) as [[[]|e] st0] eqn:Hrem.
    + injection H as _ ->.
      destruct (removeFromList_Ok u v st st1 Hwf Hrem) as (_ & Hgone & _).
      unfold MyListService.removeFromList.
      destruct (deleteOne_spec u v (myListItems st1))
        as [[-> _]|(l1 & d & l2 & Hc & _ & Hd & _)]; [done|].
      rewrite Hgone in Hd; [done|]. rewrite Hc. apply elem_of_app. right.
      apply list_elem_of_here.
    + injection H as <- _. rewrite errorResponse_status in Hs.
      pose proof (errorHandler_status e). statuses.
Qed.
End Router.


Lemma repeated_mutation_rejected_witness :
  handle strictEngine env0 (Some (HeaderString "alice"))
    (PostMyList (postBody movie1Id "movie")) state1
  = Some (Response.mk 409 [] (Response.Failure "Item already exists in list" None), state1).
Proof.
  exact (proj1 (repeated_mutation_rejected strictEngine env0 env0
                  (Some (HeaderString "alice")) eq_refl)
           (postBody movie1Id "movie") state0 _ state1 eq_refl eq_refl).
Defined.

(** ** The validation of the content id *)

Lemma contentIdCheck_nil (path s : string) :
  Validate.contentIdCheck path s = [] <-> 1 <= utf16_length s <= 50.
Proof.
  unfold Validate.contentIdCheck.
  destruct (Z.ltb_spec (utf16_length s) 1), (Z.ltb_spec 50 (utf16_length s));
    simpl; split; try done; lia.
Qed.

Lemma utf16_length_ascii (s : string) :
  all_chars (fun c => JS.byte c <? 128) s = true ->
  utf16_length s = Z.of_nat (String.length s).
Proof.
  induction s as [|c s IH]; [done|]. simpl. intros [Hc Hs]%andb_prop.
  rewrite (IH Hs). apply Z.ltb_lt in Hc.
  destruct (Z.leb_spec 128 (JS.byte c)); [lia|]. simpl.
  destruct (Z.leb_spec 240 (JS.byte c)); lia.
Qed.

Lemma hex_digits_ascii (w : nat) (n : Z) :
  all_chars (fun c => JS.byte c <? 128) (JS.fixed_digits 16 w n) = true.
Proof.
  induction w as [|w IH]; [done|]. simpl. rewrite IH, andb_true_r.
  pose proof (Z.mod_pos_bound (n / 16 ^ Z.of_nat w) 16 ltac:(lia)) as Hd.
  set (d := (n / 16 ^ Z.of_nat w) mod 16) in *. clearbody d.
  assert (d = 0 \/ d = 1 \/ d = 2 \/ d = 3 \/ d = 4 \/ d = 5 \/ d = 6 \/ d = 7
          \/ d = 8 \/ d = 9 \/ d = 10 \/ d = 11 \/ d = 12 \/ d = 13 \/ d = 14 \/ d = 15)
    as Hcases by lia.
  repeat destruct Hcases as [->|Hcases]; try done. by subst d.
Qed.

Lemma fixed_digits_length (base : Z) (w : nat) (n : Z) :
  String.length (JS.fixed_digits base w n) = w.
Proof. induction w as [|w IH]; [done|]. simpl. by rewrite IH. Qed.

(** X16: the body of a POST passes the validation exactly when it is an
    object whose [contentId] is a string of 1 to 50 UTF-16 code units
    and whose [contentType] is the string movie or tvshow; the validated
    data are these two. The parameter of a DELETE passes under the same
    bound. The printed form of every ObjectId passes, so the validation
    refuses no content of the catalogue. *)
Theorem content_id_validated :
  (forall body v,
     Validate.addToListSchema body = inr v
     <-> (exists members, body = JObj members)
         /\ JSON.get body "contentId" = Some (JStr (Validate.contentId v))
         /\ 1 <= utf16_length (Validate.contentId v) <= 50
         /\ JSON.get body "contentType"
            = Some (JStr match Validate.contentType v with
                         | movie => "movie"
                         | tvshow => "tvshow"
                         end))
  /\ (forall k v,
        Validate.contentIdParamSchema k = inr v <-> v = k /\ 1 <= utf16_length k <= 50)
  /\ (forall id, Validate.contentIdParamSchema (Mongo.ObjectId_toString id)
                 = inr (Mongo.ObjectId_toString id)).
Proof.
  split; [|split].
  - intros body v. unfold Validate.addToListSchema. split.
    + destruct body as [| | | | |members]; try done.
      destruct (JSON.get (JObj members) "contentId") as [[| | |s| |]|]; try done;
        try (by repeat case_match).
      destruct (Validate.contentIdCheck "contentId" s) as [|i rest] eqn:Hcheck;
        [|by repeat case_match].
      apply contentIdCheck_nil in Hcheck.
      destruct (JSON.get (JObj members) "contentType") as [[| | |t| |]|]; try done.
      destruct (String.eqb_spec t "movie") as [->|].
      { intros [= <-]. simpl. split; [by eexists|done]. }
      destruct (String.eqb_spec t "tvshow") as [->|]; [|done].
      intros [= <-]. simpl. split; [by eexists|done].
    + intros ([members ->] & Hid & Hlen & Htype). rewrite Hid, Htype.
      rewrite (proj2 (contentIdCheck_nil "contentId" _) Hlen).
      destruct v as [k []]; done.
  - intros k v. unfold Validate.contentIdParamSchema.
    pose proof (contentIdCheck_nil "contentId" k) as Hcheck.
    destruct (Validate.contentIdCheck "contentId" k) as [|i rest].
    + split; [intros [= <-]; split; [done|by apply Hcheck] | by intros [-> _]].
    + split; [done|]. intros [_ Hlen]. by apply Hcheck in Hlen.
  - intros id. unfold Validate.contentIdParamSchema.
    rewrite (proj2 (contentIdCheck_nil "contentId" (Mongo.ObjectId_toString id))); [done|].
    unfold Mongo.ObjectId_toString.
    rewrite utf16_length_ascii, fixed_digits_length by apply hex_digits_ascii. lia.
Qed.

(** ** The reconnection to Redis *)

(** X19: [retryStrategy] gives up after the tenth attempt; before that the
    delay is 100 ms for every attempt made so far, so it grows by 100 ms
    from one attempt to the next and is at most 1000 ms: the cap of
    3000 ms is never what it returns. *)
Theorem retryStrategy_delays (times : Z) :
  match retryStrategy times with
  | Some delay => times <= 10 /\ delay = 100 * times /\ delay <= 1000
  | None => 10 < times
  end
  /\ (times < 10 ->
      exists d d', retryStrategy times = Some d /\ retryStrategy (times + 1) = Some d'
                   /\ d' = d + 100).
Proof.
  unfold retryStrategy. split.
  - destruct (Z.ltb_spec 10 times); [done|]. lia.
  - intros Ht. destruct (Z.ltb_spec 10 times), (Z.ltb_spec 10 (times + 1)); try lia.
    eexists _, _. split; [done|]. split; [done|]. lia.
Qed.

(** * Concurrent calls of [addToList] *)



Section Concurrency.
Context (E : Engine).


(** A call that runs alone takes the steps of [addToList]. *)
Lemma run_alone (c : Concurrent.call) (st : State) :
  Concurrent.run E [c] [0; 0; 0; 0]%nat [Concurrent.AtFindOne] st
  = (let '(r, st') :=
       MyListService.addToList E (Concurrent.newId c) (Concurrent.now0 c) (Concurrent.now c)
         (Concurrent.userId c) (Concurrent.contentId c) (Concurrent.contentType c) st in
     ([Concurrent.Returned r], st')).
Proof.
  unfold MyListService.addToList. cbn [Concurrent.run lookup list_lookup Concurrent.step].
  destruct (Model.findOne _ _ _); [done|].
  cbn [insert list_insert lookup list_lookup Concurrent.step].
  destruct (MyListService.fetchContent _ _ _ _ _) as [cd|e]; [|done].
  cbn [insert list_insert lookup list_lookup Concurrent.step].
  destruct (Model.create _ _) as [c'|e]; [|done].
  cbn [insert list_insert lookup list_lookup Concurrent.step]. done.
Qed.

Variables (u k : string) (ct : ContentType) (calls : list Concurrent.call) (st0 : State).

Hypothesis same_pair :
  Forall (fun c => Concurrent.userId c = u /\ Concurrent.contentId c = k
                   /\ Concurrent.contentType c = ct
                   /\ Concurrent.newId c ∉ (MyListItem._id <$> myListItems st0)) calls.
Hypothesis not_listed : Model.findOne u k (myListItems st0) = None.
Hypothesis resolves :
  forall now0, exists cd, MyListService.fetchContent E now0 k ct st0 = Ok cd.











End Concurrency.




(** * The cache service on its own *)



